(** * codex-temporal-go: exec sessions, approval gate, plan and yield handling

    A shallow embedding of the Go sources
      - package execsession: [HeadTailBuffer] (buffer.go) and the session
        [Store] with [pruneOneLocked]
      - package workflow: approval classification and decisions
        (approval.go), sandbox denial detection and escalation
        (escalation.go), update_plan interception (plan.go)
      - package handlers: the unified exec handler behind exec_command and
        write_stdin, and the command parsing of the shell handlers
      - package workflow, further: util.go and the validation of
        request_user_input
      - package cli: the answers to approval and escalation prompts
    together with the properties the specification states about them and
    further properties of the same code. *)

From Stdlib Require Import ZArith Lia List Bool Ascii String Permutation DecimalString.
From Stdlib Require Import DecimalPos DecimalZ.
From Stdlib.Strings Require Import Byte.
From stdpp Require Import base gmap strings list fin_maps sorting.

Local Open Scope Z_scope.

(** ** Go's [int] on a 64-bit platform *)

Module GoInt.

Definition int_min : Z := - 2 ^ 63.
Definition int_max : Z := 2 ^ 63 - 1.

(** Two's complement wrap-around of a mathematical integer into [int]. *)
Definition wrap (z : Z) : Z := (z + 2 ^ 63) mod 2 ^ 64 - 2 ^ 63.

Definition add (a b : Z) : Z := wrap (a + b).
Definition sub (a b : Z) : Z := wrap (a - b).
(** [a / b] truncates toward zero. *)
Definition quot (a b : Z) : Z := wrap (Z.quot a b).

Definition in_range (z : Z) : Prop := int_min <= z <= int_max.

(** [len(s)] of a slice or string. *)
Definition len {A} (l : list A) : Z := Z.of_nat (length l).

End GoInt.

Import GoInt.

(** Unfold the bounds of [int] to numerals, for [lia]. *)
Ltac int_bounds :=
  unfold in_range, int_min, int_max in *;
  change (2 ^ 64) with 18446744073709551616 in *;
  change (2 ^ 63) with 9223372036854775808 in *.

(** ** Package execsession: buffer.go *)

Module Buffer.

Definition bytes := list byte.

Record HeadTailBuffer := mkBuffer {
  maxBytes : Z;
  headBudget : Z;
  tailBudget : Z;
  head : list bytes;
  tail : list bytes;
  headBytes : Z;
  tailBytes : Z;
  omitted : Z;
  totalEver : Z
}.

Definition NewHeadTailBuffer (maxBytes : Z) : HeadTailBuffer :=
  let headBudget := quot maxBytes 2 in
  let tailBudget := sub maxBytes headBudget in
  {| maxBytes := maxBytes; headBudget := headBudget; tailBudget := tailBudget;
     head := []; tail := []; headBytes := 0; tailBytes := 0;
     omitted := 0; totalEver := 0 |}.

Definition set_omitted (b : HeadTailBuffer) (v : Z) : HeadTailBuffer :=
  {| maxBytes := maxBytes b; headBudget := headBudget b; tailBudget := tailBudget b;
     head := head b; tail := tail b; headBytes := headBytes b;
     tailBytes := tailBytes b; omitted := v; totalEver := totalEver b |}.

Definition set_totalEver (b : HeadTailBuffer) (v : Z) : HeadTailBuffer :=
  {| maxBytes := maxBytes b; headBudget := headBudget b; tailBudget := tailBudget b;
     head := head b; tail := tail b; headBytes := headBytes b;
     tailBytes := tailBytes b; omitted := omitted b; totalEver := v |}.

Definition set_head (b : HeadTailBuffer) (h : list bytes) (hb : Z) : HeadTailBuffer :=
  {| maxBytes := maxBytes b; headBudget := headBudget b; tailBudget := tailBudget b;
     head := h; tail := tail b; headBytes := hb;
     tailBytes := tailBytes b; omitted := omitted b; totalEver := totalEver b |}.

Definition set_tail (b : HeadTailBuffer) (t : list bytes) (tb om : Z) : HeadTailBuffer :=
  {| maxBytes := maxBytes b; headBudget := headBudget b; tailBudget := tailBudget b;
     head := head b; tail := t; headBytes := headBytes b;
     tailBytes := tb; omitted := om; totalEver := totalEver b |}.

(** The loop of [trimTailToBudget]: [for excess > 0 && len(b.tail) > 0].
  The slice [front[excess:]] is taken under [0 < excess < len(front)]. *)
Fixpoint trimLoop (excess : Z) (tl : list bytes) (tb om : Z)
  : list bytes * Z * Z :=
  match tl with
  | [] => (tl, tb, om)
  | front :: rest =>
      if 0 <? excess then
        if len front <=? excess then
          trimLoop (sub excess (len front)) rest
                   (sub tb (len front)) (add om (len front))
        else
          (skipn (Z.to_nat excess) front :: rest, sub tb excess, add om excess)
      else (tl, tb, om)
  end.

Definition trimTailToBudget (b : HeadTailBuffer) : HeadTailBuffer :=
  let excess := sub (tailBytes b) (tailBudget b) in
  let '(t, tb, om) := trimLoop excess (tail b) (tailBytes b) (omitted b) in
  set_tail b t tb om.

(** The slice expressions [s[lo:]] and [s[:hi]]; [None] is the run-time
  panic for bounds out of range. *)
Definition slice_from {A} (s : list A) (lo : Z) : option (list A) :=
if (0 <=? lo) && (lo <=? len s) then Some (skipn (Z.to_nat lo) s) else None.

Definition slice_to {A} (s : list A) (hi : Z) : option (list A) :=
if (0 <=? hi) && (hi <=? len s) then Some (firstn (Z.to_nat hi) s) else None.

(** [None]: the slice [chunk[start:]] panics. *)
Definition pushToTail (chunk : bytes) (b : HeadTailBuffer) : option HeadTailBuffer :=
if tailBudget b =? 0 then Some (set_omitted b (add (omitted b) (len chunk)))
else if tailBudget b <=? len chunk then
  let start := sub (len chunk) (tailBudget b) in
  match slice_from chunk start with
  | None => None
  | Some kept =>
      let dropped := sub (len chunk) (len kept) in
      Some (set_tail b [kept] (len kept)
                     (add (omitted b) (add (tailBytes b) dropped)))
  end
else
  Some (trimTailToBudget
          (set_tail b (tail b ++ [chunk]) (add (tailBytes b) (len chunk)) (omitted b))).

Definition pushUnlocked (chunk : bytes) (b : HeadTailBuffer) : option HeadTailBuffer :=
if maxBytes b =? 0 then Some (set_omitted b (add (omitted b) (len chunk)))
else if headBytes b <? headBudget b then
  let remaining := sub (headBudget b) (headBytes b) in
  if len chunk <=? remaining then
    Some (set_head b (head b ++ [chunk]) (add (headBytes b) (len chunk)))
  else
    match slice_to chunk remaining, slice_from chunk remaining with
    | Some headPart, Some tailPart =>
        let b1 := if 0 <? len headPart
                  then set_head b (head b ++ [headPart])
                                (add (headBytes b) (len headPart))
                  else b in
        pushToTail tailPart b1
    | _, _ => None
    end
else pushToTail chunk b.

Definition Push (chunk : bytes) (b : HeadTailBuffer) : option HeadTailBuffer :=
if len chunk =? 0 then Some b
else pushUnlocked chunk (set_totalEver b (add (totalEver b) (len chunk))).

Definition toBytesUnlocked (b : HeadTailBuffer) : bytes :=
  let size := add (headBytes b) (tailBytes b) in
  if size =? 0 then [] else concat (head b) ++ concat (tail b).

Definition Snapshot (b : HeadTailBuffer) : bytes := toBytesUnlocked b.
Definition RetainedBytes (b : HeadTailBuffer) : Z := add (headBytes b) (tailBytes b).
Definition OmittedBytes (b : HeadTailBuffer) : Z := omitted b.
Definition TotalWritten (b : HeadTailBuffer) : Z := totalEver b.

(** [DrainChunks] returns the retained chunks and the reset buffer;
    [totalEver] is left as it is. *)
Definition DrainChunks (b : HeadTailBuffer) : list bytes * HeadTailBuffer :=
  (head b ++ tail b,
   {| maxBytes := maxBytes b; headBudget := headBudget b; tailBudget := tailBudget b;
      head := []; tail := []; headBytes := 0; tailBytes := 0;
      omitted := 0; totalEver := totalEver b |}).

(** Operations a client can perform on a buffer. *)
Inductive op := OpPush (chunk : bytes) | OpDrain.

Definition apply_op (b : HeadTailBuffer) (o : op) : option HeadTailBuffer :=
match o with
| OpPush c => Push c b
| OpDrain => Some (snd (DrainChunks b))
end.

(** A sequence of operations; it stops at the first panic. *)
Fixpoint run (ops : list op) (b : HeadTailBuffer) : option HeadTailBuffer :=
match ops with
| [] => Some b
| o :: ops' =>
    match apply_op b o with
    | Some b' => run ops' b'
    | None => None
    end
end.

Definition pushAll (chunks : list bytes) (b : HeadTailBuffer) : option HeadTailBuffer :=
run (map OpPush chunks) b.

(** *** Vocabulary for the buffer's properties *)

(** The last [n] elements of a list. *)
Definition lastn {A} (n : nat) (l : list A) : list A :=
  skipn (length l - n) l.

(** Floor and ceiling of half the capacity, as byte counts. *)
Definition half_floor (M : Z) : nat := Z.to_nat (Z.quot M 2).
Definition half_ceil (M : Z) : nat := Z.to_nat (M - Z.quot M 2).

(** A chunk is a Go slice: its length fits in an [int]. *)
Definition chunk_ok (c : bytes) : Prop := len c <= int_max.

(** The retained content after the bytes [all] have been pushed into a
    buffer of capacity [M]. *)
Record content_inv (M : Z) (all : bytes) (b : HeadTailBuffer) : Prop := {
  ci_max : maxBytes b = M;
  ci_hb : headBudget b = Z.quot M 2;
  ci_tb : tailBudget b = M - Z.quot M 2;
  ci_head : concat (head b) = firstn (half_floor M) all;
  ci_tail : concat (tail b) = lastn (half_ceil M) (skipn (half_floor M) all);
  ci_headBytes : headBytes b = len (concat (head b));
  ci_tailBytes : tailBytes b = len (concat (tail b))
}.

(** The two counters, as [int] values: [omitted] counts what was dropped
    from the bytes [since] the last drain, [totalEver] counts the bytes
    [ever] pushed. *)
Record count_inv (since ever : bytes) (b : HeadTailBuffer) : Prop := {
  cn_omitted : omitted b = wrap (len since - headBytes b - tailBytes b);
  cn_total : totalEver b = wrap (len ever)
}.

Definition op_ok (o : op) : Prop :=
  match o with OpPush c => chunk_ok c | OpDrain => True end.

(** All bytes ever passed to [Push] by a sequence of operations,
    continuing from [acc]. *)
Fixpoint pushed_from (acc : bytes) (ops : list op) : bytes :=
  match ops with
  | [] => acc
  | OpPush c :: ops' => pushed_from (acc ++ c) ops'
  | OpDrain :: ops' => pushed_from acc ops'
  end.

Definition pushed (ops : list op) : bytes := pushed_from [] ops.

(** The bytes passed to [Push] after the last [DrainChunks]. *)
Fixpoint since_drain_from (acc : bytes) (ops : list op) : bytes :=
  match ops with
  | [] => acc
  | OpPush c :: ops' => since_drain_from (acc ++ c) ops'
  | OpDrain :: ops' => since_drain_from [] ops'
  end.

Definition since_drain (ops : list op) : bytes := since_drain_from [] ops.

(** Sample data. *)
Definition abc : bytes := ["a"; "b"; "c"]%byte.
Definition defgh : bytes := ["d"; "e"; "f"; "g"; "h"]%byte.

End Buffer.

Import Buffer.

(** ** Package execsession: the session store *)

Module Store.

Definition MaxSessions : nat := 64.
Definition ProtectedCount : nat := 8.

(** Modelled from the spec: the [ExecSession] type, whose declaration
    (session.go) is not among the sources. The store reads three things of
    a session: its [ProcessID], its [LastUsed] time (as [UnixNano()], an
    int64) and [HasExited()]; the handlers also read [ExitCode()], a
    [*int] that is nil while the process runs. *)
Record ExecSession := mkSession {
  ProcessID : string;
  LastUsed : Z;
  HasExited : bool;
  ExitCode : option Z
}.

(** [reserved] is a [map[string]bool] that only ever holds [true]. *)
Record Store := mkStore {
  sessions : gmap string ExecSession;
  reserved : gset string
}.

Definition NewStore : Store := mkStore ∅ ∅.

(** The local [candidate] struct of [pruneOneLocked]. *)
Record candidate := mkCandidate {
  id : string;
  lastUsed : Z;
  exited : bool
}.

(** The candidates in one iteration order of the map. *)
Definition candidates_of (s : Store) : list candidate :=
  (fun kv => mkCandidate kv.1 (LastUsed kv.2) (HasExited kv.2))
    <$> map_to_list (sessions s).

(** [a] may stand before [b] after [sort.Slice] with
    [less(i, j) = candidates[i].lastUsed > candidates[j].lastUsed]. *)
Definition more_recent (a b : candidate) : Prop := lastUsed b <= lastUsed a.

#[global] Instance more_recent_dec a b : Decision (more_recent a b).
Proof. unfold more_recent. apply _. Defined.

#[global] Instance more_recent_trans : Transitive more_recent.
Proof. unfold more_recent. intros a b c. lia. Qed.

#[global] Instance more_recent_total : Total more_recent.
Proof. unfold more_recent. intros a b. lia. Qed.

(** Go iterates a map in an unspecified order and [sort.Slice] is not
    stable: any permutation of the candidates that is ordered by
    descending [lastUsed] can come out. *)
Definition sort_outcome (cands sorted : list candidate) : Prop :=
  sorted ≡ₚ cands /\ StronglySorted more_recent sorted.

(** One such outcome, computed. *)
Definition sortCandidates (cands : list candidate) : list candidate :=
  merge_sort more_recent cands.

Definition unprotected (cands : list candidate) : list candidate :=
  if decide (ProtectedCount < length cands)%nat
  then drop ProtectedCount cands
  else cands.

(** [for i := len(unprotected) - 1; i >= 0; i--], on the reversed list. *)
Fixpoint scanExited (backwards : list candidate) : string :=
  match backwards with
  | [] => ""
  | c :: rest => if exited c then id c else scanExited rest
  end.

Definition lastId (l : list candidate) : string :=
  match last l with
  | Some c => id c
  | None => ""
  end.

Definition pickVictim (cands : list candidate) : string :=
  let u := unprotected cands in
  let victim := scanExited (reverse u) in
  if String.eqb victim "" && (0 <? length u)%nat then lastId u else victim.

(** The rest of [pruneOneLocked], after the candidates have been sorted. *)
Definition pruneOneLocked (sorted : list candidate) (s : Store) : Store :=
  let victim := pickVictim sorted in
  if String.eqb victim "" then s
  else mkStore (delete victim (sessions s)) (reserved s ∖ {[victim]}).

Definition insertSession (sess : ExecSession) (s : Store) : Store :=
  mkStore (<[ProcessID sess := sess]> (sessions s))
          ({[ProcessID sess]} ∪ reserved s).

(** [Store], given the sorted candidates its pruning step works on. *)
Definition StoreWith (sorted : list candidate) (sess : ExecSession) (s : Store) : Store :=
  let s1 := insertSession sess s in
  if decide (MaxSessions < size (sessions s1))%nat
  then pruneOneLocked sorted s1
  else s1.

(** [Store], with the candidates sorted by [sortCandidates]. *)
Definition StoreSession (sess : ExecSession) (s : Store) : Store :=
  StoreWith (sortCandidates (candidates_of (insertSession sess s))) sess s.

(** [Get]: the session, or [None] for [ErrUnknownProcessID]. *)
Definition Get (processID : string) (s : Store) : option ExecSession :=
  sessions s !! processID.

Definition Remove (processID : string) (s : Store) : Store :=
  mkStore (delete processID (sessions s)) (reserved s ∖ {[processID]}).

Definition ReleaseID (processID : string) (s : Store) : Store :=
  mkStore (sessions s) (reserved s ∖ {[processID]}).

Definition Count (s : Store) : nat := size (sessions s).

(** The store holds sessions by pointer: a session's [LastUsed] and exit
    state change outside the store's own methods. *)
Definition touchSession (processID : string) (lu : Z) (ex : bool) (s : Store) : Store :=
  mkStore (alter (fun x => mkSession (ProcessID x) lu ex (ExitCode x)) processID (sessions s))
          (reserved s).

Inductive op :=
| OpStore (sess : ExecSession)
| OpGet (processID : string)
| OpRemove (processID : string)
| OpTouch (processID : string) (lu : Z) (ex : bool).

Inductive step : Store -> op -> Store -> Prop :=
| step_Store s sess sorted :
    sort_outcome (candidates_of (insertSession sess s)) sorted ->
    step s (OpStore sess) (StoreWith sorted sess s)
| step_Get s processID : step s (OpGet processID) s
| step_Remove s processID : step s (OpRemove processID) (Remove processID s)
| step_Touch s processID lu ex :
    step s (OpTouch processID lu ex) (touchSession processID lu ex s).

Inductive steps : Store -> list op -> Store -> Prop :=
| steps_nil s : steps s [] s
| steps_cons s o s1 ops s2 : step s o s1 -> steps s1 ops s2 -> steps s (o :: ops) s2.

(** The deterministic run that sorts with [sortCandidates]. *)
Definition apply_op (s : Store) (o : op) : Store :=
  match o with
  | OpStore sess => StoreSession sess s
  | OpGet _ => s
  | OpRemove processID => Remove processID s
  | OpTouch processID lu ex => touchSession processID lu ex s
  end.

Definition run (ops : list op) (s : Store) : Store := fold_left apply_op ops s.

(** Session ids as the handlers allocate them are never the empty string. *)
Definition op_ok (o : op) : Prop :=
  match o with
  | OpStore sess => ProcessID sess <> ""
  | _ => True
  end.

(** The invariant of the store: the cap, and no session under the empty id. *)
Definition store_inv (s : Store) : Prop :=
  (Count s <= MaxSessions)%nat /\ sessions s !! "" = None.

(** The position of the victim in the sorted candidates. *)
Definition victim_at (sorted : list candidate) (i : nat) (c : candidate) : Prop :=
  sorted !! i = Some c /\ id c = pickVictim sorted.

(** Sample sessions, named by one character, of increasing recency. *)
Definition sample (k : nat) (ex : bool) : ExecSession :=
  mkSession (String (ascii_of_nat (48 + k)) "") (Z.of_nat k) ex
            (if ex then Some 0 else None).

(** Storing [n] sample sessions one after the other; the first [x] of them
    have exited. *)
Definition sampleOps (n x : nat) : list op :=
  (fun k => OpStore (sample k (k <? x)%nat)) <$> seq 0 n.

End Store.

(** ** Package workflow: approval.go, escalation.go, plan.go *)

Module Workflow.

Local Open Scope string_scope.

(** Modelled from the spec: the values of [models.ApprovalMode] (package
    models is not among the sources); [ComposeDeveloperInstructions]
    switches on the same strings. *)
Definition ApprovalMode := string.
Definition ApprovalNever : ApprovalMode := "never".
Definition ApprovalOnFailure : ApprovalMode := "on-failure".
Definition ApprovalUnlessTrusted : ApprovalMode := "unless-trusted".

(** Modelled from the spec: the item kinds of [models.ConversationItem]. *)
Inductive ItemType :=
| ItemTypeUserMessage
| ItemTypeAssistantMessage
| ItemTypeFunctionCall
| ItemTypeFunctionCallOutput
| ItemTypeTurnStarted
| ItemTypeTurnComplete
| ItemTypeCompaction
| ItemTypeWebSearchCall.

(** [Success] is a [*bool]: [None] is the nil pointer. *)
Record FunctionCallOutputPayload := mkPayload {
  Content : string;
  Success : option bool
}.

Record ConversationItem := mkItem {
  Type_ : ItemType;
  CallID : string;
  Name : string;
  Arguments : string;
  Output : option FunctionCallOutputPayload
}.

(** [tools.ExecApprovalRequirement] *)
Inductive ExecApprovalRequirement := ApprovalSkip | ApprovalNeeded | ApprovalForbidden.

(** [execpolicy.Decision]; [DecisionOther] stands for any value outside the
    three named ones (the [default:] arm of [decisionToApprovalReq]). *)
Inductive Decision := DecisionAllow | DecisionPrompt | DecisionForbidden | DecisionOther.

Record Evaluation := mkEvaluation {
  Decision_ : Decision;
  Justification : string
}.

(** [*execpolicy.ExecPolicyManager], through the two methods approval.go calls. *)
Record ExecPolicyManager := mkManager {
  GetEvaluation : list string -> string -> Evaluation;
  EvaluateCommand : list string -> string -> ExecApprovalRequirement
}.

(** A decoded JSON value ([interface{}] after [json.Unmarshal]). *)
#[warnings="-register-all"]
Inductive JSONValue :=
| JNull
| JBool (b : bool)
| JNumber (n : Z)
| JString (s : string)
| JArray (l : list JSONValue)
| JObject (fields : list (string * JSONValue)).

(** The arguments struct [parseUpdatePlanArgs] decodes into. *)
Record PlanArg := mkPlanArg { ArgStep : string; ArgStatus : string }.
Record UpdatePlanArgs := mkUpdatePlanArgs {
  ArgExplanation : string;
  ArgPlan : list PlanArg
}.

(** The errors of [parseUpdatePlanArgs], one per [fmt.Errorf]. *)
Inductive PlanError :=
| ErrInvalidJSON
| ErrEmptyPlan
| ErrEmptyStep (n : Z)
| ErrInvalidStatus (n : Z) (status : string)
| ErrTooManyInProgress (count : Z).

(** Code that the workflow package calls and that is taken as a parameter:
    the Go standard library ([encoding/json], [strings], [fmt]), package
    execpolicy and [isCollabToolCall], which are not among the sources,
    and the shell that package shell detects from the environment. *)
Record External := mkExternal {
  (** [isCollabToolCall], defined in a file that is not among the sources *)
  isCollabToolCall : string -> bool;
  (** [execpolicy.LoadExecPolicyFromSource]; [None] when it returns an error *)
  LoadExecPolicyFromSource : string -> option ExecPolicyManager;
  (** [execpolicy.NewExecPolicyManager(execpolicy.NewPolicy())] *)
  defaultPolicyManager : ExecPolicyManager;
  (** [json.Unmarshal] into a [map[string]interface{}]; [None] on error *)
  unmarshalObject : string -> option (gmap string JSONValue);
  (** [json.Unmarshal] into the args struct of [parseUpdatePlanArgs] *)
  unmarshalPlanArgs : string -> option UpdatePlanArgs;
  (** [shell.DetectUserShell().DeriveExecArgs] *)
  DeriveExecArgs : string -> bool -> list string;
  (** [strings.ToLower] *)
  ToLower : string -> string;
  (** the text [%v] prints for an error of [parseUpdatePlanArgs] *)
  planErrorText : PlanError -> string
}.

(** *** approval.go *)

Record PendingApproval := mkPending {
  PendingCallID : string;
  PendingToolName : string;
  PendingArguments : string;
  PendingReason : string
}.

Record ApprovalResponse := mkResponse {
  Approved : list string;
  Denied : list string
}.

Definition decisionToApprovalReq (d : Decision) : ExecApprovalRequirement :=
  match d with
  | DecisionAllow => ApprovalSkip
  | DecisionPrompt => ApprovalNeeded
  | DecisionForbidden => ApprovalForbidden
  | DecisionOther => ApprovalNeeded
  end.

(** [policyMgr] is a pointer: [None] is nil. *)
Definition evaluateCommandVecApproval (E : External) (cmdVec : list string)
    (policyMgr : option ExecPolicyManager) (mode : ApprovalMode)
  : ExecApprovalRequirement * string :=
  match policyMgr with
  | Some mgr =>
      let eval := GetEvaluation mgr cmdVec mode in
      (decisionToApprovalReq (Decision_ eval), Justification eval)
  | None =>
      if String.eqb mode ApprovalNever || String.eqb mode "" then (ApprovalSkip, "")
      else if String.eqb mode ApprovalOnFailure then (ApprovalSkip, "")
      else (EvaluateCommand (defaultPolicyManager E) cmdVec mode, "")
  end.

(** The loop turning [[]interface{}] into [[]string]; [None] at the first
    element that is not a string. *)
Fixpoint stringElements (l : list JSONValue) : option (list string) :=
  match l with
  | [] => Some []
  | JString s :: rest =>
      match stringElements rest with
      | Some ss => Some (s :: ss)
      | None => None
      end
  | _ :: _ => None
  end.

Definition evaluateShellArrayApproval (E : External) (arguments : string)
    (policyMgr : option ExecPolicyManager) (mode : ApprovalMode)
  : ExecApprovalRequirement * string :=
  match unmarshalObject E arguments with
  | None => (ApprovalNeeded, "cannot parse arguments")
  | Some args =>
      match args !! "command" with
      | Some (JArray (v :: vs)) =>
          match stringElements (v :: vs) with
          | None => (ApprovalNeeded, "command array contains non-string element")
          | Some cmdVec => evaluateCommandVecApproval E cmdVec policyMgr mode
          end
      | _ => (ApprovalNeeded, "missing command")
      end
  end.

Definition evaluateShellCommandApproval (E : External) (arguments : string)
    (policyMgr : option ExecPolicyManager) (mode : ApprovalMode)
  : ExecApprovalRequirement * string :=
  match unmarshalObject E arguments with
  | None => (ApprovalNeeded, "cannot parse arguments")
  | Some args =>
      match args !! "command" with
      | Some (JString cmd) =>
          if String.eqb cmd "" then (ApprovalNeeded, "missing command")
          else
            let login :=
              match args !! "login" with
              | Some (JBool loginVal) => loginVal
              | _ => true
              end in
            let cmdVec := DeriveExecArgs E cmd login in
            evaluateCommandVecApproval E cmdVec policyMgr mode
      | _ => (ApprovalNeeded, "missing command")
      end
  end.

Definition isReadOnlyTool (toolName : string) : bool :=
  String.eqb toolName "read_file" || String.eqb toolName "list_dir" ||
  String.eqb toolName "grep_files" || String.eqb toolName "request_user_input" ||
  String.eqb toolName "update_plan".

Definition evaluateToolApproval (E : External) (toolName arguments : string)
    (policyMgr : option ExecPolicyManager) (mode : ApprovalMode)
  : ExecApprovalRequirement * string :=
  if isCollabToolCall E toolName then (ApprovalSkip, "")
  else if isReadOnlyTool toolName then (ApprovalSkip, "")
  else if String.eqb toolName "shell" then
    evaluateShellArrayApproval E arguments policyMgr mode
  else if String.eqb toolName "shell_command" then
    evaluateShellCommandApproval E arguments policyMgr mode
  else if String.eqb toolName "write_file" || String.eqb toolName "apply_patch" then
    if String.eqb mode ApprovalNever then (ApprovalSkip, "")
    else (ApprovalNeeded, "mutating file operation")
  else
    if String.eqb mode ApprovalNever then (ApprovalSkip, "")
    else (ApprovalNeeded, "unknown tool").

Definition forbiddenItem (fc : ConversationItem) (reason : string) : ConversationItem :=
  let msg := if String.eqb reason "" then "This command is forbidden by exec policy."
             else "Forbidden: " +:+ reason in
  mkItem ItemTypeFunctionCallOutput (CallID fc) "" ""
         (Some (mkPayload msg (Some false))).

(** The body of the [for _, fc := range functionCalls] loop. *)
Fixpoint classifyLoop (E : External) (policyMgr : option ExecPolicyManager)
    (mode : ApprovalMode) (functionCalls : list ConversationItem)
    (pending : list PendingApproval) (forbidden : list ConversationItem)
  : list PendingApproval * list ConversationItem :=
  match functionCalls with
  | [] => (pending, forbidden)
  | fc :: rest =>
      let '(req, reason) := evaluateToolApproval E (Name fc) (Arguments fc) policyMgr mode in
      match req with
      | ApprovalSkip => classifyLoop E policyMgr mode rest pending forbidden
      | ApprovalNeeded =>
          classifyLoop E policyMgr mode rest
            (pending ++ [mkPending (CallID fc) (Name fc) (Arguments fc) reason])
            forbidden
      | ApprovalForbidden =>
          classifyLoop E policyMgr mode rest pending
            (forbidden ++ [forbiddenItem fc reason])
      end
  end.

Definition buildPolicyManager (E : External) (policyRules : string)
  : option ExecPolicyManager :=
  if String.eqb policyRules "" then None
  else LoadExecPolicyFromSource E policyRules.

Definition classifyToolsForApproval (E : External)
    (functionCalls : list ConversationItem) (mode : ApprovalMode)
    (policyRules : string)
  : list PendingApproval * list ConversationItem :=
  if String.eqb mode "" || String.eqb mode ApprovalNever then ([], [])
  else classifyLoop E (buildPolicyManager E policyRules) mode functionCalls [] [].

(** [deniedSet := make(map[string]bool); for _, id := range resp.Denied { deniedSet[id] = true }] *)
Definition buildDeniedSet (denied : list string) : gmap string bool :=
  fold_left (fun m id => <[id := true]> m) denied ∅.

(** Reading a [map[string]bool] at a missing key gives [false]. *)
Definition lookupBool (m : gmap string bool) (k : string) : bool :=
  default false (m !! k).

Definition deniedItem (fc : ConversationItem) : ConversationItem :=
  mkItem ItemTypeFunctionCallOutput (CallID fc) "" ""
         (Some (mkPayload "User denied execution of this tool call." (Some false))).

Fixpoint decisionLoop (deniedSet : gmap string bool)
    (functionCalls approved denied : list ConversationItem)
  : list ConversationItem * list ConversationItem :=
  match functionCalls with
  | [] => (approved, denied)
  | fc :: rest =>
      if lookupBool deniedSet (CallID fc)
      then decisionLoop deniedSet rest approved (denied ++ [deniedItem fc])
      else decisionLoop deniedSet rest (approved ++ [fc]) denied
  end.

(** [resp] is a pointer: [None] is nil. *)
Definition applyApprovalDecision (functionCalls : list ConversationItem)
    (resp : option ApprovalResponse)
  : list ConversationItem * list ConversationItem :=
  match resp with
  | None => (functionCalls, [])
  | Some r => decisionLoop (buildDeniedSet (Denied r)) functionCalls [] []
  end.

(** What the loop of [classifyToolsForApproval] adds for one call. *)
Definition pendingOf (E : External) (policyMgr : option ExecPolicyManager)
    (mode : ApprovalMode) (fc : ConversationItem) : option PendingApproval :=
  match evaluateToolApproval E (Name fc) (Arguments fc) policyMgr mode with
  | (ApprovalNeeded, reason) =>
      Some (mkPending (CallID fc) (Name fc) (Arguments fc) reason)
  | _ => None
  end.

Definition forbiddenOf (E : External) (policyMgr : option ExecPolicyManager)
    (mode : ApprovalMode) (fc : ConversationItem) : option ConversationItem :=
  match evaluateToolApproval E (Name fc) (Arguments fc) policyMgr mode with
  | (ApprovalForbidden, reason) => Some (forbiddenItem fc reason)
  | _ => None
  end.

(** A synthetic output that reports a failure with the given content. *)
Definition failedOutput (item : ConversationItem) (callID content : string) : Prop :=
  Type_ item = ItemTypeFunctionCallOutput /\ CallID item = callID /\
  Output item = Some (mkPayload content (Some false)).

(** *** escalation.go *)

Definition sandboxDenialKeywords : list string :=
  [ "operation not permitted";
    "permission denied";
    "read-only file system";
    "seccomp";
    "sandbox";
    "landlock";
    "failed to write file" ].

(** [strings.HasPrefix] and [strings.Contains] on byte strings. *)
Fixpoint HasPrefix (s prefix : string) {struct prefix} : bool :=
  match prefix, s with
  | EmptyString, _ => true
  | String p prefix', String c s' => Ascii.eqb c p && HasPrefix s' prefix'
  | String _ _, EmptyString => false
  end.

Fixpoint Contains (s substr : string) : bool :=
  HasPrefix s substr ||
  match s with
  | EmptyString => false
  | String _ s' => Contains s' substr
  end.

(** [for _, kw := range sandboxDenialKeywords] with its early return. *)
Fixpoint anyKeyword (lower : string) (keywords : list string) : bool :=
  match keywords with
  | [] => false
  | kw :: rest => if Contains lower kw then true else anyKeyword lower rest
  end.

Definition isLikelySandboxDenial (E : External) (output : string) : bool :=
  let lower := ToLower E output in
  anyKeyword lower sandboxDenialKeywords.

(** [activities.ToolActivityOutput], as far as escalation.go reads it. *)
Record ToolActivityOutput := mkToolOutput {
  ResultCallID : string;
  ResultContent : string;
  ResultSuccess : option bool
}.

Record EscalationRequest := mkEscalation {
  EscCallID : string;
  EscToolName : string;
  EscArguments : string;
  EscOutput : string;
  EscReason : string
}.

Definition isFailed (result : ToolActivityOutput) : bool :=
  match ResultSuccess result with
  | Some false => true
  | _ => false
  end.

(** The first loop of [handleOnFailureEscalation], from index [i] on.
    [functionCalls[i]] is read for every failed result and panics when [i]
    is out of range: [None]. *)
Fixpoint findEscalations (E : External) (functionCalls : list ConversationItem)
    (i : nat) (toolResults : list ToolActivityOutput)
    (escalations : list EscalationRequest) (failedIndices : gset nat)
  : option (list EscalationRequest * gset nat) :=
  match toolResults with
  | [] => Some (escalations, failedIndices)
  | result :: rest =>
      if isFailed result then
        match functionCalls !! i with
        | None => None
        | Some fc =>
            if isLikelySandboxDenial E (ResultContent result) then
              findEscalations E functionCalls (S i) rest
                (escalations ++
                   [mkEscalation (ResultCallID result) (Name fc) (Arguments fc)
                                 (ResultContent result) "command failed in sandbox"])
                ({[i]} ∪ failedIndices)
            else findEscalations E functionCalls (S i) rest escalations failedIndices
        end
      else findEscalations E functionCalls (S i) rest escalations failedIndices
  end.

(** The escalation request of a result and its call, if the result goes
    to escalation. *)
Definition escalationOf (E : External) (rc : ToolActivityOutput * ConversationItem)
  : option EscalationRequest :=
  let '(result, fc) := rc in
  if isFailed result && isLikelySandboxDenial E (ResultContent result)
  then Some (mkEscalation (ResultCallID result) (Name fc) (Arguments fc)
                          (ResultContent result) "command failed in sandbox")
  else None.

Inductive Phase :=
| PhaseIdle
| PhaseWaitingForInput
| PhaseLLMCalling
| PhaseToolExecuting
| PhaseApprovalPending
| PhaseEscalationPending
| PhaseUserInputPending.

(** *** plan.go *)

(** Modelled from the spec: the values of [PlanStepStatus] (declared in a
    file that is not among the sources); the error text and the tests of
    [parseUpdatePlanArgs] use the same three strings. *)
Definition PlanStepStatus := string.
Definition PlanStepPending : PlanStepStatus := "pending".
Definition PlanStepInProgress : PlanStepStatus := "in_progress".
Definition PlanStepCompleted : PlanStepStatus := "completed".

Record PlanStep := mkPlanStep { Step : string; Status : PlanStepStatus }.

Record PlanState := mkPlanState {
  Explanation : string;
  Steps : list PlanStep
}.

(** The fields of [SessionState] that escalation.go and plan.go write. *)
Record SessionState := mkSessionState {
  SessionPhase : Phase;
  PendingEscalations : list EscalationRequest;
  EscalationReceived : bool;
  EscalationResponse : option ApprovalResponse;
  Plan : option PlanState
}.

(** [handleOnFailureEscalation] up to the point where it waits for the
    user's decision: the escalation requests found and the state it
    leaves. [None] is the index panic of [findEscalations]. *)
Definition beginEscalation (E : External) (s : SessionState)
    (functionCalls : list ConversationItem) (toolResults : list ToolActivityOutput)
  : option (list EscalationRequest * gset nat * SessionState) :=
  match findEscalations E functionCalls 0 toolResults [] ∅ with
  | None => None
  | Some (escalations, failedIndices) =>
      if (length escalations =? 0)%nat then Some (escalations, failedIndices, s)
      else Some (escalations, failedIndices,
                 mkSessionState PhaseEscalationPending escalations false None (Plan s))
  end.

Definition isValidStatus (status : PlanStepStatus) : bool :=
  String.eqb status PlanStepPending || String.eqb status PlanStepInProgress ||
  String.eqb status PlanStepCompleted.

(** The [for i, s := range args.Plan] loop; [i] counts from 0, errors carry
    [i+1]. *)
Fixpoint parseSteps (i : Z) (plan : list PlanArg) (inProgressCount : Z)
    (steps : list PlanStep) : PlanError + (list PlanStep * Z) :=
  match plan with
  | [] => inr (steps, inProgressCount)
  | s :: rest =>
      if String.eqb (ArgStep s) "" then inl (ErrEmptyStep (GoInt.add i 1))
      else
        let status := ArgStatus s in
        if negb (isValidStatus status) then inl (ErrInvalidStatus (GoInt.add i 1) (ArgStatus s))
        else
          let inProgressCount' :=
            if String.eqb status PlanStepInProgress
            then GoInt.add inProgressCount 1 else inProgressCount in
          parseSteps (GoInt.add i 1) rest inProgressCount'
                     (steps ++ [mkPlanStep (ArgStep s) status])
  end.

Definition parseUpdatePlanArgs (E : External) (argsJSON : string)
  : PlanError + PlanState :=
  match unmarshalPlanArgs E argsJSON with
  | None => inl ErrInvalidJSON
  | Some args =>
      if (length (ArgPlan args) =? 0)%nat then inl ErrEmptyPlan
      else
        match parseSteps 0 (ArgPlan args) 0 [] with
        | inl e => inl e
        | inr (steps, inProgressCount) =>
            if (1 <? inProgressCount)%Z then inl (ErrTooManyInProgress inProgressCount)
            else inr (mkPlanState (ArgExplanation args) steps)
        end
  end.

Definition set_Plan (s : SessionState) (p : option PlanState) : SessionState :=
  mkSessionState (SessionPhase s) (PendingEscalations s) (EscalationReceived s)
                 (EscalationResponse s) p.

Definition handleUpdatePlan (E : External) (s : SessionState) (fc : ConversationItem)
  : SessionState * ConversationItem :=
  match parseUpdatePlanArgs E (Arguments fc) with
  | inl err =>
      (s, mkItem ItemTypeFunctionCallOutput (CallID fc) "" ""
            (Some (mkPayload ("Invalid update_plan arguments: " +:+ planErrorText E err)
                             (Some false))))
  | inr planState =>
      (set_Plan s (Some planState),
       mkItem ItemTypeFunctionCallOutput (CallID fc) "" ""
         (Some (mkPayload "Plan updated." (Some true))))
  end.

(** What the specification requires of a decoded plan. *)
Definition validStep (s : PlanArg) : Prop :=
  ArgStep s <> "" /\
  (ArgStatus s = PlanStepPending \/ ArgStatus s = PlanStepInProgress \/
   ArgStatus s = PlanStepCompleted).

Definition countInProgress (plan : list PlanArg) : nat :=
  length (filter (fun s => ArgStatus s = PlanStepInProgress) plan).

Definition validPlan (args : UpdatePlanArgs) : Prop :=
  ArgPlan args <> [] /\ Forall validStep (ArgPlan args) /\
  (countInProgress (ArgPlan args) <= 1)%nat.

Definition toPlanStep (s : PlanArg) : PlanStep := mkPlanStep (ArgStep s) (ArgStatus s).

(** *** Sample data *)

Definition dq : string := String (ascii_of_nat 34) "".
Definition quoted (s : string) : string := dq +:+ s +:+ dq.

(** The arguments of a [shell] call running [rm -rf /], as JSON text. *)
Definition rmArguments : string :=
  "{" +:+ quoted "command" +:+ ":[" +:+ quoted "rm" +:+ "," +:+ quoted "-rf" +:+ ","
      +:+ quoted "/" +:+ "]}".

Definition rmCall : ConversationItem :=
  mkItem ItemTypeFunctionCall "call_1" "shell" rmArguments None.

Definition writeCall : ConversationItem :=
  mkItem ItemTypeFunctionCall "call_2" "write_file" "{}" None.

Definition readCall : ConversationItem :=
  mkItem ItemTypeFunctionCall "call_3" "read_file" "{}" None.

(** The arguments of an [update_plan] call with one pending step. *)
Definition planArguments : string :=
  "{" +:+ quoted "plan" +:+ ":[{" +:+ quoted "step" +:+ ":" +:+ quoted "Run tests" +:+ ","
      +:+ quoted "status" +:+ ":" +:+ quoted "pending" +:+ "}]}".

(** A policy that forbids every command and gives no justification. *)
Definition forbidAll : ExecPolicyManager :=
  mkManager (fun _ _ => mkEvaluation DecisionForbidden "") (fun _ _ => ApprovalForbidden).

(** A policy that forbids every command and says why. *)
Definition forbidAllBecause (why : string) : ExecPolicyManager :=
  mkManager (fun _ _ => mkEvaluation DecisionForbidden why) (fun _ _ => ApprovalForbidden).

Definition promptAll : ExecPolicyManager :=
  mkManager (fun _ _ => mkEvaluation DecisionPrompt "") (fun _ _ => ApprovalNeeded).

Definition asciiLower (c : ascii) : ascii :=
  let n := nat_of_ascii c in
  if (65 <=? n)%nat && (n <=? 90)%nat then ascii_of_nat (n + 32) else c.

Fixpoint asciiToLower (s : string) : string :=
  match s with
  | EmptyString => EmptyString
  | String c s' => String (asciiLower c) (asciiToLower s')
  end.

(** One instance of the external code: the decoders know the two sample
    argument texts, policy rules "forbid" load [forbidAll] and any other
    rules load a policy that forbids with the rules as the justification,
    and [ToLower] lowers ASCII letters. *)
Definition sampleExternal : External :=
  mkExternal
    (fun name => String.eqb name "spawn_agent")
    (fun rules => if String.eqb rules "forbid" then Some forbidAll
                  else Some (forbidAllBecause rules))
    promptAll
    (fun text => if String.eqb text rmArguments
                 then Some {[ "command" := JArray [JString "rm"; JString "-rf"; JString "/"] ]}
                 else if String.eqb text "{}" then Some ∅ else None)
    (fun text => if String.eqb text planArguments
                 then Some (mkUpdatePlanArgs "" [mkPlanArg "Run tests" "pending"])
                 else None)
    (fun cmd login => ["bash"; if login then "-lc" else "-c"; cmd])
    asciiToLower
    (fun _ => "invalid plan").

End Workflow.

(** ** Package handlers: the unified exec handler *)

Module Handlers.

Local Open Scope string_scope.

Definition MinYieldTimeMs : Z := 250.
Definition MaxYieldTimeMs : Z := 30000.
Definition MinEmptyYieldTimeMs : Z := 5000.
Definition DefaultExecYieldMs : Z := 10000.
Definition DefaultStdinYieldMs : Z := 250.

(** A value of [inv.Arguments], a [map[string]interface{}]. A float64 is
    represented by the [int] that the conversion [int(n)] yields, which is
    all the handlers do with it. *)
Inductive ArgValue :=
| AFloat64 (asInt : Z)
| AInt (n : Z)
| AInt64 (n : Z)
| ABool (b : bool)
| AString (s : string)
| AOther.

Definition parseNumberArg (args : gmap string ArgValue) (key : string)
    (defaultVal : Z) : Z :=
  match args !! key with
  | None => defaultVal
  | Some (AFloat64 n) => n
  | Some (AInt n) => n
  | Some (AInt64 n) => n
  | Some _ => defaultVal
  end.

(** [float64(i)] for an [int]: the nearest double, ties to the even
    mantissa. Every such double is itself an integer, so it is given as an
    element of [Z]. *)
Definition float64_of_int (i : Z) : Z :=
  let a := Z.abs i in
  if (a <? 2 ^ 53)%Z then i
  else
    let e := (Z.log2 a - 52)%Z in
    let q := (a / 2 ^ e)%Z in
    let r := (a mod 2 ^ e)%Z in
    let half := (2 ^ (e - 1))%Z in
    let q' := if (half <? r)%Z || ((r =? half)%Z && Z.odd q) then (q + 1)%Z else q in
    (Z.sgn i * (q' * 2 ^ e))%Z.

(** [int(f)] for an integral double: the value when it fits in an [int];
    otherwise the result is implementation-dependent ([None]). *)
Definition int_of_float64 (f : Z) : option Z :=
  if (int_min <=? f)%Z && (f <=? int_max)%Z then Some f else None.

(** [int(math.Max(float64(minMs), math.Min(float64(ms), float64(maxMs))))] *)
Definition clampYieldTime (ms minMs maxMs : Z) : option Z :=
  int_of_float64
    (Z.max (float64_of_int minMs)
           (Z.min (float64_of_int ms) (float64_of_int maxMs))).

(** The yield time [handleExecCommand] computes from its arguments. *)
Definition execYieldMs (args : gmap string ArgValue) : option Z :=
  let yieldMs := parseNumberArg args "yield_time_ms" DefaultExecYieldMs in
  clampYieldTime yieldMs MinYieldTimeMs MaxYieldTimeMs.

(** [chars, _ := inv.Arguments["chars"].(string)] *)
Definition charsArg (args : gmap string ArgValue) : string :=
  match args !! "chars" with
  | Some (AString s) => s
  | _ => ""
  end.

(** The yield time [handleWriteStdin] computes from its arguments. *)
Definition stdinYieldMs (args : gmap string ArgValue) : option Z :=
  let chars := charsArg args in
  let yieldMs := parseNumberArg args "yield_time_ms" DefaultStdinYieldMs in
  if String.eqb chars "" then clampYieldTime yieldMs MinEmptyYieldTimeMs MaxYieldTimeMs
  else clampYieldTime yieldMs MinYieldTimeMs MaxYieldTimeMs.

(** [tools.ToolOutput] *)
Record ToolOutput := mkToolOutput {
  Content : string;
  Success : option bool
}.

(** [fmt.Sprintf("%d", n)] *)
Definition itoa (n : Z) : string := NilZero.string_of_int (Z.to_int n).

Definition newline : string := String (ascii_of_nat 10) "".

(** [formatExecResponse]. [wall] renders [wallTime.Seconds()] with
    ["%.3f"]; [output] is [string(output)]. *)
Definition formatExecResponse (wall : Z -> string) (output : string)
    (wallTime : Z) (exitCode : option Z) (sessionID : string) : ToolOutput :=
  let result := "" in
  let result := result +:+ ("--- Wall time: " +:+ wall wallTime +:+ "s ---" +:+ newline) in
  let result :=
    match exitCode with
    | Some code => result +:+ ("--- Exit code: " +:+ itoa code +:+ " ---" +:+ newline)
    | None => result
    end in
  let result :=
    if negb (String.eqb sessionID "")
    then result +:+ ("--- Session ID: " +:+ sessionID +:+ " ---" +:+ newline)
    else result in
  let result := result +:+ ("--- Output ---" +:+ newline) in
  let result :=
    if (0 <? String.length output)%nat then result +:+ output else result in
  let success :=
    match exitCode with
    | None => true
    | Some code => (code =? 0)%Z
    end in
  mkToolOutput result (Some success).

(** The end of [handleExecCommand], once output has been collected until
    the yield deadline: [sess] is the session as it is then, [sorted] the
    sorted candidates should [Store] have to prune. *)
Definition finishExecCommand (wall : Z -> string) (sorted : list Store.candidate)
    (store : Store.Store) (sess : Store.ExecSession)
    (output : string) (wallTime : Z) (processID : string)
  : ToolOutput * Store.Store :=
  if Store.HasExited sess
  then (formatExecResponse wall output wallTime (Store.ExitCode sess) "",
        Store.ReleaseID processID store)
  else (formatExecResponse wall output wallTime None processID,
        Store.StoreWith sorted sess store).

(** The end of [handleWriteStdin], likewise. *)
Definition finishWriteStdin (wall : Z -> string)
    (store : Store.Store) (sess : Store.ExecSession)
    (output : string) (wallTime : Z) (sessionID : string)
  : ToolOutput * Store.Store :=
  if Store.HasExited sess
  then (formatExecResponse wall output wallTime (Store.ExitCode sess) "",
        Store.Remove sessionID store)
  else (formatExecResponse wall output wallTime None sessionID, store).

(** The lines [formatExecResponse] can put before the output. *)
Definition wallLine (wall : Z -> string) (wallTime : Z) : string :=
  "--- Wall time: " +:+ wall wallTime +:+ "s ---" +:+ newline.
Definition exitLine (code : Z) : string :=
  "--- Exit code: " +:+ itoa code +:+ " ---" +:+ newline.
Definition sessionLine (sessionID : string) : string :=
  "--- Session ID: " +:+ sessionID +:+ " ---" +:+ newline.
Definition outputLine : string := "--- Output ---" +:+ newline.


(** Integers every double represents exactly. *)
Definition exact (i : Z) : Prop := (Z.abs i <= 2 ^ 53)%Z.

(** A sample wall-time rendering, for concrete evaluations. *)
Definition sampleWall (ns : Z) : string := itoa (ns / 1000000000) +:+ ".000".

End Handlers.


(** ** Package execsession: the chunks a buffer retains *)

(** No retained chunk is empty. *)
Definition chunks_nonempty (b : HeadTailBuffer) : Prop :=
  Forall (fun c : bytes => c <> []) (head b) /\ Forall (fun c : bytes => c <> []) (tail b).

(** ** Package execsession: id allocation (the store's [AllocateID]) *)

Module Allocation.

Import Store.

Definition MinProcessID : Z := 1000.
Definition MaxProcessID : Z := 100000.

(** A value that [rand.Intn(MaxProcessID-MinProcessID)] can return. *)
Definition draw_ok (r : Z) : Prop := 0 <= r < MaxProcessID - MinProcessID.

(** [AllocateID], run on the successive values [rand.Intn] returns. The
    loop [for { ... }] has no bound: [None] says that each of the [draws]
    gave a reserved id, so that the loop is still running after them. *)
Fixpoint AllocateID (draws : list Z) (s : Store) : option (string * Store) :=
  match draws with
  | [] => None
  | r :: rest =>
      let id := Handlers.itoa (add MinProcessID r) in
      if decide (id ∈ reserved s) then AllocateID rest s
      else Some (id, mkStore (sessions s) ({[id]} ∪ reserved s))
  end.

(** The calls the exec handlers make on their store: the operations of
    [Store.op], [AllocateID], and [ReleaseID] for an id under which no
    session is stored ([handleExecCommand] releases the id it has just
    allocated when the session did not start or has already exited). *)
Inductive call :=
| CallOp (o : op)
| CallAllocateID (draws : list Z)
| CallReleaseID (processID : string).

Inductive call_step : Store -> call -> Store -> Prop :=
| call_step_op s o s' : step s o s' -> call_step s (CallOp o) s'
| call_step_allocate s draws id s' :
    AllocateID draws s = Some (id, s') -> call_step s (CallAllocateID draws) s'
| call_step_release s processID :
    sessions s !! processID = None ->
    call_step s (CallReleaseID processID) (ReleaseID processID s).

Inductive call_steps : Store -> list call -> Store -> Prop :=
| call_steps_nil s : call_steps s [] s
| call_steps_cons s c s1 cs s2 :
    call_step s c s1 -> call_steps s1 cs s2 -> call_steps s (c :: cs) s2.

(** Every id under which a session is stored is reserved. *)
Definition stored_reserved (s : Store) : Prop :=
  forall processID, is_Some (sessions s !! processID) -> processID ∈ reserved s.

(** The sessions other than [processID] that were used at least as
    recently as [lu]. *)
Definition at_least_as_recent (processID : string) (lu : Z) (s : Store)
  : list candidate :=
  filter (fun c => id c <> processID /\ lu <= lastUsed c) (candidates_of s).

End Allocation.

(** ** Package workflow: the command of a shell call *)

Module ShellCalls.

Import Workflow.
Local Open Scope string_scope.

(** [login, ok := args["login"].(bool)], true by default. *)
Definition loginOf (args : gmap string JSONValue) : bool :=
  match args !! "login" with
  | Some (JBool loginVal) => loginVal
  | _ => true
  end.

(** The arguments of a [shell] or [shell_command] call give the command
    vector [cmdVec]: a non-empty array of strings under "command" for
    [shell], a non-empty string under "command" for [shell_command], which
    the user's shell turns into a vector. *)
Definition runsCommand (E : External) (toolName arguments : string)
    (cmdVec : list string) : Prop :=
  exists args,
    unmarshalObject E arguments = Some args /\
    ((toolName = "shell" /\
      exists v vs, args !! "command" = Some (JArray (v :: vs)) /\
                   stringElements (v :: vs) = Some cmdVec) \/
     (toolName = "shell_command" /\
      exists cmd, args !! "command" = Some (JString cmd) /\ cmd <> "" /\
                  cmdVec = DeriveExecArgs E cmd (loginOf args))).

End ShellCalls.

(** ** Package workflow: util.go *)

Module Util.

Import Workflow.
Local Open Scope string_scope.

(** [len(s)] of a string, in bytes. *)
Definition strlen (s : string) : Z := Z.of_nat (String.length s).

(** The first [n] bytes of a string. *)
Fixpoint strTake (n : nat) (s : string) : string :=
  match n, s with
  | S n', String c s' => String c (strTake n' s')
  | _, _ => ""
  end.

(** The slice expression [s[:hi]] of a string; [None] is the run-time
    panic for bounds out of range. *)
Definition str_slice_to (s : string) (hi : Z) : option string :=
  if (0 <=? hi)%Z && (hi <=? strlen s)%Z then Some (strTake (Z.to_nat hi) s) else None.

Definition truncate (s : string) (n : Z) : option string :=
  if (strlen s <=? n)%Z then Some s
  else
    match str_slice_to s n with
    | Some p => Some (p +:+ "...")
    | None => None
    end.

(** The order of [sort.Strings]: [<] on strings, byte by byte. *)
Definition str_le (a b : string) : Prop := String.leb a b = true.

#[global] Instance str_le_dec a b : base.Decision (str_le a b).
Proof. unfold str_le. apply _. Defined.

(** [sort.Strings]. The order is total and antisymmetric, so the sorted
    slice does not depend on the sorting algorithm. *)
Definition sortStrings (l : list string) : list string := merge_sort str_le l.

(** The bytes written to the hash: the parts one after the other. *)
Fixpoint writeAll (parts : list string) : string :=
  match parts with
  | [] => ""
  | p :: rest => p +:+ writeAll rest
  end.

(** [toolCallsKey]. [sha256hex] is [crypto/sha256] over the bytes written,
    printed with ["%x"]. *)
Definition toolCallsKey (sha256hex : string -> string)
    (calls : list ConversationItem) : string :=
  let parts := (fun c => Name c +:+ ":" +:+ Arguments c) <$> calls in
  sha256hex (writeAll (sortStrings parts)).

End Util.

(** ** Package workflow: escalation.go, after the wait *)

Module Escalation.

Import Workflow.
Local Open Scope string_scope.

(** [approvedSet := make(map[string]bool, ...);
     for _, id := range s.EscalationResponse.Approved { approvedSet[id] = true }] *)
Definition buildApprovedSet (approved : list string) : gmap string bool :=
  fold_left (fun m id => <[id := true]> m) approved ∅.

(** [executeToolsInParallel] (defined outside the sources) for the one call
    re-executed at index [i]: [None] when it returns an error, else the
    results it returns. *)
Definition Reexecute := nat -> ConversationItem -> option (list ToolActivityOutput).

(** The second loop of [handleOnFailureEscalation], from index [i] on; the
    result is the slice [toolResults] after the loop's assignments.
    [None] is the index panic of [functionCalls[i]]. *)
Fixpoint reexecuteLoop (reexec : Reexecute) (functionCalls : list ConversationItem)
    (failedIndices : gset nat) (approvedSet : gmap string bool)
    (i : nat) (toolResults : list ToolActivityOutput)
  : option (list ToolActivityOutput) :=
  match toolResults with
  | [] => Some []
  | result :: rest =>
      let next r :=
        match reexecuteLoop reexec functionCalls failedIndices approvedSet (S i) rest with
        | Some rs => Some (r :: rs)
        | None => None
        end in
      if negb (bool_decide (i ∈ failedIndices)) ||
         negb (lookupBool approvedSet (ResultCallID result))
      then next result
      else
        match functionCalls !! i with
        | None => None
        | Some fc =>
            match reexec i fc with
            | None => next result
            | Some [] => next result
            | Some (r :: _) => next r
            end
        end
  end.

(** The result the second loop leaves at index [k], where the call is [fc]
    and the result was [r]. *)
Definition reexecuted (reexec : Reexecute) (failed : gset nat) (approvedSet : gmap string bool)
    (k : nat) (fc : ConversationItem) (r : ToolActivityOutput) : ToolActivityOutput :=
  if bool_decide (k ∈ failed) && lookupBool approvedSet (ResultCallID r)
  then match reexec k fc with
       | Some (r' :: _) => r'
       | _ => r
       end
  else r.

(** How a call of [handleOnFailureEscalation] ends: with a panic, with
    the error of [workflow.Await], or with results and the session state
    it leaves. *)
Inductive Outcome :=
| Panicked
| AwaitFailed
| Returned (toolResults : list ToolActivityOutput) (s : SessionState).

Definition clearPending (s : SessionState) : SessionState :=
  mkSessionState (SessionPhase s) [] (EscalationReceived s) (EscalationResponse s) (Plan s).

(** [handleOnFailureEscalation] from the return of [workflow.Await] on.
    [interrupted] is [s.Interrupted || s.ShutdownRequested]. *)
Definition finishEscalation (reexec : Reexecute) (s : SessionState) (interrupted : bool)
    (functionCalls : list ConversationItem) (toolResults : list ToolActivityOutput)
    (failedIndices : gset nat) : Outcome :=
  let s := clearPending s in
  if interrupted then Returned toolResults s
  else
    match EscalationResponse s with
    | None => Returned toolResults s
    | Some resp =>
        match reexecuteLoop reexec functionCalls failedIndices
                (buildApprovedSet (Approved resp)) 0 toolResults with
        | Some rs => Returned rs s
        | None => Panicked
        end
    end.

(** What happens to the session state while [workflow.Await] blocks: the
    state at wake-up and whether the session was interrupted or shut down;
    [None] when [Await] returns an error. *)
Definition Wait := SessionState -> option (SessionState * bool).

Definition handleOnFailureEscalation (E : External) (reexec : Reexecute) (wait : Wait)
    (s : SessionState) (functionCalls : list ConversationItem)
    (toolResults : list ToolActivityOutput) : Outcome :=
  match beginEscalation E s functionCalls toolResults with
  | None => Panicked
  | Some (escalations, failedIndices, s1) =>
      if (length escalations =? 0)%nat then Returned toolResults s1
      else
        match wait s1 with
        | None => AwaitFailed
        | Some (s2, interrupted) =>
            finishEscalation reexec s2 interrupted functionCalls toolResults failedIndices
        end
  end.

(** A result that goes to escalation. *)
Definition sandboxDenied (E : External) (r : ToolActivityOutput) : Prop :=
  ResultSuccess r = Some false /\ isLikelySandboxDenial E (ResultContent r) = true.

End Escalation.

(** ** Package workflow: user_input.go *)

Module UserInput.

Local Open Scope string_scope.

(** The arguments struct [parseRequestUserInputArgs] decodes into. *)
Record OptionArg := mkOptionArg {
  ArgLabel : string;
  ArgDescription : string
}.

Record QuestionArg := mkQuestionArg {
  ArgID : string;
  ArgHeader : string;
  ArgQuestion : string;
  ArgIsOther : bool;
  ArgOptions : list OptionArg
}.

Record RequestUserInputQuestionOption := mkOption {
  Label : string;
  Description : string
}.

Record RequestUserInputQuestion := mkQuestion {
  ID : string;
  Header : string;
  Question : string;
  IsOther : bool;
  Options : list RequestUserInputQuestionOption
}.

(** The errors of [parseRequestUserInputArgs], one per [fmt.Errorf]. *)
Inductive InputError :=
| ErrInvalidJSON
| ErrNoQuestions
| ErrTooManyQuestions (n : Z)
| ErrNoID (question : Z)
| ErrNoQuestionText (question : Z)
| ErrNoOptions (question : Z)
| ErrNoLabel (question option : Z).

(** The loop [for j, opt := range q.Options]; [None] at the first option
    without a label, with its [j+1]. *)
Fixpoint parseOptions (j : Z) (opts : list OptionArg)
  : Z + list RequestUserInputQuestionOption :=
  match opts with
  | [] => inr []
  | opt :: rest =>
      if String.eqb (ArgLabel opt) "" then inl (GoInt.add j 1)
      else
        match parseOptions (GoInt.add j 1) rest with
        | inl e => inl e
        | inr options => inr (mkOption (ArgLabel opt) (ArgDescription opt) :: options)
        end
  end.

(** The loop [for i, q := range args.Questions]. *)
Fixpoint parseQuestions (i : Z) (qs : list QuestionArg)
  : InputError + list RequestUserInputQuestion :=
  match qs with
  | [] => inr []
  | q :: rest =>
      if String.eqb (ArgID q) "" then inl (ErrNoID (GoInt.add i 1))
      else if String.eqb (ArgQuestion q) "" then inl (ErrNoQuestionText (GoInt.add i 1))
      else if (length (ArgOptions q) =? 0)%nat then inl (ErrNoOptions (GoInt.add i 1))
      else
        match parseOptions 0 (ArgOptions q) with
        | inl j => inl (ErrNoLabel (GoInt.add i 1) j)
        | inr options =>
            match parseQuestions (GoInt.add i 1) rest with
            | inl e => inl e
            | inr questions =>
                inr (mkQuestion (ArgID q) (ArgHeader q) (ArgQuestion q) (ArgIsOther q)
                                options :: questions)
            end
        end
  end.

(** [unmarshal] is [json.Unmarshal] into the arguments struct: the decoded
    [Questions], or [None] on error. *)
Definition parseRequestUserInputArgs (unmarshal : string -> option (list QuestionArg))
    (argsJSON : string) : InputError + list RequestUserInputQuestion :=
  match unmarshal argsJSON with
  | None => inl ErrInvalidJSON
  | Some questions =>
      if (length questions =? 0)%nat then inl ErrNoQuestions
      else if (4 <? len questions)%Z then inl (ErrTooManyQuestions (len questions))
      else parseQuestions 0 questions
  end.

(** What the function requires of a decoded question. *)
Definition validQuestion (q : QuestionArg) : Prop :=
  ArgID q <> "" /\ ArgQuestion q <> "" /\ ArgOptions q <> [] /\
  Forall (fun opt => ArgLabel opt <> "") (ArgOptions q).

Definition toOption (opt : OptionArg) : RequestUserInputQuestionOption :=
  mkOption (ArgLabel opt) (ArgDescription opt).

Definition toQuestion (q : QuestionArg) : RequestUserInputQuestion :=
  mkQuestion (ArgID q) (ArgHeader q) (ArgQuestion q) (ArgIsOther q)
             (toOption <$> ArgOptions q).

End UserInput.

(** ** Package handlers: the start of [handleWriteStdin] *)

Module UnifiedExec.

Import Handlers.
Local Open Scope string_scope.

(** The session id [handleWriteStdin] reads from its arguments, or the
    text of its validation error. *)
Definition sessionIDArg (args : gmap string ArgValue) : string + string :=
  match args !! "session_id" with
  | None => inl "missing required argument: session_id"
  | Some sessionIDRaw =>
      let sessionID := itoa (parseNumberArg args "session_id" 0) in
      if String.eqb sessionID "0" then
        match sessionIDRaw with
        | AFloat64 f => inr (itoa f)
        | _ => inl "session_id must be a number"
        end
      else inr sessionID
  end.

(** How far [handleWriteStdin] gets before it touches the process. *)
Inductive StdinStart :=
| ValidationError (msg : string)
| UnknownSession (out : ToolOutput)
| Proceed (sessionID : string) (sess : Store.ExecSession) (chars : string)
          (yieldMs : option Z).

Definition beginWriteStdin (args : gmap string ArgValue) (store : Store.Store)
  : StdinStart :=
  match sessionIDArg args with
  | inl msg => ValidationError msg
  | inr sessionID =>
      let chars := charsArg args in
      let yieldMs := stdinYieldMs args in
      match Store.Get sessionID store with
      | None =>
          UnknownSession
            (mkToolOutput ("Unknown session ID: " +:+ sessionID +:+
                           ". The process may have already exited.")
                          (Some false))
      | Some sess => Proceed sessionID sess chars yieldMs
      end
  end.

(** The arguments of a [write_stdin] call as [encoding/json] decodes
    them: every number is a float64. *)
Definition stdinArgs (sessionID : Z) (chars : string) : gmap string ArgValue :=
  {[ "session_id" := AFloat64 sessionID; "chars" := AString chars ]}.

End UnifiedExec.

(** ** Package handlers: the command the shell handlers execute *)

Module ShellHandlers.

Import Workflow.
Local Open Scope string_scope.

(** The validation errors of [ShellHandler.Handle] and
    [ShellCommandHandler.Handle], one per message. *)
Inductive CommandError :=
| ErrMissingCommand
| ErrNotAnArray
| ErrEmptyArray
| ErrElementNotString (i : Z)
| ErrNotAString
| ErrEmptyCommand.

(** The loop [for i, v := range arr] of [parseCommandArray]; [inl i] at
    the first element that is not a string. *)
Fixpoint commandElements (i : Z) (arr : list JSONValue) : Z + list string :=
  match arr with
  | [] => inr []
  | JString s :: rest =>
      match commandElements (GoInt.add i 1) rest with
      | inl e => inl e
      | inr result => inr (s :: result)
      end
  | _ :: _ => inl i
  end.

Definition parseCommandArray (commandArg : JSONValue) : CommandError + list string :=
  match commandArg with
  | JArray arr =>
      if (length arr =? 0)%nat then inl ErrEmptyArray
      else
        match commandElements 0 arr with
        | inl i => inl (ErrElementNotString i)
        | inr result => inr result
        end
  | _ => inl ErrNotAnArray
  end.

Definition parseLoginArg (args : gmap string JSONValue) : bool :=
  match args !! "login" with
  | Some (JBool b) => b
  | _ => true
  end.

(** The vector [ShellHandler.Handle] runs ([cmdVec[0]] with the arguments
    [cmdVec[1:]]), or its validation error. *)
Definition shellCommandVec (args : gmap string JSONValue) : CommandError + list string :=
  match args !! "command" with
  | None => inl ErrMissingCommand
  | Some commandArg => parseCommandArray commandArg
  end.

(** The vector [ShellCommandHandler.Handle] runs, or its validation error. *)
Definition shellCommandLineVec (E : External) (args : gmap string JSONValue)
  : CommandError + list string :=
  match args !! "command" with
  | None => inl ErrMissingCommand
  | Some (JString command) =>
      if String.eqb command "" then inl ErrEmptyCommand
      else inr (DeriveExecArgs E command (parseLoginArg args))
  | Some _ => inl ErrNotAString
  end.

End ShellHandlers.

(** ** Package cli: the user's answer to an approval prompt *)

Module Cli.

Import Workflow.
Local Open Scope string_scope.

(** The functions of the Go standard library that approval.go of
    package cli calls. *)
Record Strings := mkStrings {
  (** [strings.TrimSpace] *)
  TrimSpace : string -> string;
  (** [strings.ToLower] *)
  Lower : string -> string;
  (** [strings.Split(input, ",")] *)
  SplitComma : string -> list string;
  (** [fmt.Sscanf(part, "%d", &idx)]: the int read, [None] when it returns
      an error or a count other than 1 *)
  ScanInt : string -> option Z
}.

(** The loop of [parseApprovalIndices]; [None] is its [return nil]. *)
Fixpoint parseIndicesLoop (S : Strings) (maxIndex : Z) (parts : list string)
    (indices : list Z) (seen : gmap Z bool) : option (list Z) :=
  match parts with
  | [] => Some indices
  | part :: rest =>
      let part := TrimSpace S part in
      if String.eqb part "" then parseIndicesLoop S maxIndex rest indices seen
      else
        match ScanInt S part with
        | None => None
        | Some idx =>
            if (idx <? 1)%Z || (maxIndex <? idx)%Z then None
            else if default false (seen !! idx)
            then parseIndicesLoop S maxIndex rest indices seen
            else parseIndicesLoop S maxIndex rest (indices ++ [idx]) (<[idx := true]> seen)
        end
  end.

Definition parseApprovalIndices (S : Strings) (input : string) (maxIndex : Z)
  : option (list Z) :=
  match parseIndicesLoop S maxIndex (SplitComma S input) [] ∅ with
  | None => None
  | Some indices => if (length indices =? 0)%nat then None else Some indices
  end.

(** [approvedSet := make(map[int]bool, ...);
     for _, idx := range indices { approvedSet[idx] = true }] *)
Definition buildIndexSet (indices : list Z) : gmap Z bool :=
  fold_left (fun m idx => <[idx := true]> m) indices ∅.

(** The loop [for i, callID := range allCallIDs]. *)
Fixpoint selectLoop (approvedSet : gmap Z bool) (i : Z) (allCallIDs : list string)
    (approved denied : list string) : list string * list string :=
  match allCallIDs with
  | [] => (approved, denied)
  | callID :: rest =>
      if default false (approvedSet !! GoInt.add i 1)
      then selectLoop approvedSet (GoInt.add i 1) rest (approved ++ [callID]) denied
      else selectLoop approvedSet (GoInt.add i 1) rest approved (denied ++ [callID])
  end.

Definition isOneOf (line a b : string) : bool := String.eqb line a || String.eqb line b.

(** [HandleApprovalInput]: the response ([None] is nil) and the
    auto-approve flag. *)
Definition HandleApprovalInput (S : Strings) (line : string)
    (pending : list PendingApproval) : option ApprovalResponse * bool :=
  let line := Lower S (TrimSpace S line) in
  let allCallIDs := PendingCallID <$> pending in
  if isOneOf line "y" "yes" then (Some (mkResponse allCallIDs []), false)
  else if isOneOf line "n" "no" then (Some (mkResponse [] allCallIDs), false)
  else if isOneOf line "a" "always" then (Some (mkResponse allCallIDs []), true)
  else
    match parseApprovalIndices S line (len pending) with
    | None => (None, false)
    | Some indices =>
        let '(approved, denied) :=
          selectLoop (buildIndexSet indices) 0 allCallIDs [] [] in
        (Some (mkResponse approved denied), false)
    end.

(** [HandleEscalationInput]; [workflow.EscalationResponse] has the two
    fields of [ApprovalResponse]. *)
Definition HandleEscalationInput (S : Strings) (line : string)
    (pending : list EscalationRequest) : option ApprovalResponse :=
  let line := Lower S (TrimSpace S line) in
  let allCallIDs := EscCallID <$> pending in
  if isOneOf line "y" "yes" then Some (mkResponse allCallIDs [])
  else if isOneOf line "n" "no" then Some (mkResponse [] allCallIDs)
  else
    match parseApprovalIndices S line (len pending) with
    | None => None
    | Some indices =>
        let '(approved, denied) :=
          selectLoop (buildIndexSet indices) 0 allCallIDs [] [] in
        Some (mkResponse approved denied)
    end.

(** The ids at the 1-based positions that satisfy [P], in order, for a
    list that starts at position [i + 1]. *)
Fixpoint idsWhere (P : Z -> bool) (i : Z) (ids : list string) : list string :=
  match ids with
  | [] => []
  | id :: rest =>
      if P (i + 1)%Z then id :: idsWhere P (i + 1)%Z rest else idsWhere P (i + 1)%Z rest
  end.

(** A sample of the library functions, for inputs that need no trimming:
    lower-casing of ASCII, a split at each comma, and a scan of one
    decimal digit. *)
Fixpoint splitAtCommas (cur s : string) : list string :=
  match s with
  | EmptyString => [cur]
  | String c s' =>
      if Ascii.eqb c ","%char then cur :: splitAtCommas "" s'
      else splitAtCommas (cur +:+ String c "") s'
  end.

Definition scanDigit (part : string) : option Z :=
  match part with
  | String c EmptyString =>
      let n := nat_of_ascii c in
      if (48 <=? n)%nat && (n <=? 57)%nat then Some (Z.of_nat (n - 48)) else None
  | _ => None
  end.

Definition sampleStrings : Strings :=
  mkStrings (fun s => s) asciiToLower (splitAtCommas "") scanDigit.

End Cli.

(** * Properties *)

(** ** Arithmetic of [int] *)

Section GoIntFacts.

Lemma wrap_small z : in_range z -> wrap z = z.
Proof.
  unfold wrap. intros H. int_bounds.
  rewrite Z.mod_small; lia.
Qed.

Lemma wrap_in_range z : in_range (wrap z).
Proof.
  unfold wrap. int_bounds.
  pose proof (Z.mod_pos_bound (z + 9223372036854775808) 18446744073709551616). lia.
Qed.

Lemma wrap_add_l a b : wrap (wrap a + b) = wrap (a + b).
Proof.
  unfold wrap. f_equal.
  replace ((a + 2 ^ 63) mod 2 ^ 64 - 2 ^ 63 + b + 2 ^ 63)
    with ((a + 2 ^ 63) mod 2 ^ 64 + b) by lia.
  rewrite Zplus_mod_idemp_l. f_equal. lia.
Qed.

Lemma wrap_add_r a b : wrap (a + wrap b) = wrap (a + b).
Proof. rewrite Z.add_comm, wrap_add_l. f_equal. lia. Qed.

Lemma wrap_wrap a : wrap (wrap a) = wrap a.
Proof. pose proof (wrap_add_l a 0) as H. rewrite !Z.add_0_r in H. exact H. Qed.

Lemma len_nonneg {A} (l : list A) : 0 <= len l.
Proof. unfold len. lia. Qed.

Lemma len_app {A} (l k : list A) : len (l ++ k) = len l + len k.
Proof. unfold len. rewrite length_app. lia. Qed.

Lemma len_nil {A} : len (@nil A) = 0.
Proof. reflexivity. Qed.

End GoIntFacts.

(** ** The head-tail buffer *)

Section BufferFacts.

Lemma lastn_all {A} n (l : list A) : (length l <= n)%nat -> lastn n l = l.
Proof. intros H. unfold lastn. replace (length l - n)%nat with 0%nat by lia. reflexivity. Qed.

Lemma length_lastn {A} n (l : list A) : length (lastn n l) = Nat.min n (length l).
Proof. unfold lastn. rewrite length_drop. lia. Qed.

Lemma lastn_app_ge {A} n (l k : list A) :
  (n <= length k)%nat -> lastn n (l ++ k) = lastn n k.
Proof.
  intros H. unfold lastn. rewrite length_app, drop_app.
  rewrite drop_ge by lia. simpl. f_equal. lia.
Qed.

Lemma lastn_app_lastn {A} n (p c : list A) :
  lastn n (lastn n p ++ c) = lastn n (p ++ c).
Proof.
  destruct (Nat.le_gt_cases (length p) n) as [H|H].
  - rewrite (lastn_all n p) by lia. reflexivity.
  - unfold lastn at 1 3. rewrite !length_app, length_lastn.
    unfold lastn. rewrite !drop_app, drop_drop, !length_drop.
    replace (Nat.min n (length p) + length c - n)%nat with (length c) by lia.
    replace (length p - n + length c)%nat with (length p + length c - n)%nat by lia.
    f_equal. f_equal. lia.
Qed.

(** What the trimming loop does when the excess fits in the tail. *)
Lemma trimLoop_spec tl : forall e tb om,
  0 <= e <= len (concat tl) -> tb = len (concat tl) -> in_range tb ->
  in_range om ->
  exists tl',
    trimLoop e tl tb om = (tl', tb - e, wrap (om + e)) /\
    concat tl' = drop (Z.to_nat e) (concat tl).
Proof.
  induction tl as [|front rest IH]; intros e tb om He Htb Hr Hom.
  - unfold len in He, Htb. simpl in He, Htb. assert (e = 0) by lia. subst e.
    exists []. split; [|reflexivity]. simpl.
    rewrite Z.add_0_r, Z.sub_0_r, wrap_small by assumption. reflexivity.
  - simpl concat in *. rewrite len_app in He, Htb. simpl trimLoop.
    pose proof (len_nonneg front) as Hf. pose proof (len_nonneg (concat rest)) as Hc.
    destruct (Z.ltb_spec 0 e) as [Hpos|Hpos].
    + destruct (Z.leb_spec (len front) e) as [Hle|Hgt].
      * assert (Hr' : in_range (tb - len front)) by (int_bounds; lia).
        assert (He' : in_range (e - len front)) by (int_bounds; lia).
        unfold sub. rewrite !wrap_small by assumption.
        destruct (IH (e - len front) (tb - len front) (add om (len front)))
          as (tl' & Heq & Hcat); try lia; try assumption.
        { apply wrap_in_range. }
        exists tl'. rewrite Heq. split.
        -- f_equal; [f_equal; lia|]. unfold add. rewrite wrap_add_l. f_equal. lia.
        -- rewrite Hcat, drop_app, (drop_ge front) by (unfold len in *; lia).
           simpl. f_equal. unfold len in *. lia.
      * exists (drop (Z.to_nat e) front :: rest). split.
        -- unfold sub, add. rewrite wrap_small; [reflexivity|].
           int_bounds; lia.
        -- simpl. rewrite drop_app.
           replace (Z.to_nat e - length front)%nat with 0%nat by (unfold len in *; lia).
           reflexivity.
    + assert (e = 0) by lia. subst e. exists (front :: rest). split.
      * rewrite Z.add_0_r, Z.sub_0_r, wrap_small by assumption. reflexivity.
      * reflexivity.
Qed.

Lemma slice_from_ok {A} (l : list A) lo :
0 <= lo <= len l -> slice_from l lo = Some (drop (Z.to_nat lo) l).
Proof.
intros [H1 H2]. unfold slice_from.
destruct (Z.leb_spec 0 lo); [|lia]. destruct (Z.leb_spec lo (len l)); [|lia]. reflexivity.
Qed.

Lemma slice_to_ok {A} (l : list A) hi :
0 <= hi <= len l -> slice_to l hi = Some (take (Z.to_nat hi) l).
Proof.
intros [H1 H2]. unfold slice_to.
destruct (Z.leb_spec 0 hi); [|lia]. destruct (Z.leb_spec hi (len l)); [|lia]. reflexivity.
Qed.

Lemma trimLoop_nonpos tl e tb om : e <= 0 -> trimLoop e tl tb om = (tl, tb, om).
Proof.
  intros He. destruct tl as [|front rest]; [reflexivity|]. simpl.
  destruct (Z.ltb_spec 0 e); [lia|reflexivity].
Qed.

Lemma half_bounds M :
  0 <= M -> 0 <= Z.quot M 2 <= M - Z.quot M 2 /\ M - Z.quot M 2 <= Z.quot M 2 + 1.
Proof.
  intros HM. rewrite Z.quot_div_nonneg by lia.
  pose proof (Z.div_mod M 2 ltac:(lia)). pose proof (Z.mod_pos_bound M 2 ltac:(lia)). lia.
Qed.

(** [pushToTail] keeps the last [tailBudget] bytes of the tail stream. *)
Lemma pushToTail_spec M c b T :
  0 <= M <= int_max -> chunk_ok c ->
  tailBudget b = M - Z.quot M 2 ->
  concat (tail b) = T -> tailBytes b = len T -> len T <= M - Z.quot M 2 ->
  in_range (omitted b) ->
  exists b', pushToTail c b = Some b' /\
  maxBytes b' = maxBytes b /\ headBudget b' = headBudget b /\
  tailBudget b' = tailBudget b /\ head b' = head b /\
  headBytes b' = headBytes b /\ totalEver b' = totalEver b /\
  concat (tail b') = lastn (half_ceil M) (T ++ c) /\
  tailBytes b' = len (concat (tail b')) /\
  omitted b' = wrap (omitted b + len T + len c - tailBytes b').
Proof.
  intros HM Hc Htb HT HtB HTle Hom. unfold chunk_ok in Hc.
  pose proof (half_bounds M ltac:(lia)) as Hhalf.
  pose proof (len_nonneg c) as Hc0. pose proof (len_nonneg T) as HT0.
  unfold pushToTail, half_ceil. rewrite Htb.
  destruct (Z.eqb_spec (M - Z.quot M 2) 0) as [Hz|Hnz].
  - eexists. split; [reflexivity|]. cbn. repeat split; try assumption.
    + assert (T = []) as -> by (destruct T; [reflexivity|unfold len in *; simpl in *; lia]).
      rewrite HT, Hz. simpl. unfold lastn. rewrite Nat.sub_0_r, drop_all. reflexivity.
    + rewrite HT. assert (len T = 0) as Hl by lia. lia.
    + unfold add. f_equal. lia.
  - destruct (Z.leb_spec (M - Z.quot M 2) (len c)) as [Hbig|Hsmall].
    + assert (Hs : sub (len c) (M - Z.quot M 2) = len c - (M - Z.quot M 2))
        by (unfold sub; apply wrap_small; int_bounds; lia).
      assert (Hkept : drop (Z.to_nat (len c - (M - Z.quot M 2))) c
                      = lastn (Z.to_nat (M - Z.quot M 2)) (T ++ c)).
      { rewrite lastn_app_ge by (unfold len in *; lia).
        unfold lastn. f_equal. unfold len in *. lia. }
      rewrite Hs, slice_from_ok by lia.
      eexists. split; [reflexivity|]. cbn. rewrite !app_nil_r.
      repeat split; try assumption; try reflexivity.
      unfold add, sub. rewrite wrap_add_r, Z.add_assoc, wrap_add_r, HtB. f_equal. lia.
    + assert (HtB1 : add (tailBytes b) (len c) = len T + len c).
      { rewrite HtB. unfold add. apply wrap_small. int_bounds. lia. }
      assert (Hcat1 : concat (tail b ++ [c]) = T ++ c).
      { rewrite concat_app, HT. simpl. rewrite app_nil_r. reflexivity. }
      assert (Hexc : sub (len T + len c) (M - Z.quot M 2)
                     = len T + len c - (M - Z.quot M 2)).
      { unfold sub. apply wrap_small. int_bounds. lia. }
      eexists. split; [reflexivity|].
      unfold trimTailToBudget.
      cbn [set_tail maxBytes headBudget tailBudget head headBytes totalEver tail
           tailBytes omitted].
      rewrite HtB1, Htb, Hexc.
      destruct (Z.le_gt_cases (len T + len c - (M - Z.quot M 2)) 0) as [Hno|Hyes].
      * rewrite trimLoop_nonpos by lia.
        cbn [set_tail maxBytes headBudget tailBudget head headBytes totalEver tail
             tailBytes omitted].
        rewrite Hcat1.
        repeat split; try assumption; try reflexivity.
        -- rewrite lastn_all; [reflexivity|]. rewrite length_app. unfold len in *. lia.
        -- rewrite len_app. reflexivity.
        -- replace (omitted b + len T + len c - (len T + len c)) with (omitted b) by lia.
           symmetry. apply wrap_small. assumption.
      * destruct (trimLoop_spec (tail b ++ [c]) (len T + len c - (M - Z.quot M 2))
                    (len T + len c) (omitted b)) as (tl' & Heq & Hcat).
        { rewrite Hcat1, len_app. lia. }
        { rewrite Hcat1, len_app. reflexivity. }
        { int_bounds. lia. }
        { exact Hom. }
        rewrite Heq.
        cbn [set_tail maxBytes headBudget tailBudget head headBytes totalEver tail
             tailBytes omitted].
        rewrite Hcat, Hcat1.
        repeat split; try assumption; try reflexivity.
        -- unfold lastn. f_equal. rewrite length_app. unfold len in *. lia.
        -- unfold len. rewrite length_drop, length_app. unfold len in *. lia.
        -- f_equal. lia.
Qed.

Lemma len_take_le {A} (n : nat) (l : list A) :
  len (take n l) = Z.min (Z.of_nat n) (len l).
Proof. unfold len. rewrite length_take. lia. Qed.

(** One [Push] extends the pushed stream by the chunk, and does not panic. *)
Lemma Push_inv M all ever c b :
  0 <= M <= int_max -> chunk_ok c ->
  content_inv M all b -> count_inv all ever b ->
  exists b', Push c b = Some b' /\
             content_inv M (all ++ c) b' /\ count_inv (all ++ c) (ever ++ c) b'.
Proof.
  intros HM Hc [Hmax Hhb Htb Hh Ht HhB HtB] [Hom Htot].
  pose proof (half_bounds M ltac:(lia)) as Hhalf.
  pose proof (len_nonneg c) as Hc0. pose proof (len_nonneg all) as Ha0.
  unfold Push. destruct (Z.eqb_spec (len c) 0) as [Hz|Hnz].
  { assert (c = []) as -> by (destruct c; [reflexivity|unfold len in Hz; simpl in Hz; lia]).
    rewrite !app_nil_r. exists b. split; [reflexivity|]. split; constructor; assumption. }
  destruct b as [mx hbud tbud hd tl hB tB om tot]. cbn in *. subst mx hbud tbud om tot.
  unfold pushUnlocked. cbn [set_totalEver maxBytes headBudget tailBudget head
    headBytes totalEver tail tailBytes omitted].
  assert (Htot' : add (wrap (len ever)) (len c) = wrap (len (ever ++ c))).
  { unfold add. rewrite wrap_add_l, len_app. reflexivity. }
  rewrite Htot'.
  assert (HhBle : hB = Z.min (Z.quot M 2) (len all)).
  { rewrite HhB, Hh, len_take_le. unfold half_floor. lia. }
  destruct (Z.eqb_spec M 0) as [HM0|HM0].
  - (* maxBytes = 0 *)
    subst M. change (Z.quot 0 2) with 0 in *. cbn in Hh, Ht.
    unfold half_floor, half_ceil in *. cbn in Hh, Ht.
    unfold lastn in Ht. rewrite Nat.sub_0_r, drop_all in Ht.
    eexists. split; [reflexivity|].
    cbn. split; constructor; cbn; try reflexivity; try assumption.
    + unfold lastn. rewrite Nat.sub_0_r, drop_all. assumption.
    + unfold add. rewrite wrap_add_l. f_equal. rewrite len_app. lia.
  - destruct (Z.ltb_spec hB (Z.quot M 2)) as [Hlt|Hge].
    + (* head not full: everything so far is in the head *)
      assert (Hall : len all < Z.quot M 2) by lia.
      assert (Hhd : concat hd = all).
      { rewrite Hh. apply take_ge. unfold half_floor, len in *. lia. }
      assert (Htl : concat tl = []).
      { rewrite Ht, drop_ge by (unfold half_floor, len in *; lia). reflexivity. }
      assert (HhB' : hB = len all) by (rewrite HhB, Hhd; reflexivity).
      assert (HtB' : tB = 0) by (rewrite HtB, Htl; reflexivity).
      assert (Hrem : sub (Z.quot M 2) hB = Z.quot M 2 - len all).
      { rewrite HhB'. unfold sub. apply wrap_small. int_bounds. lia. }
      rewrite Hrem.
      destruct (Z.leb_spec (len c) (Z.quot M 2 - len all)) as [Hfit|Hsplit].
      * eexists. split; [reflexivity|].
        cbn. split; constructor; cbn; try reflexivity.
        -- rewrite concat_app, Hhd. simpl. rewrite app_nil_r.
           symmetry. apply take_ge. rewrite length_app. unfold half_floor, len in *. lia.
        -- rewrite Htl, drop_ge; [reflexivity|].
           rewrite length_app. unfold half_floor, len in *. lia.
        -- rewrite concat_app, Hhd. simpl. rewrite app_nil_r, len_app, HhB'.
           unfold add. apply wrap_small. int_bounds. lia.
        -- assumption.
        -- rewrite HhB', HtB', len_app. f_equal.
           assert (add (len all) (len c) = len all + len c) as ->
             by (unfold add; apply wrap_small; int_bounds; lia).
           lia.
      * rewrite slice_to_ok, slice_from_ok by lia.
        set (r := Z.to_nat (Z.quot M 2 - len all)).
        assert (Hr : (0 < r < length c)%nat) by (unfold r, len in *; lia).
        assert (Hhp : len (take r c) = Z.quot M 2 - len all).
        { rewrite len_take_le. unfold r. lia. }
        destruct (Z.ltb_spec 0 (len (take r c))) as [Hpos|Hnpos]; [|lia].
        assert (HhB1 : add hB (len (take r c)) = Z.quot M 2).
        { unfold add. rewrite Hhp, HhB', wrap_small; [lia|int_bounds; lia]. }
        rewrite HhB1.
        match goal with |- context [pushToTail ?c' ?b0] =>
          pose proof (pushToTail_spec M c' b0 []) as Hp end.
        cbn [set_head set_totalEver maxBytes headBudget tailBudget head headBytes
             totalEver tail tailBytes omitted] in Hp.
        destruct Hp as (b' & Hpush & E1 & E2 & E3 & E4 & E5 & E6 & E7 & E8 & E9);
          [lia | unfold chunk_ok, len in *; rewrite length_drop; lia | reflexivity
          | exact Htl | rewrite HtB'; reflexivity | unfold len; simpl; lia
          | apply wrap_in_range | ].
        exists b'. split; [exact Hpush|]. clear Hpush.
        split; constructor; try congruence.
        -- rewrite E4, concat_app, Hhd. simpl. rewrite app_nil_r.
           rewrite take_app, (take_ge all) by (unfold half_floor, len in *; lia).
           f_equal. f_equal. unfold r, half_floor, len. lia.
        -- rewrite E7. simpl. f_equal.
           rewrite drop_app, (drop_ge all) by (unfold half_floor, len in *; lia).
           simpl. f_equal. unfold r, half_floor, len. lia.
        -- rewrite E5, E4, concat_app, Hhd. simpl.
           rewrite app_nil_r, len_app, Hhp. lia.
        -- rewrite E9, E5.
           match goal with |- wrap (wrap ?a + ?x + ?y - ?z) = _ =>
             replace (wrap a + x + y - z) with (wrap a + (x + y - z)) by lia end.
           rewrite wrap_add_l. f_equal.
           unfold len in *. rewrite length_app, length_drop. simpl length.
           unfold r, len in *. lia.
    + (* head full: the chunk goes to the tail *)
      assert (Hfull : Z.quot M 2 <= len all) by lia.
      assert (HhB' : hB = Z.quot M 2) by lia.
      match goal with |- context [pushToTail ?c' ?b0] =>
        pose proof (pushToTail_spec M c' b0 (concat tl)) as Hp end.
      cbn [set_head set_totalEver maxBytes headBudget tailBudget head headBytes
           totalEver tail tailBytes omitted] in Hp.
      destruct Hp as (b' & Hpush & E1 & E2 & E3 & E4 & E5 & E6 & E7 & E8 & E9);
        [lia | assumption | reflexivity | reflexivity | assumption
        | rewrite Ht; unfold len; rewrite length_lastn; unfold half_ceil; lia
        | apply wrap_in_range | ].
      exists b'. split; [exact Hpush|]. clear Hpush.
      split; constructor; try congruence.
      * rewrite E4, Hh. symmetry. apply take_app_le. unfold half_floor, len in *. lia.
      * rewrite E7, Ht, lastn_app_lastn. f_equal.
        symmetry. apply drop_app_le. unfold half_floor, len in *. lia.
      * rewrite E9, E5.
        match goal with |- wrap (wrap ?a + ?x + ?y - ?z) = _ =>
          replace (wrap a + x + y - z) with (wrap a + (x + y - z)) by lia end.
        rewrite wrap_add_l. f_equal. rewrite len_app, <- HtB. lia.
Qed.

Lemma New_inv M :
  0 <= M <= int_max ->
  content_inv M [] (NewHeadTailBuffer M) /\ count_inv [] [] (NewHeadTailBuffer M).
Proof.
  intros HM. pose proof (half_bounds M ltac:(lia)) as Hhalf.
  assert (Hq : quot M 2 = Z.quot M 2) by (unfold quot; apply wrap_small; int_bounds; lia).
  unfold NewHeadTailBuffer. rewrite Hq.
  assert (Hs : sub M (Z.quot M 2) = M - Z.quot M 2)
    by (unfold sub; apply wrap_small; int_bounds; lia).
  rewrite Hs. split; constructor; cbn; try reflexivity.
  - rewrite take_nil. reflexivity.
  - rewrite drop_nil. unfold lastn. rewrite drop_nil. reflexivity.
Qed.

Lemma Drain_inv M since ever b :
  content_inv M since b -> count_inv since ever b ->
  content_inv M [] (snd (DrainChunks b)) /\ count_inv [] ever (snd (DrainChunks b)).
Proof.
  intros [Hmax Hhb Htb Hh Ht HhB HtB] [Hom Htot].
  split; constructor; cbn; try assumption; try reflexivity.
  - rewrite take_nil. reflexivity.
  - rewrite drop_nil. unfold lastn. rewrite drop_nil. reflexivity.
Qed.

(** The invariants along any sequence of pushes and drains, none of which
  panics. *)
Lemma run_inv M ops : forall b since ever,
  0 <= M <= int_max -> Forall op_ok ops ->
  content_inv M since b -> count_inv since ever b ->
  exists b', run ops b = Some b' /\
  content_inv M (since_drain_from since ops) b' /\
  count_inv (since_drain_from since ops) (pushed_from ever ops) b'.
Proof.
  induction ops as [|o ops IH]; intros b since ever HM Hok Hc Hn.
  - exists b. split; [reflexivity|]. split; assumption.
  - inversion Hok as [|? ? Ho Hok']; subst. destruct o as [c|]; simpl.
    + destruct (Push_inv M since ever c b HM Ho Hc Hn) as (b1 & -> & Hc' & Hn').
      apply IH; assumption.
    + destruct (Drain_inv M since ever b Hc Hn) as [Hc' Hn'].
      apply IH; assumption.
Qed.

(** What the observers return in a state satisfying the invariants. *)
Lemma retained_eq M since b :
  0 <= M <= int_max -> content_inv M since b ->
  RetainedBytes b = Z.min M (len since) /\
  headBytes b + tailBytes b = Z.min M (len since).
Proof.
  intros HM [Hmax Hhb Htb Hh Ht HhB HtB].
  pose proof (half_bounds M ltac:(lia)) as Hhalf.
  assert (Hsum : headBytes b + tailBytes b = Z.min M (len since)).
  { rewrite HhB, HtB, Hh, Ht. unfold len.
    rewrite length_take, length_lastn, length_drop. unfold half_floor, half_ceil. lia. }
  split; [|exact Hsum].
  unfold RetainedBytes, add. rewrite Hsum. apply wrap_small.
  pose proof (len_nonneg since). int_bounds. lia.
Qed.

Lemma snapshot_small M since b :
  0 <= M <= int_max -> content_inv M since b -> len since <= M ->
  Snapshot b = since.
Proof.
  intros HM Hc Hle. destruct (retained_eq M since b HM Hc) as [Hret Hsum].
  destruct Hc as [Hmax Hhb Htb Hh Ht HhB HtB].
  pose proof (half_bounds M ltac:(lia)) as Hhalf. pose proof (len_nonneg since) as Hs0.
  unfold Snapshot, toBytesUnlocked. fold (RetainedBytes b). rewrite Hret.
  destruct (Z.eqb_spec (Z.min M (len since)) 0) as [Hz|Hnz].
  - destruct since; [reflexivity|]. unfold len in *. simpl in *. lia.
  - rewrite Hh, Ht, lastn_all, take_drop; [reflexivity|].
    rewrite length_drop. unfold half_floor, half_ceil, len in *. lia.
Qed.

Lemma snapshot_overflow M since b :
  0 <= M <= int_max -> content_inv M since b -> M < len since ->
  Snapshot b = take (half_floor M) since ++ lastn (half_ceil M) since.
Proof.
  intros HM Hc Hlt. destruct (retained_eq M since b HM Hc) as [Hret Hsum].
  destruct Hc as [Hmax Hhb Htb Hh Ht HhB HtB].
  pose proof (half_bounds M ltac:(lia)) as Hhalf.
  assert (Htl : lastn (half_ceil M) (drop (half_floor M) since)
                = lastn (half_ceil M) since).
  { unfold lastn. rewrite drop_drop, length_drop. f_equal.
    unfold half_floor, half_ceil, len in *. lia. }
  unfold Snapshot, toBytesUnlocked. fold (RetainedBytes b). rewrite Hret.
  destruct (Z.eqb_spec (Z.min M (len since)) 0) as [Hz|Hnz].
  - assert (M = 0) as -> by lia. cbn. unfold lastn. rewrite Nat.sub_0_r, drop_all. reflexivity.
  - rewrite Hh, Ht, Htl. reflexivity.
Qed.

Lemma since_drain_from_pushes chunks : forall acc,
  since_drain_from acc (map OpPush chunks) = acc ++ concat chunks.
Proof.
  induction chunks as [|c cs IH]; intros acc; simpl.
  - rewrite app_nil_r. reflexivity.
  - rewrite IH, app_assoc. reflexivity.
Qed.

Lemma no_drain_since ops : forall acc,
  Forall (fun o => o <> OpDrain) ops ->
  since_drain_from acc ops = pushed_from acc ops.
Proof.
  induction ops as [|o ops IH]; intros acc H; [reflexivity|].
  inversion H; subst. destruct o; simpl; [apply IH; assumption|congruence].
Qed.

Lemma since_le_pushed ops : forall acc ever,
  len acc <= len ever ->
  len (since_drain_from acc ops) <= len (pushed_from ever ops).
Proof.
  induction ops as [|o ops IH]; intros acc ever H; [exact H|].
  destruct o as [c|]; simpl; apply IH.
  - rewrite !len_app. lia.
  - pose proof (len_nonneg ever). unfold len at 1. simpl. lia.
Qed.

Lemma half_floor_ceil M :
  0 <= M -> Z.of_nat (half_floor M) = M / 2 /\ Z.of_nat (half_ceil M) = (M + 1) / 2.
Proof.
  intros HM. unfold half_floor, half_ceil. rewrite Z.quot_div_nonneg by lia.
  pose proof (Z.div_mod M 2 ltac:(lia)). pose proof (Z.mod_pos_bound M 2 ltac:(lia)).
  pose proof (Z.div_mod (M + 1) 2 ltac:(lia)).
  pose proof (Z.mod_pos_bound (M + 1) 2 ltac:(lia)). lia.
Qed.

End BufferFacts.

(** C1 (as amended). At every point of every sequence of [Push] and
    [DrainChunks] on a buffer of capacity [M >= 0], no operation panics and
    the retained byte count stays within [0, M]; as long as fewer than 2^63
    bytes were pushed, retained + omitted equals the number of bytes pushed
    since the last [DrainChunks] while [TotalWritten] is the number of
    bytes ever pushed; when the bytes since the last drain fit in [M],
    nothing is omitted and the snapshot is exactly their concatenation.
    Without any drain the bytes since the last drain are all bytes ever
    pushed. *)
Theorem buffer_counters_and_content (M : Z) (ops : list op) :
  0 <= M <= int_max -> Forall op_ok ops ->
  exists b,
    run ops (NewHeadTailBuffer M) = Some b /\
    0 <= RetainedBytes b <= M /\
    (len (pushed ops) <= int_max ->
       RetainedBytes b + OmittedBytes b = len (since_drain ops) /\
       TotalWritten b = len (pushed ops) /\
       (len (since_drain ops) <= M ->
          OmittedBytes b = 0 /\ Snapshot b = since_drain ops)) /\
    (Forall (fun o => o <> OpDrain) ops -> since_drain ops = pushed ops).
Proof.
  intros HM Hok.
  destruct (New_inv M HM) as [Hc0 Hn0].
  destruct (run_inv M ops _ [] [] HM Hok Hc0 Hn0) as (b & Hrun & Hc & Hn).
  fold (since_drain ops) in Hc, Hn. fold (pushed ops) in Hn.
  exists b. split; [exact Hrun|].
  destruct (retained_eq M _ b HM Hc) as [Hret Hsum].
  pose proof (len_nonneg (since_drain ops)) as Hs0.
  pose proof (since_le_pushed ops [] [] ltac:(lia)) as Hle.
  fold (since_drain ops) in Hle. fold (pushed ops) in Hle.
  split; [rewrite Hret; lia|]. split.
  - intros Hrange.
    assert (Hom : OmittedBytes b = len (since_drain ops) - RetainedBytes b).
    { unfold OmittedBytes. rewrite (cn_omitted _ _ _ Hn), Hret.
      replace (len (since_drain ops) - headBytes b - tailBytes b)
        with (len (since_drain ops) - Z.min M (len (since_drain ops))) by lia.
      apply wrap_small. int_bounds. lia. }
    split; [lia|]. split.
    + unfold TotalWritten. rewrite (cn_total _ _ _ Hn). apply wrap_small.
      pose proof (len_nonneg (pushed ops)). int_bounds. lia.
    + intros Hfit. split; [rewrite Hom, Hret; lia|].
      apply (snapshot_small M); assumption.
  - intros Hnd. apply no_drain_since. assumption.
Qed.

Lemma buffer_counters_and_content_witness :
  exists b,
    run [OpPush abc; OpDrain; OpPush defgh] (NewHeadTailBuffer 7) = Some b /\
    0 <= RetainedBytes b <= 7 /\
    (len (pushed [OpPush abc; OpDrain; OpPush defgh]) <= int_max ->
       RetainedBytes b + OmittedBytes b
         = len (since_drain [OpPush abc; OpDrain; OpPush defgh]) /\
       TotalWritten b = len (pushed [OpPush abc; OpDrain; OpPush defgh]) /\
       (len (since_drain [OpPush abc; OpDrain; OpPush defgh]) <= 7 ->
          OmittedBytes b = 0 /\
          Snapshot b = since_drain [OpPush abc; OpDrain; OpPush defgh])) /\
    (Forall (fun o => o <> OpDrain) [OpPush abc; OpDrain; OpPush defgh] ->
       since_drain [OpPush abc; OpDrain; OpPush defgh]
         = pushed [OpPush abc; OpDrain; OpPush defgh]).
Proof.
  apply (buffer_counters_and_content 7 [OpPush abc; OpDrain; OpPush defgh]).
  - vm_compute. split; intros H; discriminate H.
  - repeat constructor; vm_compute; intros H; discriminate H.
Defined.

(** C1 as stated fails once [DrainChunks] is among the operations: after
    pushing three bytes and draining, nothing is retained or omitted, yet
    [TotalWritten] is still 3 and the snapshot is empty. *)
Lemma buffer_drain_counterexample :
  exists b,
    run [OpPush abc; OpDrain] (NewHeadTailBuffer 7) = Some b /\
    RetainedBytes b = 0 /\ OmittedBytes b = 0 /\ TotalWritten b = 3 /\
    Snapshot b = [] /\
    ~ (RetainedBytes b <= 7 /\
       RetainedBytes b + OmittedBytes b = TotalWritten b /\
       (TotalWritten b <= 7 ->
          OmittedBytes b = 0 /\ Snapshot b = pushed [OpPush abc; OpDrain])).
Proof.
  eexists. split; [vm_compute; reflexivity|].
  vm_compute. repeat split. intros (_ & H & _). discriminate H.
Qed.

(** C2. Once more than [M] bytes have been pushed into a buffer of capacity
    [M], the snapshot is the first floor(M/2) bytes ever pushed followed by
    the last ceil(M/2) bytes ever pushed. *)
Theorem snapshot_head_tail_after_overflow (M : Z) (chunks : list bytes) :
  0 <= M <= int_max -> Forall chunk_ok chunks ->
  M < len (concat chunks) ->
  exists b,
    pushAll chunks (NewHeadTailBuffer M) = Some b /\
    Z.of_nat (half_floor M) = M / 2 /\
    Z.of_nat (half_ceil M) = (M + 1) / 2 /\
    Snapshot b = take (half_floor M) (concat chunks)
                   ++ lastn (half_ceil M) (concat chunks) /\
    take (half_floor M) (Snapshot b) = take (half_floor M) (concat chunks) /\
    lastn (half_ceil M) (Snapshot b) = lastn (half_ceil M) (concat chunks).
Proof.
  intros HM Hok Hov. set (all := concat chunks) in *.
  destruct (half_floor_ceil M ltac:(lia)) as [Hf Hc].
  destruct (New_inv M HM) as [Hc0 Hn0].
  assert (Hok' : Forall op_ok (map OpPush chunks)).
  { apply Forall_map. exact Hok. }
  destruct (run_inv M (map OpPush chunks) _ [] [] HM Hok' Hc0 Hn0) as (b & Hrun & Hci & _).
  rewrite since_drain_from_pushes in Hci. simpl in Hci. fold all in Hci.
  exists b. split; [exact Hrun|].
  pose proof (snapshot_overflow M all b HM Hci Hov) as Hsnap.
  pose proof (half_bounds M ltac:(lia)) as Hhalf.
  assert (Hlen : (half_floor M + half_ceil M < length all)%nat).
  { unfold half_floor, half_ceil, len in *. lia. }
  split; [exact Hf|]. split; [exact Hc|]. split; [exact Hsnap|]. rewrite Hsnap. split.
  - rewrite take_app_le by (rewrite length_take; lia). apply take_idemp.
  - rewrite lastn_app_ge; [|rewrite length_lastn; lia].
    unfold lastn at 1. rewrite length_lastn.
    replace (Nat.min (half_ceil M) (length all) - half_ceil M)%nat with 0%nat by lia.
    reflexivity.
Qed.

Lemma snapshot_head_tail_after_overflow_witness :
  exists b,
    pushAll [abc; defgh; abc] (NewHeadTailBuffer 7) = Some b /\
    Z.of_nat (half_floor 7) = 7 / 2 /\
    Z.of_nat (half_ceil 7) = (7 + 1) / 2 /\
    Snapshot b = take (half_floor 7) (concat [abc; defgh; abc])
                   ++ lastn (half_ceil 7) (concat [abc; defgh; abc]) /\
    take (half_floor 7) (Snapshot b) = take (half_floor 7) (concat [abc; defgh; abc]) /\
    lastn (half_ceil 7) (Snapshot b) = lastn (half_ceil 7) (concat [abc; defgh; abc]).
Proof.
  apply (snapshot_head_tail_after_overflow 7 [abc; defgh; abc]).
  - vm_compute. split; intros H; discriminate H.
  - repeat constructor; vm_compute; intros H; discriminate H.
  - vm_compute. reflexivity.
Defined.

(** The cases of buffer_test.go. *)
Example buffer_keeps_prefix_and_suffix :
  let text s := list_byte_of_string s in
  (Snapshot <$> pushAll [text "0123456789"; text "ab"] (NewHeadTailBuffer 10))
    = Some (text "01234789ab") /\
  (OmittedBytes <$> pushAll [text "0123456789"; text "ab"] (NewHeadTailBuffer 10))
    = Some 2 /\
  (Snapshot <$> pushAll [text "0123456789"; text "ABCDEFGHIJK"] (NewHeadTailBuffer 10))
    = Some (text "01234GHIJK") /\
  (Snapshot <$> pushAll [text "01"; text "234"; text "567"; text "89"; text "a"]
                  (NewHeadTailBuffer 10))
    = Some (text "012346789a") /\
  ((fun b => (RetainedBytes b, OmittedBytes b, Snapshot b))
     <$> pushAll [text "abc"] (NewHeadTailBuffer 0)) = Some (0, 3, []) /\
  ((fun b => (RetainedBytes b, OmittedBytes b, Snapshot b))
     <$> pushAll [text "abc"] (NewHeadTailBuffer 1)) = Some (1, 2, text "c").
Proof. vm_compute. repeat split. Qed.

(** With a negative capacity the tail budget is negative and the first
    push panics on its slice expression. *)
Example buffer_negative_capacity_panics :
  Push abc (NewHeadTailBuffer (-4)) = None.
Proof. vm_compute. reflexivity. Qed.

(** ** The session store *)

Section StoreFacts.
Import Store.

(** [sort.Slice] always has an outcome. *)
Lemma sortCandidates_outcome cands : sort_outcome cands (sortCandidates cands).
Proof.
  split; [apply merge_sort_Permutation|].
  apply StronglySorted_merge_sort; apply _.
Qed.

Lemma sorted_lookup (l : list candidate) :
  StronglySorted more_recent l ->
  forall i j a b, (i < j)%nat -> l !! i = Some a -> l !! j = Some b -> more_recent a b.
Proof.
  induction 1 as [|x l Hs IH Hall]; intros i j a b Hij Hi Hj.
  - rewrite lookup_nil in Hi. discriminate.
  - destruct j as [|j]; [lia|]. destruct i as [|i]; simpl in *.
    + inversion Hi; subst. eapply Forall_lookup_1; eassumption.
    + eapply IH; [|eassumption..]. lia.
Qed.

(** The backward scan finds the last exited candidate, if there is one. *)
Lemma scanExited_spec (u : list candidate) :
  Forall (fun c => id c <> "") u ->
  (scanExited (reverse u) = "" /\ Forall (fun c => exited c = false) u) \/
  (exists i c, u !! i = Some c /\ exited c = true /\
               scanExited (reverse u) = id c /\
               forall j c', (i < j)%nat -> u !! j = Some c' -> exited c' = false).
Proof.
  induction u as [|c u IH] using rev_ind; intros Hid.
  - left. split; [reflexivity|constructor].
  - apply Forall_app in Hid as [Hid Hc]. rewrite reverse_snoc. simpl.
    destruct (exited c) eqn:Hex.
    + right. exists (length u), c. repeat split; try assumption.
      * apply list_lookup_middle. reflexivity.
      * intros j c' Hj Hl. rewrite lookup_ge_None_2 in Hl; [discriminate|].
        rewrite length_app. simpl. lia.
    + destruct (IH Hid) as [[Hs Hall]|(i & c0 & Hi & Hex0 & Hs & Hafter)].
      * left. split; [assumption|]. apply Forall_app. split; [assumption|].
        constructor; [assumption|constructor].
      * right. exists i, c0. repeat split; try assumption.
        -- apply lookup_app_l_Some. assumption.
        -- intros j c' Hj Hl. apply lookup_snoc_Some in Hl as [[Hlt Hl]|[Heq ->]].
           ++ eapply Hafter; eassumption.
           ++ assumption.
Qed.

(** Where the victim stands in the sorted candidates. *)
Lemma pickVictim_spec (sorted : list candidate) :
  (ProtectedCount < length sorted)%nat ->
  Forall (fun c => id c <> "") sorted ->
  exists i c,
    victim_at sorted i c /\ (ProtectedCount <= i)%nat /\
    ((exited c = true /\
      forall j c', (i < j)%nat -> sorted !! j = Some c' -> exited c' = false) \/
     (i = pred (length sorted) /\
      forall j c', (ProtectedCount <= j)%nat -> sorted !! j = Some c' ->
                   exited c' = false)).
Proof.
  intros Hlen Hid. unfold victim_at, pickVictim, unprotected.
  destruct (decide (ProtectedCount < length sorted)%nat) as [_|]; [|lia].
  set (u := drop ProtectedCount sorted).
  assert (Hu : (0 < length u)%nat) by (unfold u; rewrite length_drop; lia).
  assert (Hidu : Forall (fun c => id c <> "") u) by (apply Forall_drop; assumption).
  destruct (scanExited_spec u Hidu) as [[Hs Hall]|(i & c & Hi & Hex & Hs & Hafter)].
  - rewrite Hs. simpl. destruct (Nat.ltb_spec 0 (length u)) as [_|]; [|lia].
    unfold lastId. rewrite last_lookup.
    destruct (u !! pred (length u)) as [c|] eqn:Hl.
    2:{ apply lookup_ge_None_1 in Hl. lia. }
    exists (ProtectedCount + pred (length u))%nat, c. unfold u in Hl.
    rewrite lookup_drop in Hl. repeat split; [assumption|lia|].
    right. split.
    + unfold u. rewrite length_drop. lia.
    + intros j c' Hj Hl'.
      apply (Forall_lookup_1 (fun c => exited c = false) u (j - ProtectedCount) c' Hall).
      unfold u. rewrite lookup_drop. rewrite <- Hl'. f_equal. lia.
  - rewrite Hs. assert (Hne : String.eqb (id c) "" = false).
    { apply String.eqb_neq. eapply Forall_lookup_1 in Hidu; [|exact Hi]. exact Hidu. }
    rewrite Hne. simpl.
    exists (ProtectedCount + i)%nat, c. unfold u in Hi. rewrite lookup_drop in Hi.
    repeat split; [assumption|lia|]. left. split; [assumption|].
    intros j c' Hj Hl'. apply (Hafter (j - ProtectedCount)%nat); [lia|].
    unfold u. rewrite lookup_drop. rewrite <- Hl'. f_equal. lia.
Qed.

Lemma candidates_ids (s : Store) :
  id <$> candidates_of s = (map_to_list (sessions s)).*1.
Proof.
  unfold candidates_of. rewrite <- list_fmap_compose. apply list_fmap_ext.
  intros ? [k v] _. reflexivity.
Qed.

Lemma candidates_length (s : Store) : length (candidates_of s) = size (sessions s).
Proof. unfold candidates_of. rewrite length_fmap. apply length_map_to_list. Qed.

Lemma candidate_in_store (s : Store) c :
  c ∈ candidates_of s -> is_Some (sessions s !! id c).
Proof.
  unfold candidates_of. intros Hc. apply list_elem_of_fmap in Hc as ([k v] & -> & Hkv).
  apply elem_of_map_to_list in Hkv. simpl. eauto.
Qed.

(** What a sorted outcome inherits from the store. *)
Lemma sort_outcome_facts (s : Store) sorted :
  sort_outcome (candidates_of s) sorted ->
  length sorted = size (sessions s) /\
  NoDup (id <$> sorted) /\
  (forall c, c ∈ sorted -> is_Some (sessions s !! id c)).
Proof.
  intros [Hperm _]. repeat split.
  - rewrite Hperm. apply candidates_length.
  - rewrite Hperm, candidates_ids. apply NoDup_fst_map_to_list.
  - intros c Hc. apply candidate_in_store. rewrite <- Hperm. exact Hc.
Qed.

Lemma insertSession_size sess s :
  (size (sessions (insertSession sess s)) <= S (size (sessions s)))%nat.
Proof.
  simpl. rewrite map_size_insert. destruct (sessions s !! ProcessID sess); simpl; lia.
Qed.

Lemma step_inv s o s' : step s o s' -> op_ok o -> store_inv s -> store_inv s'.
Proof.
  intros Hstep Hok [Hsz Hemp]. unfold store_inv, Count in *.
  destruct Hstep as [s sess sorted Hout| | |]; simpl in *.
  - pose proof (insertSession_size sess s) as Hle.
    assert (Hemp1 : sessions (insertSession sess s) !! "" = None).
    { simpl. rewrite lookup_insert_ne by exact Hok. exact Hemp. }
    unfold StoreWith.
    destruct (decide (MaxSessions < size (sessions (insertSession sess s)))%nat) as [Hbig|Hsmall].
    2:{ split; [lia|exact Hemp1]. }
    destruct (sort_outcome_facts _ _ Hout) as (Hlen & Hnd & Hin).
    assert (Hids : Forall (fun c => id c <> "") sorted).
    { apply Forall_forall. intros c Hc Heq. apply Hin in Hc as [x Hx].
      rewrite Heq in Hx. congruence. }
    destruct (pickVictim_spec sorted) as (i & c & [Hi Hv] & _ & _);
      [unfold MaxSessions, ProtectedCount in *; lia|exact Hids|].
    unfold pruneOneLocked. rewrite <- Hv.
    assert (Hne : id c <> "").
    { eapply (Forall_lookup_1 _ sorted i c Hids). exact Hi. }
    apply String.eqb_neq in Hne. rewrite Hne. cbn [sessions].
    assert (Hsome : is_Some (sessions (insertSession sess s) !! id c)).
    { apply Hin. eapply list_elem_of_lookup_2. exact Hi. }
    split.
    + rewrite map_size_delete_Some by exact Hsome. lia.
    + apply String.eqb_neq in Hne. rewrite lookup_delete_ne by congruence. exact Hemp1.
  - split; assumption.
  - split.
    + rewrite map_size_delete. destruct (sessions s !! processID); simpl; lia.
    + destruct (decide (processID = "")) as [->|Hne].
      * apply lookup_delete_eq.
      * rewrite lookup_delete_ne by exact Hne. exact Hemp.
  - split.
    + rewrite <- size_dom, dom_alter_L, size_dom. exact Hsz.
    + rewrite lookup_alter. case_decide; [subst; rewrite Hemp|]; done.
Qed.

Lemma steps_inv s ops s' :
  steps s ops s' -> Forall op_ok ops -> store_inv s -> store_inv s'.
Proof.
  induction 1 as [|s o s1 ops s2 Hstep Hsteps IH]; intros Hok Hinv; [assumption|].
  inversion Hok; subst. apply IH; [assumption|]. eapply step_inv; eassumption.
Qed.

Lemma NewStore_inv : store_inv NewStore.
Proof.
  split; [unfold Count, NewStore, MaxSessions; simpl; rewrite map_size_empty; lia|].
  apply lookup_empty.
Qed.

(** The deterministic run is one of the executions. *)
Lemma run_steps ops : forall s, steps s ops (run ops s).
Proof.
  induction ops as [|o ops IH]; intros s; [constructor|].
  simpl. econstructor; [|apply IH].
  destruct o as [sess| | |]; simpl; [|constructor..].
  unfold StoreSession. apply step_Store. apply sortCandidates_outcome.
Qed.

End StoreFacts.

(** C3. In every store reached from the empty one by a sequence of [Store],
    [Get] and [Remove] calls (and of changes to the sessions it points to)
    with non-empty session ids, the session count is at most [MaxSessions];
    and whenever a further [Store] there triggers the eviction, the victim
    stands at a position from [ProtectedCount] on in the recency order, so
    it is none of the 8 most recently used sessions; if some unprotected
    session has exited the victim is an exited one, least recently used
    among the exited unprotected ones; otherwise it is the least recently
    used session. The victim is removed and the count is [MaxSessions]
    again. *)
Theorem store_cap_and_eviction (ops : list Store.op) (s : Store.Store) :
  Store.steps Store.NewStore ops s -> Forall Store.op_ok ops ->
  (Store.Count s <= Store.MaxSessions)%nat /\
  forall sess sorted,
    Store.ProcessID sess <> "" ->
    Store.sort_outcome (Store.candidates_of (Store.insertSession sess s)) sorted ->
    (Store.MaxSessions < size (Store.sessions (Store.insertSession sess s)))%nat ->
    exists i c,
      Store.victim_at sorted i c /\
      is_Some (Store.sessions (Store.insertSession sess s) !! Store.id c) /\
      Store.StoreWith sorted sess s =
        Store.mkStore
          (delete (Store.id c) (Store.sessions (Store.insertSession sess s)))
          (Store.reserved (Store.insertSession sess s) ∖ {[Store.id c]}) /\
      Store.Count (Store.StoreWith sorted sess s) = Store.MaxSessions /\
      (Store.ProtectedCount <= i)%nat /\
      (forall j c', (j < Store.ProtectedCount)%nat -> sorted !! j = Some c' ->
         Store.id c' <> Store.id c /\ Store.lastUsed c <= Store.lastUsed c') /\
      ((exists j c', (Store.ProtectedCount <= j)%nat /\ sorted !! j = Some c' /\
                     Store.exited c' = true) ->
       Store.exited c = true /\
       forall j c', (Store.ProtectedCount <= j)%nat -> sorted !! j = Some c' ->
                    Store.exited c' = true ->
                    Store.lastUsed c <= Store.lastUsed c') /\
      ((forall j c', (Store.ProtectedCount <= j)%nat -> sorted !! j = Some c' ->
                     Store.exited c' = false) ->
       forall j c', sorted !! j = Some c' -> Store.lastUsed c <= Store.lastUsed c').
Proof.
  intros Hsteps Hok.
  destruct (steps_inv _ _ _ Hsteps Hok NewStore_inv) as [Hsz Hemp].
  split; [exact Hsz|]. intros sess sorted Hpid Hout Hbig.
  pose proof (insertSession_size sess s) as Hle. unfold Store.Count in Hsz.
  assert (Hemp1 : Store.sessions (Store.insertSession sess s) !! "" = None).
  { simpl. rewrite lookup_insert_ne by exact Hpid. exact Hemp. }
  destruct (sort_outcome_facts _ _ Hout) as (Hlen & Hnd & Hin).
  destruct Hout as [Hperm Hsorted].
  assert (Hids : Forall (fun c => Store.id c <> "") sorted).
  { apply Forall_forall. intros c Hc Heq. apply Hin in Hc as [x Hx].
    rewrite Heq in Hx. congruence. }
  destruct (pickVictim_spec sorted) as (i & c & [Hi Hv] & Hprot & Hcase);
    [unfold Store.MaxSessions, Store.ProtectedCount in *; lia|exact Hids|].
  assert (Hne : Store.id c <> "") by (eapply (Forall_lookup_1 _ sorted i c Hids); exact Hi).
  assert (Hsome : is_Some (Store.sessions (Store.insertSession sess s) !! Store.id c)).
  { apply Hin. eapply list_elem_of_lookup_2. exact Hi. }
  assert (Hstore : Store.StoreWith sorted sess s =
            Store.mkStore
              (delete (Store.id c) (Store.sessions (Store.insertSession sess s)))
              (Store.reserved (Store.insertSession sess s) ∖ {[Store.id c]})).
  { unfold Store.StoreWith.
    destruct (decide (Store.MaxSessions < size (Store.sessions (Store.insertSession sess s)))%nat);
      [|lia].
    unfold Store.pruneOneLocked. rewrite <- Hv.
    apply String.eqb_neq in Hne. rewrite Hne. reflexivity. }
  assert (Hord : forall j c', sorted !! j = Some c' -> (j <= i)%nat ->
                              Store.lastUsed c <= Store.lastUsed c').
  { intros j c' Hj Hji. destruct (decide (j = i)) as [->|Hneq].
    - rewrite Hi in Hj. inversion Hj. lia.
    - apply (sorted_lookup sorted Hsorted j i c' c); [lia|assumption..]. }
  exists i, c. split; [split; assumption|]. split; [exact Hsome|].
  split; [exact Hstore|]. split.
  { rewrite Hstore. unfold Store.Count. cbn [Store.sessions].
    rewrite map_size_delete_Some by exact Hsome. unfold Store.MaxSessions in *. lia. }
  split; [exact Hprot|]. split.
  { intros j c' Hj Hl. split.
    - intros Heq.
      assert (j = i); [|lia].
      apply (NoDup_lookup (Store.id <$> sorted) j i (Store.id c) Hnd).
      + rewrite list_lookup_fmap, Hl. simpl. congruence.
      + rewrite list_lookup_fmap, Hi. reflexivity.
    - apply (Hord j c' Hl). lia. }
  split.
  - intros (j & c' & Hj & Hl & Hex). destruct Hcase as [[Hexc Hafter]|[_ Hnone]].
    + split; [exact Hexc|]. intros j' c'' Hj' Hl' Hex'.
      apply (Hord j' c'' Hl'). destruct (Nat.le_gt_cases j' i) as [|Hgt]; [assumption|].
      rewrite (Hafter j' c'' Hgt Hl') in Hex'. discriminate.
    + rewrite (Hnone j c' Hj Hl) in Hex. discriminate.
  - intros Hnone j c' Hl. destruct Hcase as [[Hexc _]|[Hlast _]].
    + rewrite (Hnone i c Hprot Hi) in Hexc. discriminate.
    + apply (Hord j c' Hl). apply lookup_lt_Some in Hl. lia.
Qed.

Lemma store_cap_and_eviction_witness :
  let ops := Store.sampleOps 65 10 in
  let s := Store.run ops Store.NewStore in
  Store.steps Store.NewStore ops s /\ Forall Store.op_ok ops /\
  (Store.Count s <= Store.MaxSessions)%nat.
Proof.
  intros ops s.
  assert (H1 : Store.steps Store.NewStore ops s) by apply run_steps.
  assert (H2 : Forall Store.op_ok ops).
  { unfold ops, Store.sampleOps. apply Forall_fmap, Forall_forall.
    intros k _. simpl. discriminate. }
  split; [exact H1|]. split; [exact H2|].
  exact (proj1 (store_cap_and_eviction ops s H1 H2)).
Defined.

(** With ten exited sessions among 65 stored ones, the oldest exited
    session "0" is evicted and its successors stay. *)
Example store_evicts_oldest_exited :
  let s := Store.run (Store.sampleOps 65 10) Store.NewStore in
  Store.Count s = 64%nat /\ Store.Get "0" s = None /\
  Store.Get "1" s = Some (Store.sample 1 true).
Proof. vm_compute. repeat split. Qed.

(** A running session that is older than an exited one survives it
    (TestStore_PruningPrefersExitedOverRunning). *)
Example store_prefers_exited_over_running :
  let running := Store.mkSession "running-1" (-2) false None in
  let exited := Store.mkSession "exited-1" (-1) true None in
  let s := Store.run (Store.OpStore running :: Store.OpStore exited
                        :: Store.sampleOps 63 0) Store.NewStore in
  Store.Count s = 64%nat /\ Store.Get "exited-1" s = None /\
  Store.Get "running-1" s = Some running.
Proof. vm_compute. repeat split. Qed.

(** [pruneOneLocked] uses the empty string for "no victim": a session
    stored under the empty id is never evicted, which is why the cap is
    stated for the ids the handlers allocate. *)
Example store_empty_id_is_no_victim :
  let s := Store.run (Store.OpStore (Store.mkSession "" (-1) false None)
                        :: Store.sampleOps 64 0) Store.NewStore in
  Store.Count s = 65%nat /\ Store.Get "" s = Some (Store.mkSession "" (-1) false None).
Proof. vm_compute. split; reflexivity. Qed.

(** ** The approval gate *)

Section ApprovalFacts.
Import Workflow.

Lemma buildDeniedSet_from (denied : list string) : forall (m : gmap string bool) k,
  lookupBool (fold_left (fun m id => <[id := true]> m) denied m) k = true <->
  k ∈ denied \/ lookupBool m k = true.
Proof.
  induction denied as [|d ds IH]; intros m k; simpl.
  - split; [auto|]. intros [H|H]; [inversion H|exact H].
  - rewrite IH. unfold lookupBool. rewrite elem_of_cons.
    destruct (decide (d = k)) as [->|Hne].
    + rewrite lookup_insert_eq. simpl. tauto.
    + rewrite lookup_insert_ne by exact Hne. split; [tauto|].
      intros [[Heq|H]|H]; [congruence|tauto..].
Qed.

(** The denied set holds exactly the ids of the denied list. *)
Lemma buildDeniedSet_spec (denied : list string) k :
  lookupBool (buildDeniedSet denied) k = true <-> k ∈ denied.
Proof.
  unfold buildDeniedSet. rewrite buildDeniedSet_from. unfold lookupBool.
  rewrite lookup_empty. simpl. split; [intros [H|H]; [exact H|discriminate]|auto].
Qed.

Lemma decisionLoop_spec (deniedIds : list string) (calls : list ConversationItem) :
  forall approved denied,
    decisionLoop (buildDeniedSet deniedIds) calls approved denied =
    (approved ++ filter (fun fc => CallID fc ∉ deniedIds) calls,
     denied ++ (deniedItem <$> filter (fun fc => CallID fc ∈ deniedIds) calls)).
Proof.
  induction calls as [|fc calls IH]; intros approved denied; simpl.
  - rewrite !app_nil_r. reflexivity.
  - destruct (lookupBool (buildDeniedSet deniedIds) (CallID fc)) eqn:Hl.
    + apply buildDeniedSet_spec in Hl. rewrite IH.
      rewrite (filter_cons_True (fun fc => CallID fc ∈ deniedIds)) by exact Hl.
      rewrite (filter_cons_False (fun fc => CallID fc ∉ deniedIds)) by (intros H; exact (H Hl)).
      rewrite fmap_cons, <- app_assoc. reflexivity.
    + assert (Hn : CallID fc ∉ deniedIds).
      { intros H. apply buildDeniedSet_spec in H. congruence. }
      rewrite IH.
      rewrite (filter_cons_False (fun fc => CallID fc ∈ deniedIds)) by exact Hn.
      rewrite (filter_cons_True (fun fc => CallID fc ∉ deniedIds)) by exact Hn.
      rewrite <- app_assoc. reflexivity.
Qed.

Lemma applyApprovalDecision_spec calls r :
  applyApprovalDecision calls (Some r) =
  (filter (fun fc => CallID fc ∉ Denied r) calls,
   deniedItem <$> filter (fun fc => CallID fc ∈ Denied r) calls).
Proof. unfold applyApprovalDecision. rewrite decisionLoop_spec. reflexivity. Qed.

End ApprovalFacts.

(** C9. With a non-nil response, [applyApprovalDecision] approves exactly
    the calls whose call id is not in the denied list, in their order, and
    turns the others into denial outputs; the approved list of the response
    plays no part, so a call named in neither list is approved; a nil
    response approves every call; two responses with the same set of denied
    ids give the same result. *)
Theorem approval_decision_by_denied_set (calls : list Workflow.ConversationItem) :
  (forall r,
     Workflow.applyApprovalDecision calls (Some r) =
     (filter (fun fc => Workflow.CallID fc ∉ Workflow.Denied r) calls,
      Workflow.deniedItem <$>
        filter (fun fc => Workflow.CallID fc ∈ Workflow.Denied r) calls)) /\
  (forall approved approved' denied,
     Workflow.applyApprovalDecision calls (Some (Workflow.mkResponse approved denied)) =
     Workflow.applyApprovalDecision calls (Some (Workflow.mkResponse approved' denied))) /\
  (forall r fc,
     fc ∈ calls -> Workflow.CallID fc ∉ Workflow.Approved r ->
     Workflow.CallID fc ∉ Workflow.Denied r ->
     fc ∈ fst (Workflow.applyApprovalDecision calls (Some r))) /\
  Workflow.applyApprovalDecision calls None = (calls, []) /\
  (forall r r',
     (forall k, k ∈ Workflow.Denied r <-> k ∈ Workflow.Denied r') ->
     Workflow.applyApprovalDecision calls (Some r) =
     Workflow.applyApprovalDecision calls (Some r')).
Proof.
  split; [intros r; apply applyApprovalDecision_spec|].
  split; [intros a a' d; rewrite !applyApprovalDecision_spec; reflexivity|].
  split.
  { intros r fc Hin _ Hnd. rewrite applyApprovalDecision_spec. simpl.
    apply list_elem_of_filter. split; assumption. }
  split; [reflexivity|].
  intros r r' Hsame. rewrite !applyApprovalDecision_spec. f_equal.
  - apply list_filter_iff. intros fc. rewrite Hsame. reflexivity.
  - f_equal. apply list_filter_iff. intros fc. apply Hsame.
Qed.

Section ClassificationFacts.
Import Workflow.

Lemma classifyLoop_spec E mgr mode calls : forall pending forbidden,
  classifyLoop E mgr mode calls pending forbidden =
  (pending ++ omap (pendingOf E mgr mode) calls,
   forbidden ++ omap (forbiddenOf E mgr mode) calls).
Proof.
  induction calls as [|fc calls IH]; intros pending forbidden; simpl.
  - rewrite !app_nil_r. reflexivity.
  - unfold pendingOf at 1, forbiddenOf at 1.
    destruct (evaluateToolApproval E (Name fc) (Arguments fc) mgr mode) as [[| |] reason];
      rewrite IH; simpl; rewrite <- ?app_assoc; reflexivity.
Qed.

Lemma classify_active E calls mode rules :
  mode <> "" -> mode <> ApprovalNever ->
  classifyToolsForApproval E calls mode rules =
  (omap (pendingOf E (buildPolicyManager E rules) mode) calls,
   omap (forbiddenOf E (buildPolicyManager E rules) mode) calls).
Proof.
  intros H1 H2. unfold classifyToolsForApproval.
  apply String.eqb_neq in H1, H2. rewrite H1, H2. simpl.
  rewrite classifyLoop_spec. reflexivity.
Qed.

Lemma classify_inactive E calls mode rules :
  mode = ApprovalNever \/ mode = "" ->
  classifyToolsForApproval E calls mode rules = ([], []).
Proof.
  unfold classifyToolsForApproval. intros [->| ->]; reflexivity.
Qed.

Lemma readonly_skip E name args mgr mode :
  isReadOnlyTool name = true ->
  evaluateToolApproval E name args mgr mode = (ApprovalSkip, "").
Proof.
  intros H. unfold evaluateToolApproval. rewrite H.
  destruct (isCollabToolCall E name); reflexivity.
Qed.

End ClassificationFacts.

(** C4. Approval classification of a call yields skip for [read_file],
    [list_dir], [grep_files], [request_user_input] and [update_plan] in
    every mode; needed for [write_file] and [apply_patch] in every mode
    other than never (neither being a collaboration tool); and with mode
    never or empty the classification of any batch returns no pending
    approval and no forbidden item. *)
Theorem approval_classification (E : Workflow.External) :
  Workflow.isCollabToolCall E "write_file" = false ->
  Workflow.isCollabToolCall E "apply_patch" = false ->
  (forall name args mgr mode,
     name ∈ ["read_file"; "list_dir"; "grep_files"; "request_user_input"; "update_plan"] ->
     Workflow.evaluateToolApproval E name args mgr mode = (Workflow.ApprovalSkip, "")) /\
  (forall name args mgr mode,
     name ∈ ["write_file"; "apply_patch"] -> mode <> Workflow.ApprovalNever ->
     Workflow.evaluateToolApproval E name args mgr mode
       = (Workflow.ApprovalNeeded, "mutating file operation")) /\
  (forall name args mgr,
     name ∈ ["write_file"; "apply_patch"] ->
     Workflow.evaluateToolApproval E name args mgr Workflow.ApprovalNever
       = (Workflow.ApprovalSkip, "")) /\
  (forall calls mode rules,
     mode = Workflow.ApprovalNever \/ mode = "" ->
     Workflow.classifyToolsForApproval E calls mode rules = ([], [])) /\
  (forall calls mode rules fc,
     mode <> Workflow.ApprovalNever -> mode <> "" -> fc ∈ calls ->
     Workflow.Name fc ∈ ["write_file"; "apply_patch"] ->
     Workflow.mkPending (Workflow.CallID fc) (Workflow.Name fc) (Workflow.Arguments fc)
       "mutating file operation"
     ∈ fst (Workflow.classifyToolsForApproval E calls mode rules)).
Proof.
  intros Hw Ha.
  assert (Hneeded : forall name args mgr mode,
            name ∈ ["write_file"; "apply_patch"] -> mode <> Workflow.ApprovalNever ->
            Workflow.evaluateToolApproval E name args mgr mode
              = (Workflow.ApprovalNeeded, "mutating file operation")).
  { intros name args mgr mode Hin Hmode. apply String.eqb_neq in Hmode.
    unfold Workflow.evaluateToolApproval.
    apply elem_of_cons in Hin as [->|Hin]; [rewrite Hw; simpl; rewrite Hmode; reflexivity|].
    apply elem_of_cons in Hin as [->|Hin]; [rewrite Ha; simpl; rewrite Hmode; reflexivity|].
    inversion Hin. }
  split; [|split; [exact Hneeded|split; [|split]]].
  - intros name args mgr mode Hin. apply readonly_skip.
    repeat (apply elem_of_cons in Hin as [->|Hin]; [reflexivity|]). inversion Hin.
  - intros name args mgr Hin. unfold Workflow.evaluateToolApproval.
    apply elem_of_cons in Hin as [->|Hin]; [rewrite Hw; reflexivity|].
    apply elem_of_cons in Hin as [->|Hin]; [rewrite Ha; reflexivity|].
    inversion Hin.
  - intros calls mode rules. apply classify_inactive.
  - intros calls mode rules fc Hm1 Hm2 Hin Hname.
    rewrite classify_active by assumption. simpl.
    apply list_elem_of_omap. exists fc. split; [exact Hin|].
    unfold Workflow.pendingOf. rewrite (Hneeded _ _ _ _ Hname Hm1). reflexivity.
Qed.

Lemma approval_classification_witness :
  Workflow.evaluateToolApproval Workflow.sampleExternal "write_file" "{}" None
    Workflow.ApprovalUnlessTrusted
  = (Workflow.ApprovalNeeded, "mutating file operation").
Proof.
  refine (proj1 (proj2 (approval_classification Workflow.sampleExternal _ _))
            "write_file" "{}" None Workflow.ApprovalUnlessTrusted _ _).
  - reflexivity.
  - reflexivity.
  - apply elem_of_cons. left. reflexivity.
  - discriminate.
Defined.

(** In mode unless-trusted a batch of a read and a write asks approval for
    the write alone; in mode never and with no mode it asks for nothing. *)
Example classify_read_and_write :
  Workflow.classifyToolsForApproval Workflow.sampleExternal
    [Workflow.readCall; Workflow.writeCall] Workflow.ApprovalUnlessTrusted ""
  = ([Workflow.mkPending "call_2" "write_file" "{}" "mutating file operation"], []) /\
  Workflow.classifyToolsForApproval Workflow.sampleExternal
    [Workflow.readCall; Workflow.writeCall; Workflow.rmCall] Workflow.ApprovalNever "forbid"
  = ([], []) /\
  Workflow.classifyToolsForApproval Workflow.sampleExternal
    [Workflow.readCall; Workflow.writeCall; Workflow.rmCall] "" "forbid"
  = ([], []).
Proof. vm_compute. repeat split. Qed.

Section ForbiddenFacts.
Import Workflow.

Lemma HasPrefix_app (p rest : string) : HasPrefix (p +:+ rest) p = true.
Proof.
  induction p as [|c p IH]; simpl; [destruct rest; reflexivity|].
  rewrite Ascii.eqb_refl. exact IH.
Qed.

Lemma forbiddenItem_shape fc reason :
  failedOutput (forbiddenItem fc reason) (CallID fc)
    (if String.eqb reason "" then "This command is forbidden by exec policy."
     else "Forbidden: " +:+ reason).
Proof. repeat split. Qed.

Lemma deniedItem_shape fc :
  failedOutput (deniedItem fc) (CallID fc) "User denied execution of this tool call.".
Proof. repeat split. Qed.

End ForbiddenFacts.

(** C5 (as amended). Every call denied in an approval response is left out
    of the approved calls, which are the ones that go on to execution, and
    produces a synthetic function_call_output with success = false and
    content exactly "User denied execution of this tool call."; every call
    classified forbidden produces, in the classification itself, a
    synthetic function_call_output with success = false whose content is
    "Forbidden: " followed by the reason when the policy gives one (so it
    starts with "Forbidden"), and "This command is forbidden by exec
    policy." when the reason is empty. *)
Theorem denied_and_forbidden_outputs (E : Workflow.External)
    (calls : list Workflow.ConversationItem) :
  (forall r fc,
     fc ∈ calls -> Workflow.CallID fc ∈ Workflow.Denied r ->
     let '(approved, denied) := Workflow.applyApprovalDecision calls (Some r) in
     (fc ∉ approved) /\ Workflow.deniedItem fc ∈ denied /\
     Workflow.failedOutput (Workflow.deniedItem fc) (Workflow.CallID fc)
       "User denied execution of this tool call.") /\
  (forall mode rules fc reason,
     mode <> "" -> mode <> Workflow.ApprovalNever ->
     fc ∈ calls ->
     Workflow.evaluateToolApproval E (Workflow.Name fc) (Workflow.Arguments fc)
       (Workflow.buildPolicyManager E rules) mode
       = (Workflow.ApprovalForbidden, reason) ->
     let '(pending, forbidden) := Workflow.classifyToolsForApproval E calls mode rules in
     Workflow.forbiddenItem fc reason ∈ forbidden /\
     (reason = "" ->
        Workflow.failedOutput (Workflow.forbiddenItem fc reason) (Workflow.CallID fc)
          "This command is forbidden by exec policy.") /\
     (reason <> "" ->
        Workflow.failedOutput (Workflow.forbiddenItem fc reason) (Workflow.CallID fc)
          ("Forbidden: " +:+ reason) /\
        Workflow.HasPrefix ("Forbidden: " +:+ reason) "Forbidden" = true)) /\
  (forall mode rules item,
     item ∈ snd (Workflow.classifyToolsForApproval E calls mode rules) ->
     exists fc reason,
       fc ∈ calls /\ item = Workflow.forbiddenItem fc reason /\
       Workflow.evaluateToolApproval E (Workflow.Name fc) (Workflow.Arguments fc)
         (Workflow.buildPolicyManager E rules) mode
         = (Workflow.ApprovalForbidden, reason)).
Proof.
  split; [|split].
  - intros r fc Hin Hden. rewrite applyApprovalDecision_spec. repeat split.
    + intros H. apply list_elem_of_filter in H as [H _]. exact (H Hden).
    + apply list_elem_of_fmap. exists fc. split; [reflexivity|].
      apply list_elem_of_filter. split; assumption.
  - intros mode rules fc reason Hm1 Hm2 Hin Heval.
    rewrite classify_active by assumption. split; [|split].
    + apply list_elem_of_omap. exists fc. split; [exact Hin|].
      unfold Workflow.forbiddenOf. rewrite Heval. reflexivity.
    + intros ->. apply (forbiddenItem_shape fc "").
    + intros Hne. split.
      * pose proof (forbiddenItem_shape fc reason) as H.
        apply String.eqb_neq in Hne. rewrite Hne in H. exact H.
      * apply (HasPrefix_app "Forbidden" (": " +:+ reason)).
  - intros mode rules item Hitem.
    destruct (String.eqb_spec mode "") as [->|Hm1];
      [rewrite classify_inactive in Hitem by (right; reflexivity); inversion Hitem|].
    destruct (String.eqb_spec mode Workflow.ApprovalNever) as [->|Hm2];
      [rewrite classify_inactive in Hitem by (left; reflexivity); inversion Hitem|].
    rewrite classify_active in Hitem by assumption. simpl in Hitem.
    apply list_elem_of_omap in Hitem as (fc & Hin & Hf).
    unfold Workflow.forbiddenOf in Hf.
    destruct (Workflow.evaluateToolApproval E (Workflow.Name fc) (Workflow.Arguments fc)
                (Workflow.buildPolicyManager E rules) mode) as [[| |] reason] eqn:Heval;
      try discriminate.
    inversion Hf; subst. exists fc, reason. repeat split; assumption.
Qed.

Lemma denied_and_forbidden_outputs_witness :
  let '(pending, forbidden) :=
    Workflow.classifyToolsForApproval Workflow.sampleExternal
      [Workflow.readCall; Workflow.rmCall] Workflow.ApprovalUnlessTrusted "no deleting" in
  Workflow.forbiddenItem Workflow.rmCall "no deleting" ∈ forbidden /\
  ("no deleting" = "" ->
     Workflow.failedOutput (Workflow.forbiddenItem Workflow.rmCall "no deleting")
       (Workflow.CallID Workflow.rmCall) "This command is forbidden by exec policy.") /\
  ("no deleting" <> "" ->
     Workflow.failedOutput (Workflow.forbiddenItem Workflow.rmCall "no deleting")
       (Workflow.CallID Workflow.rmCall) ("Forbidden: " +:+ "no deleting") /\
     Workflow.HasPrefix ("Forbidden: " +:+ "no deleting") "Forbidden" = true).
Proof.
  refine (proj1 (proj2 (denied_and_forbidden_outputs Workflow.sampleExternal
                          [Workflow.readCall; Workflow.rmCall]))
            Workflow.ApprovalUnlessTrusted "no deleting" Workflow.rmCall "no deleting"
            _ _ _ _).
  - discriminate.
  - discriminate.
  - apply elem_of_cons. right. apply elem_of_cons. left. reflexivity.
  - vm_compute. reflexivity.
Defined.

(** C5 as stated fails for a policy that forbids without a justification:
    the forbidden output then reads "This command is forbidden by exec
    policy.", which does not start with "Forbidden". *)
Lemma forbidden_without_reason_counterexample :
  let forbidden :=
    snd (Workflow.classifyToolsForApproval Workflow.sampleExternal
           [Workflow.rmCall] Workflow.ApprovalUnlessTrusted "forbid") in
  forbidden = [Workflow.forbiddenItem Workflow.rmCall ""] /\
  ~ Forall (fun item =>
              exists p, Workflow.Output item = Some p /\
                        Workflow.Success p = Some false /\
                        Workflow.HasPrefix (Workflow.Content p) "Forbidden" = true)
           forbidden.
Proof.
  split; [vm_compute; reflexivity|].
  intros H. apply Forall_cons in H as [(p & Hp & _ & Hpre) _].
  vm_compute in Hp. inversion Hp; subst. vm_compute in Hpre. discriminate.
Qed.

(** ** Sandbox denial detection and escalation *)

Section EscalationFacts.
Import Workflow.

Lemma append_nil_r (s : string) : s +:+ "" = s.
Proof.
  induction s as [|c s IH]; [reflexivity|].
  change (String c (s +:+ "") = String c s). f_equal. exact IH.
Qed.

Lemma append_assoc (a b c : string) : (a +:+ b) +:+ c = a +:+ (b +:+ c).
Proof.
  induction a as [|x a IH]; [reflexivity|].
  change (String x ((a +:+ b) +:+ c) = String x (a +:+ (b +:+ c))). f_equal. exact IH.
Qed.

Lemma HasPrefix_spec (p : string) : forall s,
  HasPrefix s p = true <-> exists post, s = p +:+ post.
Proof.
  induction p as [|c p IH]; intros s; simpl.
  - split; [intros _; exists s; reflexivity|reflexivity].
  - destruct s as [|d s]; simpl.
    + split; [discriminate|intros [post H]; discriminate].
    + rewrite andb_true_iff, IH. split.
      * intros [Hc [post ->]]. apply Ascii.eqb_eq in Hc. subst. exists post. reflexivity.
      * intros [post H]. inversion H; subst. split; [apply Ascii.eqb_refl|].
        exists post. reflexivity.
Qed.

(** [Contains] is the substring relation. *)
Lemma Contains_spec (sub : string) : forall s,
  Contains s sub = true <-> exists pre post, s = pre +:+ sub +:+ post.
Proof.
  intros s. split.
  - induction s as [|c s IH].
    + simpl. rewrite orb_false_r. intros H. apply HasPrefix_spec in H as [post ->].
      exists "", post. reflexivity.
    + cbn [Contains]. intros H. apply orb_true_iff in H as [H|H].
      * apply HasPrefix_spec in H as [post ->]. exists "", post. reflexivity.
      * destruct (IH H) as (pre & post & ->). exists (String c pre), post. reflexivity.
  - intros (pre & post & ->). induction pre as [|c pre IH].
    + change (Contains (sub +:+ post) sub = true).
      assert (H : HasPrefix (sub +:+ post) sub = true)
        by (apply HasPrefix_spec; exists post; reflexivity).
      remember (sub +:+ post) as t. destruct t; cbn [Contains]; rewrite H; reflexivity.
    + change (String c pre +:+ sub +:+ post) with (String c (pre +:+ sub +:+ post)).
      cbn [Contains]. rewrite IH. apply orb_true_r.
Qed.

Lemma anyKeyword_spec lower keywords :
  anyKeyword lower keywords = true <->
  exists kw, kw ∈ keywords /\ Contains lower kw = true.
Proof.
  induction keywords as [|k ks IH]; simpl.
  - split; [discriminate|intros (kw & H & _); inversion H].
  - destruct (Contains lower k) eqn:Hk.
    + split; [|reflexivity]. intros _. exists k. split; [left|exact Hk].
    + rewrite IH. split.
      * intros (kw & Hin & Hc). exists kw. split; [right; exact Hin|exact Hc].
      * intros (kw & Hin & Hc). apply elem_of_cons in Hin as [->|Hin]; [congruence|].
        exists kw. split; assumption.
Qed.

Lemma omap_cons_eq {A B} (f : A -> option B) x l :
  omap f (x :: l) = match f x with Some y => y :: omap f l | None => omap f l end.
Proof. reflexivity. Qed.

Lemma escalationOf_eq E r fc :
  escalationOf E (r, fc) =
  if isFailed r && isLikelySandboxDenial E (ResultContent r)
  then Some (mkEscalation (ResultCallID r) (Name fc) (Arguments fc)
                          (ResultContent r) "command failed in sandbox")
  else None.
Proof. reflexivity. Qed.

(** The first loop of [handleOnFailureEscalation], from any index on. *)
Lemma findEscalations_spec E calls results : forall i escs failed escs' failed',
  findEscalations E calls i results escs failed = Some (escs', failed') ->
  escs' = escs ++ omap (escalationOf E) (zip results (drop i calls)) /\
  forall k, k ∈ failed' <->
            k ∈ failed \/
            exists j r, results !! j = Some r /\ k = (i + j)%nat /\
                        isFailed r = true /\
                        isLikelySandboxDenial E (ResultContent r) = true.
Proof.
  induction results as [|r results IH]; intros i escs failed escs' failed' H; simpl in H.
  - inversion H; subst. simpl. rewrite app_nil_r. split; [reflexivity|].
    intros k. split; [auto|]. intros [Hk|(j & r & Hl & _)]; [exact Hk|].
    rewrite lookup_nil in Hl. discriminate.
  - destruct (isFailed r) eqn:Hf.
    + destruct (calls !! i) as [fc|] eqn:Hfc; [|discriminate].
      assert (Hdrop : drop i calls = fc :: drop (S i) calls).
      { apply drop_S. exact Hfc. }
      rewrite Hdrop. cbn [zip_with]. rewrite omap_cons_eq, escalationOf_eq, Hf.
      destruct (isLikelySandboxDenial E (ResultContent r)) eqn:Hd; cbn [andb].
      * apply IH in H as [-> Hk]. split; [rewrite <- app_assoc; reflexivity|].
        intros k. rewrite Hk. split.
        -- intros [Hin|Hex].
           ++ apply elem_of_union in Hin as [Hin|Hin]; [|left; exact Hin].
              apply elem_of_singleton in Hin. subst k. right. exists 0%nat, r.
              repeat split; [lia|assumption..].
           ++ right. destruct Hex as (j & r' & Hl & -> & HP). exists (S j), r'.
              repeat split; [exact Hl|lia|apply HP..].
        -- intros [Hin|(j & r' & Hl & -> & HP)];
             [left; apply elem_of_union; right; exact Hin|].
           destruct j as [|j]; simpl in Hl.
           ++ left. rewrite Nat.add_0_r. apply elem_of_union. left.
              apply elem_of_singleton. reflexivity.
           ++ right. exists j, r'. repeat split; [exact Hl|lia|apply HP..].
      * apply IH in H as [-> Hk]. split; [reflexivity|].
        intros k. rewrite Hk. split.
        -- intros [Hin|Hex]; [left; exact Hin|].
           right. destruct Hex as (j & r' & Hl & -> & HP). exists (S j), r'.
           repeat split; [exact Hl|lia|apply HP..].
        -- intros [Hin|(j & r' & Hl & -> & HP)]; [left; exact Hin|].
           destruct j as [|j]; simpl in Hl.
           ++ inversion Hl; subst. destruct HP as [_ HP]. congruence.
           ++ right. exists j, r'. repeat split; [exact Hl|lia|apply HP..].
    + apply IH in H as [-> Hk]. split.
      * f_equal. destruct (drop i calls) as [|fc rest] eqn:Hdrop.
        -- rewrite (drop_ge calls (S i)); [destruct results; reflexivity|].
           apply (f_equal length) in Hdrop. rewrite length_drop in Hdrop. simpl in Hdrop. lia.
        -- assert (Hrest : drop (S i) calls = rest).
           { replace (S i) with (i + 1)%nat by lia.
             rewrite <- (drop_drop calls 1 i), Hdrop. reflexivity. }
           rewrite Hrest. cbn [zip_with]. rewrite omap_cons_eq, escalationOf_eq, Hf.
           reflexivity.
      * intros k. rewrite Hk. split.
        -- intros [Hin|Hex]; [left; exact Hin|].
           right. destruct Hex as (j & r' & Hl & -> & HP). exists (S j), r'.
           repeat split; [exact Hl|lia|apply HP..].
        -- intros [Hin|(j & r' & Hl & -> & HP)]; [left; exact Hin|].
           destruct j as [|j]; simpl in Hl.
           ++ inversion Hl; subst. destruct HP as [HP _]. congruence.
           ++ right. exists j, r'. repeat split; [exact Hl|lia|apply HP..].
Qed.

(** With a call for every result the loop does not panic. *)
Lemma findEscalations_total E calls results : forall i escs failed,
  (i + length results <= length calls)%nat ->
  is_Some (findEscalations E calls i results escs failed).
Proof.
  induction results as [|r results IH]; intros i escs failed Hlen; simpl in *; [eauto|].
  destruct (isFailed r); [|apply IH; lia].
  destruct (calls !! i) as [fc|] eqn:Hfc.
  - destruct (isLikelySandboxDenial E (ResultContent r)); apply IH; lia.
  - apply lookup_ge_None_1 in Hfc. lia.
Qed.

End EscalationFacts.

(** C7. [isLikelySandboxDenial] holds of an output exactly when the
    lowercased output contains one of the seven keywords; and in
    [handleOnFailureEscalation] a tool result enters escalation exactly
    when it failed (success is false) and the predicate holds of its
    content: those results, in order, make the pending escalation
    requests, and the escalation phase is entered when there is one. *)
Theorem sandbox_denial_and_escalation (E : Workflow.External) :
  (forall output,
     Workflow.isLikelySandboxDenial E output = true <->
     exists kw,
       kw ∈ ["operation not permitted"; "permission denied"; "read-only file system";
             "seccomp"; "sandbox"; "landlock"; "failed to write file"] /\
       exists pre post, Workflow.ToLower E output = pre +:+ kw +:+ post) /\
  (forall s calls results,
     (length results <= length calls)%nat ->
     is_Some (Workflow.beginEscalation E s calls results)) /\
  (forall s calls results escs failed s',
     Workflow.beginEscalation E s calls results = Some (escs, failed, s') ->
     (forall i r, results !! i = Some r ->
        (i ∈ failed <->
         Workflow.ResultSuccess r = Some false /\
         Workflow.isLikelySandboxDenial E (Workflow.ResultContent r) = true)) /\
     escs = omap (Workflow.escalationOf E) (zip results calls) /\
     (escs <> [] ->
        Workflow.SessionPhase s' = Workflow.PhaseEscalationPending /\
        Workflow.PendingEscalations s' = escs) /\
     (escs = [] -> s' = s)).
Proof.
  split; [|split].
  - intros output. unfold Workflow.isLikelySandboxDenial. rewrite anyKeyword_spec.
    split; intros (kw & Hin & Hc); exists kw; (split; [exact Hin|]);
      apply Contains_spec; exact Hc.
  - intros s calls results Hlen. unfold Workflow.beginEscalation.
    destruct (findEscalations_total E calls results 0 [] ∅ Hlen) as [[escs failed] ->].
    destruct (length escs =? 0)%nat; eauto.
  - intros s calls results escs failed s' H. unfold Workflow.beginEscalation in H.
    destruct (Workflow.findEscalations E calls 0 results [] ∅) as [[escs0 failed0]|] eqn:Hf;
      [|discriminate].
    apply findEscalations_spec in Hf as [Hescs Hfailed]. simpl in Hescs.
    assert (Hisfailed : forall r, Workflow.isFailed r = true <->
                                  Workflow.ResultSuccess r = Some false).
    { intros r. unfold Workflow.isFailed.
      destruct (Workflow.ResultSuccess r) as [[|]|]; split; congruence. }
    assert (Hres : escs = escs0 /\ failed = failed0 /\
                   s' = (if (length escs0 =? 0)%nat then s
                         else Workflow.mkSessionState Workflow.PhaseEscalationPending
                                escs0 false None (Workflow.Plan s))).
    { destruct (length escs0 =? 0)%nat; inversion H; auto. }
    destruct Hres as (-> & -> & ->). split; [|split; [exact Hescs|split]].
    + intros i r Hl. rewrite Hfailed, <- Hisfailed. split.
      * intros [Hin|(j & r' & Hl' & -> & HP)]; [inversion Hin|].
        simpl in Hl. rewrite Hl in Hl'. inversion Hl'; subst. exact HP.
      * intros HP. right. exists i, r. repeat split; [exact Hl|apply HP..].
    + intros Hne. destruct escs0; [congruence|]. simpl. split; reflexivity.
    + intros ->. reflexivity.
Qed.

(** The detection is case-insensitive and looks anywhere in the output. *)
Example sandbox_denial_samples :
  Workflow.isLikelySandboxDenial Workflow.sampleExternal
    "bash: /etc/hosts: Permission Denied" = true /\
  Workflow.isLikelySandboxDenial Workflow.sampleExternal
    "cat: notes.txt: No such file or directory" = false.
Proof. vm_compute. split; reflexivity. Qed.

(** ** The plan *)

Section PlanFacts.
Import Workflow.

Lemma isValidStatus_spec status :
  isValidStatus status = true <->
  status = PlanStepPending \/ status = PlanStepInProgress \/ status = PlanStepCompleted.
Proof.
  unfold isValidStatus. rewrite !orb_true_iff, !String.eqb_eq. tauto.
Qed.

Lemma validStep_dec (s : PlanArg) :
  validStep s <-> String.eqb (ArgStep s) "" = false /\ isValidStatus (ArgStatus s) = true.
Proof.
  unfold validStep. rewrite isValidStatus_spec, String.eqb_neq. reflexivity.
Qed.

Lemma countInProgress_cons s plan :
  countInProgress (s :: plan) =
  ((if String.eqb (ArgStatus s) PlanStepInProgress then 1 else 0) + countInProgress plan)%nat.
Proof.
  unfold countInProgress. destruct (String.eqb_spec (ArgStatus s) PlanStepInProgress) as [H|H].
  - rewrite filter_cons_True by exact H. reflexivity.
  - rewrite filter_cons_False by exact H. reflexivity.
Qed.

(** The loop over the decoded steps. *)
Lemma parseSteps_spec (plan : list PlanArg) : forall i cnt steps,
  0 <= cnt -> cnt + len plan <= int_max ->
  (Forall validStep plan /\
   parseSteps i plan cnt steps =
     inr (steps ++ (toPlanStep <$> plan), cnt + Z.of_nat (countInProgress plan))) \/
  (~ Forall validStep plan /\ exists e, parseSteps i plan cnt steps = inl e).
Proof.
  induction plan as [|s plan IH]; intros i cnt steps Hcnt Hmax.
  - left. split; [constructor|]. simpl. rewrite app_nil_r, Z.add_0_r. reflexivity.
  - assert (Hlen : len (s :: plan) = 1 + len plan) by (unfold len; simpl length; lia).
    rewrite Hlen in Hmax. pose proof (len_nonneg plan) as Hp0.
    cbn [parseSteps].
    destruct (String.eqb (ArgStep s) "") eqn:Hstep.
    { right. split; [|eauto]. intros H. inversion H as [|? ? Hv _]; subst.
      apply validStep_dec in Hv as [Hv _]. congruence. }
    destruct (isValidStatus (ArgStatus s)) eqn:Hst; cbn [negb].
    2:{ right. split; [|eauto]. intros H. inversion H as [|? ? Hv _]; subst.
        apply validStep_dec in Hv as [_ Hv]. congruence. }
    assert (Hvalid : validStep s) by (apply validStep_dec; split; assumption).
    set (cnt' := if String.eqb (ArgStatus s) PlanStepInProgress then add cnt 1 else cnt).
    assert (Hcnt' : cnt' = cnt + (if String.eqb (ArgStatus s) PlanStepInProgress then 1 else 0)).
    { unfold cnt'. destruct (String.eqb (ArgStatus s) PlanStepInProgress); [|lia].
      unfold add. apply wrap_small. int_bounds. lia. }
    destruct (IH (add i 1) cnt' (steps ++ [mkPlanStep (ArgStep s) (ArgStatus s)]))
      as [[Hall Heq]|[Hnot [e Heq]]].
    + rewrite Hcnt'. destruct (String.eqb (ArgStatus s) PlanStepInProgress); lia.
    + rewrite Hcnt'. destruct (String.eqb (ArgStatus s) PlanStepInProgress); lia.
    + left. split; [constructor; assumption|]. rewrite Heq, fmap_cons, <- app_assoc.
      f_equal. f_equal. rewrite Hcnt', countInProgress_cons.
      destruct (String.eqb (ArgStatus s) PlanStepInProgress); lia.
    + right. split; [|eauto]. intros H. inversion H; subst. contradiction.
Qed.

Lemma parseUpdatePlanArgs_spec E argsJSON :
  (forall args, unmarshalPlanArgs E argsJSON = Some args -> len (ArgPlan args) <= int_max) ->
  forall ps,
    parseUpdatePlanArgs E argsJSON = inr ps <->
    exists args,
      unmarshalPlanArgs E argsJSON = Some args /\ validPlan args /\
      ps = mkPlanState (ArgExplanation args) (toPlanStep <$> ArgPlan args).
Proof.
  intros Hfit ps. unfold parseUpdatePlanArgs, validPlan.
  destruct (unmarshalPlanArgs E argsJSON) as [args|] eqn:Hun.
  2:{ split; [discriminate|]. intros (args & H & _). discriminate. }
  specialize (Hfit args eq_refl).
  destruct (Nat.eqb_spec (length (ArgPlan args)) 0) as [Hz|Hnz].
  { split; [discriminate|]. intros (a & Ha & (Hne & _) & _). inversion Ha; subst.
    destruct (ArgPlan a); [congruence|discriminate]. }
  destruct (parseSteps_spec (ArgPlan args) 0 0 [] ltac:(lia) ltac:(lia))
    as [[Hall Heq]|[Hnot [e Heq]]].
  - rewrite Z.add_0_l, app_nil_l in Heq. rewrite Heq.
    destruct (Z.ltb_spec 1 (Z.of_nat (countInProgress (ArgPlan args)))) as [Hmany|Hfew].
    + split; [discriminate|]. intros (a & Ha & (_ & _ & Hc) & _). inversion Ha; subst. lia.
    + split.
      * intros H. inversion H; subst. exists args. repeat split; try assumption; try lia.
        intros Hnil. rewrite Hnil in Hnz. simpl in Hnz. congruence.
      * intros (a & Ha & _ & ->). inversion Ha; subst. reflexivity.
  - rewrite Heq. split; [discriminate|].
    intros (a & Ha & (_ & Hall & _) & _). inversion Ha; subst. contradiction.
Qed.

End PlanFacts.

(** C8. [parseUpdatePlanArgs] succeeds exactly when its argument decodes
    as JSON into the arguments struct with a non-empty plan array in which
    every step has a non-empty text and a status among pending,
    in_progress and completed, and at most one step is in_progress; the
    plan state it returns then has the decoded steps in their order. When
    it fails, [handleUpdatePlan] returns a function_call_output with
    success = false and leaves the session state, its plan included, as it
    was; when it succeeds, the plan becomes the parsed one. *)
Theorem update_plan_validation (E : Workflow.External) (argsJSON : string) :
  (forall args, Workflow.unmarshalPlanArgs E argsJSON = Some args ->
                len (Workflow.ArgPlan args) <= int_max) ->
  (forall ps,
     Workflow.parseUpdatePlanArgs E argsJSON = inr ps <->
     exists args,
       Workflow.unmarshalPlanArgs E argsJSON = Some args /\
       Workflow.validPlan args /\
       ps = Workflow.mkPlanState (Workflow.ArgExplanation args)
              (Workflow.toPlanStep <$> Workflow.ArgPlan args)) /\
  (forall s fc,
     Workflow.Arguments fc = argsJSON ->
     (forall ps, Workflow.parseUpdatePlanArgs E argsJSON <> inr ps) ->
     exists content,
       Workflow.handleUpdatePlan E s fc =
       (s, Workflow.mkItem Workflow.ItemTypeFunctionCallOutput (Workflow.CallID fc) "" ""
             (Some (Workflow.mkPayload content (Some false))))) /\
  (forall s fc ps,
     Workflow.Arguments fc = argsJSON ->
     Workflow.parseUpdatePlanArgs E argsJSON = inr ps ->
     Workflow.handleUpdatePlan E s fc =
     (Workflow.set_Plan s (Some ps),
      Workflow.mkItem Workflow.ItemTypeFunctionCallOutput (Workflow.CallID fc) "" ""
        (Some (Workflow.mkPayload "Plan updated." (Some true))))).
Proof.
  intros Hfit. split; [apply parseUpdatePlanArgs_spec; exact Hfit|]. split.
  - intros s fc Hargs Hfail. unfold Workflow.handleUpdatePlan. rewrite Hargs.
    destruct (Workflow.parseUpdatePlanArgs E argsJSON) as [err|ps] eqn:Hp.
    + eexists. reflexivity.
    + exfalso. exact (Hfail ps eq_refl).
  - intros s fc ps Hargs Hp. unfold Workflow.handleUpdatePlan. rewrite Hargs, Hp.
    reflexivity.
Qed.

Lemma update_plan_validation_witness :
  Workflow.parseUpdatePlanArgs Workflow.sampleExternal Workflow.planArguments
  = inr (Workflow.mkPlanState "" [Workflow.mkPlanStep "Run tests" "pending"]).
Proof.
  apply (proj1 (update_plan_validation Workflow.sampleExternal Workflow.planArguments
                  ltac:(intros args H; vm_compute in H; inversion H; subst; vm_compute;
                        intros Hc; discriminate Hc))).
  exists (Workflow.mkUpdatePlanArgs "" [Workflow.mkPlanArg "Run tests" "pending"]).
  split; [vm_compute; reflexivity|]. split; [|reflexivity].
  split; [discriminate|]. split.
  - constructor; [|constructor]. split; [discriminate|left; reflexivity].
  - vm_compute. lia.
Defined.

(** The faulty plans of the tests of [parseUpdatePlanArgs], once decoded:
    an empty plan, a step
    without text, an unknown status, two steps in progress. *)
Example update_plan_rejections :
  let decode plan := Workflow.mkExternal (fun _ => false) (fun _ => None)
                       Workflow.promptAll (fun _ => None)
                       (fun _ => Some (Workflow.mkUpdatePlanArgs "" plan))
                       (fun _ _ => []) (fun s => s) (fun _ => "error") in
  Workflow.parseUpdatePlanArgs (decode []) "{}" = inl Workflow.ErrEmptyPlan /\
  Workflow.parseUpdatePlanArgs (decode [Workflow.mkPlanArg "" "pending"]) "{}"
    = inl (Workflow.ErrEmptyStep 1) /\
  Workflow.parseUpdatePlanArgs (decode [Workflow.mkPlanArg "Do something" "running"]) "{}"
    = inl (Workflow.ErrInvalidStatus 1 "running") /\
  Workflow.parseUpdatePlanArgs
    (decode [Workflow.mkPlanArg "Step A" "in_progress";
             Workflow.mkPlanArg "Step B" "in_progress"]) "{}"
    = inl (Workflow.ErrTooManyInProgress 2).
Proof. vm_compute. repeat split. Qed.

(** ** Yield times and the exec response *)

Section HandlerFacts.
Import Handlers.





End HandlerFacts.



(** An empty poll with the default yield time waits 5000 ms; a write with a
    yield time of 100 ms waits 250 ms; exec_command caps 60000 at 30000. *)
Example yield_time_samples :
  Handlers.stdinYieldMs ∅ = Some 5000 /\
  Handlers.stdinYieldMs
    {[ "chars" := Handlers.AString "y"; "yield_time_ms" := Handlers.AFloat64 100 ]}
    = Some 250 /\
  Handlers.execYieldMs {[ "yield_time_ms" := Handlers.AFloat64 60000 ]} = Some 30000.
Proof. vm_compute. repeat split. Qed.

Section ExecResponseFacts.
Import Handlers.

Lemma itoa_nonempty n : itoa n <> "".
Proof.
  unfold itoa. destruct (Z.to_int n) as [d|d]; simpl.
  - destruct d; simpl; discriminate.
  - discriminate.
Qed.

Lemma formatExecResponse_running wall output wallTime sessionID :
  sessionID <> "" ->
  formatExecResponse wall output wallTime None sessionID =
  mkToolOutput (wallLine wall wallTime +:+ sessionLine sessionID +:+ outputLine +:+ output)
               (Some true).
Proof.
  intros Hne. apply String.eqb_neq in Hne. unfold formatExecResponse. rewrite Hne.
  cbn [negb]. fold (wallLine wall wallTime). fold (sessionLine sessionID). fold outputLine.
  f_equal. change ("" +:+ wallLine wall wallTime) with (wallLine wall wallTime).
  destruct (Nat.ltb_spec 0 (String.length output)) as [Hlen|Hlen].
  - rewrite !append_assoc. reflexivity.
  - destruct output; [|simpl in Hlen; lia]. rewrite !append_assoc, append_nil_r. reflexivity.
Qed.

Lemma formatExecResponse_exited wall output wallTime code :
  formatExecResponse wall output wallTime (Some code) "" =
  mkToolOutput (wallLine wall wallTime +:+ exitLine code +:+ outputLine +:+ output)
               (Some (code =? 0)).
Proof.
  unfold formatExecResponse. cbn [String.eqb negb].
  fold (wallLine wall wallTime). fold (exitLine code). fold outputLine.
  f_equal. change ("" +:+ wallLine wall wallTime) with (wallLine wall wallTime).
  destruct (Nat.ltb_spec 0 (String.length output)) as [Hlen|Hlen].
  - rewrite !append_assoc. reflexivity.
  - destruct output; [|simpl in Hlen; lia]. rewrite !append_assoc, append_nil_r. reflexivity.
Qed.

End ExecResponseFacts.

(** C10. [formatExecResponse] reports success = true exactly when the exit
    code is absent or zero. An [exec_command] or [write_stdin] whose
    process is still running when output collection ends answers with
    success = true and a content made of the wall-time line, a Session ID
    line, the output marker and the output, with no Exit code line; one
    whose process has exited (its exit code being known) answers with the
    wall-time line, an Exit code line, the output marker and the output,
    with no Session ID line, and succeeds exactly when the code is zero. *)
Theorem exec_response_success (wall : Z -> string) :
  (forall output wallTime exitCode sessionID,
     Handlers.Success (Handlers.formatExecResponse wall output wallTime exitCode sessionID)
       = Some true <->
     exitCode = None \/ exitCode = Some 0) /\
  (forall output wallTime exitCode sessionID,
     Handlers.Success (Handlers.formatExecResponse wall output wallTime exitCode sessionID)
       = Some false <->
     exists code, exitCode = Some code /\ code <> 0) /\
  (forall sorted store sess output wallTime n,
     Store.HasExited sess = false ->
     fst (Handlers.finishExecCommand wall sorted store sess output wallTime (Handlers.itoa n))
     = Handlers.mkToolOutput
         (Handlers.wallLine wall wallTime +:+ Handlers.sessionLine (Handlers.itoa n)
            +:+ Handlers.outputLine +:+ output)
         (Some true)) /\
  (forall store sess output wallTime n,
     Store.HasExited sess = false ->
     fst (Handlers.finishWriteStdin wall store sess output wallTime (Handlers.itoa n))
     = Handlers.mkToolOutput
         (Handlers.wallLine wall wallTime +:+ Handlers.sessionLine (Handlers.itoa n)
            +:+ Handlers.outputLine +:+ output)
         (Some true)) /\
  (forall sorted store sess output wallTime processID code,
     Store.HasExited sess = true -> Store.ExitCode sess = Some code ->
     fst (Handlers.finishExecCommand wall sorted store sess output wallTime processID)
     = Handlers.mkToolOutput
         (Handlers.wallLine wall wallTime +:+ Handlers.exitLine code
            +:+ Handlers.outputLine +:+ output)
         (Some (code =? 0))) /\
  (forall store sess output wallTime sessionID code,
     Store.HasExited sess = true -> Store.ExitCode sess = Some code ->
     fst (Handlers.finishWriteStdin wall store sess output wallTime sessionID)
     = Handlers.mkToolOutput
         (Handlers.wallLine wall wallTime +:+ Handlers.exitLine code
            +:+ Handlers.outputLine +:+ output)
         (Some (code =? 0))).
Proof.
  repeat split.
  - destruct exitCode as [code|]; simpl; intros H; [|left; reflexivity].
    right. inversion H as [Hc]. apply Z.eqb_eq in Hc. subst. reflexivity.
  - intros [->| ->]; reflexivity.
  - destruct exitCode as [code|]; simpl; intros H; [|discriminate].
    inversion H as [Hc]. apply Z.eqb_neq in Hc. exists code. split; [reflexivity|exact Hc].
  - intros (code & -> & Hc). simpl. apply Z.eqb_neq in Hc. rewrite Hc. reflexivity.
  - intros sorted store sess output wallTime n Hrun. unfold Handlers.finishExecCommand.
    rewrite Hrun. simpl fst. apply formatExecResponse_running, itoa_nonempty.
  - intros store sess output wallTime n Hrun. unfold Handlers.finishWriteStdin.
    rewrite Hrun. simpl fst. apply formatExecResponse_running, itoa_nonempty.
  - intros sorted store sess output wallTime processID code Hex Hcode.
    unfold Handlers.finishExecCommand. rewrite Hex, Hcode. simpl fst.
    apply formatExecResponse_exited.
  - intros store sess output wallTime sessionID code Hex Hcode.
    unfold Handlers.finishWriteStdin. rewrite Hex, Hcode. simpl fst.
    apply formatExecResponse_exited.
Qed.

(** A process still running after 1.5 s under session id 1234, and one
    that exited with code 3. *)
Example exec_response_samples :
  Handlers.finishWriteStdin Handlers.sampleWall Store.NewStore
    (Store.mkSession "1234" 0 false None) "hello" 1500000000 (Handlers.itoa 1234)
  = (Handlers.mkToolOutput
       ("--- Wall time: 1.000s ---" +:+ Handlers.newline +:+
        "--- Session ID: 1234 ---" +:+ Handlers.newline +:+
        "--- Output ---" +:+ Handlers.newline +:+ "hello")
       (Some true),
     Store.NewStore) /\
  fst (Handlers.finishExecCommand Handlers.sampleWall [] Store.NewStore
         (Store.mkSession "1234" 0 true (Some 3)) "hello" 1500000000 "1234")
  = Handlers.mkToolOutput
      ("--- Wall time: 1.000s ---" +:+ Handlers.newline +:+
       "--- Exit code: 3 ---" +:+ Handlers.newline +:+
       "--- Output ---" +:+ Handlers.newline +:+ "hello")
      (Some false).
Proof. vm_compute. split; reflexivity. Qed.

(** * Further properties of the code *)

(** ** The buffer: what is retained, and what [DrainChunks] returns *)

Section BufferMoreFacts.

(** The snapshot is a function of the capacity and of the bytes pushed
    since the last drain. *)
Lemma snapshot_view M since b :
  0 <= M <= int_max -> content_inv M since b ->
  Snapshot b = if len since <=? M then since
               else take (half_floor M) since ++ lastn (half_ceil M) since.
Proof.
  intros HM Hc. destruct (Z.leb_spec (len since) M) as [Hle|Hgt].
  - apply (snapshot_small M); assumption.
  - apply (snapshot_overflow M); assumption.
Qed.

Lemma omitted_view M since ever b :
  0 <= M <= int_max -> content_inv M since b -> count_inv since ever b ->
  OmittedBytes b = wrap (len since - Z.min M (len since)).
Proof.
  intros HM Hc Hn. destruct (retained_eq M since b HM Hc) as [_ Hsum].
  unfold OmittedBytes. rewrite (cn_omitted _ _ _ Hn). f_equal. lia.
Qed.

Lemma drop_nonempty {A} (n : nat) (l : list A) : (n < length l)%nat -> drop n l <> [].
Proof.
  intros H Heq. apply (f_equal length) in Heq. rewrite length_drop in Heq.
  simpl in Heq. lia.
Qed.

Lemma len_pos_nonempty {A} (l : list A) : 0 < len l -> l <> [].
Proof. intros H ->. unfold len in H. simpl in H. lia. Qed.

Lemma trimLoop_nonempty tl : forall e tb om,
  Forall (fun c : bytes => c <> []) tl ->
  Forall (fun c : bytes => c <> []) (trimLoop e tl tb om).1.1.
Proof.
  induction tl as [|front rest IH]; intros e tb om Hall; [exact Hall|].
  inversion Hall as [|? ? Hf Hrest]; subst. simpl.
  destruct (Z.ltb_spec 0 e) as [Hpos|Hnpos]; [|exact Hall].
  destruct (Z.leb_spec (len front) e) as [Hle|Hgt].
  - apply IH. exact Hrest.
  - simpl. constructor; [|exact Hrest].
    apply drop_nonempty. unfold len in Hgt. lia.
Qed.

Lemma pushToTail_nonempty c b b' :
  c <> [] -> chunk_ok c -> 0 <= tailBudget b ->
  Forall (fun c : bytes => c <> []) (tail b) ->
  pushToTail c b = Some b' ->
  head b' = head b /\ Forall (fun c : bytes => c <> []) (tail b').
Proof.
  intros Hc Hok Htb Hall. unfold pushToTail, chunk_ok in *.
  pose proof (len_nonneg c) as Hc0.
  destruct (Z.eqb_spec (tailBudget b) 0) as [Hz|Hnz].
  { intros H. inversion H; subst. split; [reflexivity|exact Hall]. }
  destruct (Z.leb_spec (tailBudget b) (len c)) as [Hbig|Hsmall].
  - assert (Hs : sub (len c) (tailBudget b) = len c - tailBudget b)
      by (unfold sub; apply wrap_small; int_bounds; lia).
    rewrite Hs, slice_from_ok by lia. intros H. inversion H; subst. simpl.
    split; [reflexivity|]. constructor; [|constructor].
    apply drop_nonempty. unfold len in *. lia.
  - intros H. inversion H; subst. unfold trimTailToBudget.
    cbn [set_tail maxBytes headBudget tailBudget head headBytes totalEver tail
         tailBytes omitted].
    match goal with |- context [trimLoop ?e ?tl ?tb ?om] =>
      pose proof (trimLoop_nonempty tl e tb om) as Ht;
      destruct (trimLoop e tl tb om) as [[t tb'] om'] end.
    simpl in *. split; [reflexivity|]. apply Ht.
    apply Forall_app. split; [exact Hall|]. constructor; [exact Hc|constructor].
Qed.

Lemma Push_nonempty M all c b b' :
  0 <= M <= int_max -> chunk_ok c -> content_inv M all b ->
  chunks_nonempty b -> Push c b = Some b' -> chunks_nonempty b'.
Proof.
  intros HM Hok [Hmax Hhb Htb _ _ _ _] [Hh Ht].
  pose proof (half_bounds M ltac:(lia)) as Hhalf.
  pose proof (len_nonneg c) as Hc0. unfold chunk_ok in Hok.
  unfold Push. destruct (Z.eqb_spec (len c) 0) as [Hz|Hnz].
  { intros H. inversion H; subst. split; assumption. }
  assert (Hne : c <> []) by (apply len_pos_nonempty; lia).
  unfold pushUnlocked.
  cbn [set_totalEver maxBytes headBudget tailBudget head headBytes totalEver tail
       tailBytes omitted].
  destruct (Z.eqb_spec (maxBytes b) 0) as [HM0|HM0].
  { intros H. inversion H; subst. split; assumption. }
  destruct (Z.ltb_spec (headBytes b) (headBudget b)) as [Hlt|Hge].
  - destruct (Z.leb_spec (len c) (sub (headBudget b) (headBytes b))) as [Hfit|Hsplit].
    + intros H. inversion H; subst. split; [|exact Ht]. simpl.
      apply Forall_app. split; [exact Hh|]. constructor; [exact Hne|constructor].
    + unfold slice_to, slice_from.
      destruct ((0 <=? sub (headBudget b) (headBytes b)) &&
                (sub (headBudget b) (headBytes b) <=? len c)) eqn:Hb; [|discriminate].
      apply andb_true_iff in Hb as [Hb1 Hb2]. apply Z.leb_le in Hb1, Hb2.
      set (r := Z.to_nat (sub (headBudget b) (headBytes b))) in *.
      assert (Hr : (r < length c)%nat) by (unfold r, len in *; lia).
      intros H. apply pushToTail_nonempty in H.
      * destruct H as [Hhd Htl]. split; [|exact Htl]. rewrite Hhd.
        destruct (Z.ltb_spec 0 (len (firstn r c))) as [Hpos|Hnpos]; [|exact Hh].
        simpl. apply Forall_app. split; [exact Hh|].
        constructor; [apply len_pos_nonempty; exact Hpos|constructor].
      * apply drop_nonempty. exact Hr.
      * unfold chunk_ok, len in *. rewrite length_skipn. lia.
      * destruct (0 <? len (firstn r c)); simpl; lia.
      * destruct (0 <? len (firstn r c)); simpl; exact Ht.
  - intros H. apply pushToTail_nonempty in H.
    + destruct H as [Hhd Htl]. split; [rewrite Hhd; exact Hh|exact Htl].
    + exact Hne.
    + exact Hok.
    + simpl. lia.
    + exact Ht.
Qed.

Lemma run_nonempty M ops : forall b since ever b',
  0 <= M <= int_max -> Forall op_ok ops ->
  content_inv M since b -> count_inv since ever b -> chunks_nonempty b ->
  run ops b = Some b' -> chunks_nonempty b'.
Proof.
  induction ops as [|o ops IH]; intros b since ever b' HM Hok Hc Hn Hne Hrun.
  - inversion Hrun; subst. exact Hne.
  - inversion Hok as [|? ? Ho Hok']; subst. destruct o as [c|]; simpl in Hrun.
    + destruct (Push_inv M since ever c b HM Ho Hc Hn) as (b1 & Hp & Hc' & Hn').
      rewrite Hp in Hrun.
      apply (IH b1 (since ++ c) (ever ++ c) b'); try assumption.
      apply (Push_nonempty M since c b b1); assumption.
    + destruct (Drain_inv M since ever b Hc Hn) as [Hc' Hn'].
      apply (IH (snd (DrainChunks b)) [] ever b'); try assumption.
      split; constructor.
Qed.

End BufferMoreFacts.

(** X1. A buffer of capacity [M] holds as much as fits: at every point of
    every sequence of [Push] and [DrainChunks], the retained byte count is
    the smaller of [M] and the number of bytes pushed since the last
    drain, so nothing is dropped before the buffer is full, and (while
    that number fits an [int]) the omitted count is exactly the excess
    over [M]. *)
Theorem buffer_retains_what_fits (M : Z) (ops : list op) :
  0 <= M <= int_max -> Forall op_ok ops ->
  exists b,
    run ops (NewHeadTailBuffer M) = Some b /\
    RetainedBytes b = Z.min M (len (since_drain ops)) /\
    (len (since_drain ops) <= int_max ->
     OmittedBytes b = Z.max 0 (len (since_drain ops) - M)).
Proof.
  intros HM Hok.
  destruct (New_inv M HM) as [Hc0 Hn0].
  destruct (run_inv M ops _ [] [] HM Hok Hc0 Hn0) as (b & Hrun & Hc & Hn).
  fold (since_drain ops) in Hc, Hn.
  exists b. split; [exact Hrun|].
  destruct (retained_eq M _ b HM Hc) as [Hret _]. split; [exact Hret|].
  intros Hfit. rewrite (omitted_view M _ _ b HM Hc Hn).
  pose proof (len_nonneg (since_drain ops)) as Hs0.
  rewrite wrap_small by (int_bounds; lia). lia.
Qed.

Lemma buffer_retains_what_fits_witness :
  exists b,
    run [OpPush abc; OpDrain; OpPush defgh; OpPush abc] (NewHeadTailBuffer 7) = Some b /\
    RetainedBytes b = Z.min 7 (len (since_drain [OpPush abc; OpDrain; OpPush defgh; OpPush abc])) /\
    (len (since_drain [OpPush abc; OpDrain; OpPush defgh; OpPush abc]) <= int_max ->
     OmittedBytes b
       = Z.max 0 (len (since_drain [OpPush abc; OpDrain; OpPush defgh; OpPush abc]) - 7)).
Proof.
  apply (buffer_retains_what_fits 7 [OpPush abc; OpDrain; OpPush defgh; OpPush abc]).
  - vm_compute. split; intros H; discriminate H.
  - repeat constructor; vm_compute; intros H; discriminate H.
Defined.

(** X2. What a buffer shows depends on the bytes pushed since the last
    drain, not on how they were cut into chunks nor on what was pushed
    before that drain: two sequences of operations with the same bytes
    since their last drain leave buffers with the same snapshot, retained
    count and omitted count. *)
Theorem buffer_independent_of_chunking (M : Z) (ops1 ops2 : list op) :
  0 <= M <= int_max -> Forall op_ok ops1 -> Forall op_ok ops2 ->
  since_drain ops1 = since_drain ops2 ->
  exists b1 b2,
    run ops1 (NewHeadTailBuffer M) = Some b1 /\
    run ops2 (NewHeadTailBuffer M) = Some b2 /\
    Snapshot b1 = Snapshot b2 /\
    RetainedBytes b1 = RetainedBytes b2 /\
    OmittedBytes b1 = OmittedBytes b2.
Proof.
  intros HM Hok1 Hok2 Hsame.
  destruct (New_inv M HM) as [Hc0 Hn0].
  destruct (run_inv M ops1 _ [] [] HM Hok1 Hc0 Hn0) as (b1 & Hrun1 & Hc1 & Hn1).
  destruct (run_inv M ops2 _ [] [] HM Hok2 Hc0 Hn0) as (b2 & Hrun2 & Hc2 & Hn2).
  fold (since_drain ops1) in Hc1, Hn1. fold (since_drain ops2) in Hc2, Hn2.
  rewrite <- Hsame in Hc2, Hn2.
  exists b1, b2. split; [exact Hrun1|]. split; [exact Hrun2|].
  split; [|split].
  - rewrite (snapshot_view M _ b1 HM Hc1), (snapshot_view M _ b2 HM Hc2). reflexivity.
  - destruct (retained_eq M _ b1 HM Hc1) as [-> _].
    destruct (retained_eq M _ b2 HM Hc2) as [-> _]. reflexivity.
  - rewrite (omitted_view M _ _ b1 HM Hc1 Hn1), (omitted_view M _ _ b2 HM Hc2 Hn2).
    reflexivity.
Qed.

Lemma buffer_independent_of_chunking_witness :
  exists b1 b2,
    run [OpPush abc; OpPush defgh; OpPush abc] (NewHeadTailBuffer 7) = Some b1 /\
    run [OpPush defgh; OpDrain; OpPush (abc ++ defgh ++ abc)] (NewHeadTailBuffer 7)
      = Some b2 /\
    Snapshot b1 = Snapshot b2 /\
    RetainedBytes b1 = RetainedBytes b2 /\
    OmittedBytes b1 = OmittedBytes b2.
Proof.
  apply (buffer_independent_of_chunking 7 [OpPush abc; OpPush defgh; OpPush abc]
           [OpPush defgh; OpDrain; OpPush (abc ++ defgh ++ abc)]).
  - vm_compute. split; intros H; discriminate H.
  - repeat constructor; vm_compute; intros H; discriminate H.
  - repeat constructor; vm_compute; intros H; discriminate H.
  - vm_compute. reflexivity.
Defined.

(** X3. [DrainChunks] hands out exactly what [Snapshot] showed: the
    chunks it returns concatenate to the snapshot taken just before, none
    of them is empty, and afterwards the buffer is empty (empty snapshot,
    nothing retained, nothing omitted, a second drain returns no chunk)
    while [TotalWritten] keeps its value. *)
Theorem drain_returns_the_snapshot (M : Z) (ops : list op) :
  0 <= M <= int_max -> Forall op_ok ops ->
  exists b,
    run ops (NewHeadTailBuffer M) = Some b /\
    concat (fst (DrainChunks b)) = Snapshot b /\
    Forall (fun c : bytes => c <> []) (fst (DrainChunks b)) /\
    Snapshot (snd (DrainChunks b)) = [] /\
    RetainedBytes (snd (DrainChunks b)) = 0 /\
    OmittedBytes (snd (DrainChunks b)) = 0 /\
    fst (DrainChunks (snd (DrainChunks b))) = [] /\
    TotalWritten (snd (DrainChunks b)) = TotalWritten b.
Proof.
  intros HM Hok.
  destruct (New_inv M HM) as [Hc0 Hn0].
  destruct (run_inv M ops _ [] [] HM Hok Hc0 Hn0) as (b & Hrun & Hc & Hn).
  assert (Hne : chunks_nonempty b).
  { apply (run_nonempty M ops (NewHeadTailBuffer M) [] [] b); try assumption.
    split; constructor. }
  exists b. split; [exact Hrun|].
  destruct (retained_eq M _ b HM Hc) as [Hret Hsum].
  split; [|split; [|repeat split]].
  - simpl. rewrite concat_app. unfold Snapshot, toBytesUnlocked.
    fold (RetainedBytes b). rewrite Hret.
    destruct (Z.eqb_spec (Z.min M (len (since_drain_from [] ops))) 0) as [Hz|Hnz];
      [|reflexivity].
    pose proof (ci_headBytes _ _ _ Hc) as HhB. pose proof (ci_tailBytes _ _ _ Hc) as HtB.
    pose proof (len_nonneg (concat (head b))) as H1.
    pose proof (len_nonneg (concat (tail b))) as H2.
    assert (Hh : concat (head b) = []).
    { destruct (concat (head b)); [reflexivity|]. unfold len in *. simpl in *. lia. }
    assert (Ht : concat (tail b) = []).
    { destruct (concat (tail b)); [reflexivity|]. unfold len in *. simpl in *. lia. }
    rewrite Hh, Ht. reflexivity.
  - simpl. apply Forall_app. exact Hne.
Qed.

Lemma drain_returns_the_snapshot_witness :
  exists b,
    run [OpPush abc; OpPush defgh; OpPush abc] (NewHeadTailBuffer 7) = Some b /\
    concat (fst (DrainChunks b)) = Snapshot b /\
    Forall (fun c : bytes => c <> []) (fst (DrainChunks b)) /\
    Snapshot (snd (DrainChunks b)) = [] /\
    RetainedBytes (snd (DrainChunks b)) = 0 /\
    OmittedBytes (snd (DrainChunks b)) = 0 /\
    fst (DrainChunks (snd (DrainChunks b))) = [] /\
    TotalWritten (snd (DrainChunks b)) = TotalWritten b.
Proof.
  apply (drain_returns_the_snapshot 7 [OpPush abc; OpPush defgh; OpPush abc]).
  - vm_compute. split; intros H; discriminate H.
  - repeat constructor; vm_compute; intros H; discriminate H.
Defined.

(** ** The store: allocation of ids, and what [Store] keeps *)

Section AllocationFacts.
Import Store Allocation.

(** [fmt.Sprintf("%d", n)] is injective. *)
Lemma itoa_inj a b : Handlers.itoa a = Handlers.itoa b -> a = b.
Proof.
  unfold Handlers.itoa. intros H.
  assert (Hnn : forall n, Z.to_int n <> Decimal.Pos Decimal.Nil /\
                          Z.to_int n <> Decimal.Neg Decimal.Nil).
  { intros [|p|p]; simpl; split; try discriminate; intros Heq; inversion Heq as [Hp];
      exact (DecimalPos.Unsigned.to_uint_nonnil p Hp). }
  apply (f_equal NilZero.int_of_string) in H.
  rewrite !NilZero.isi in H by apply Hnn.
  inversion H as [Hi]. apply (f_equal Z.of_int) in Hi.
  rewrite !DecimalZ.of_to in Hi. exact Hi.
Qed.

Lemma AllocateID_spec draws : forall s id s',
  AllocateID draws s = Some (id, s') ->
  exists r, (r ∈ draws) /\ id = Handlers.itoa (add MinProcessID r) /\
            (id ∉ reserved s) /\ s' = mkStore (sessions s) ({[id]} ∪ reserved s).
Proof.
  induction draws as [|r rest IH]; intros s id s' H; simpl in H; [discriminate|].
  destruct (decide (Handlers.itoa (add MinProcessID r) ∈ reserved s)) as [Hin|Hnin].
  - destruct (IH s id s' H) as (r' & Hr & Hrest). exists r'. split; [right; exact Hr|exact Hrest].
  - inversion H; subst. exists r. split; [left|]. repeat split. exact Hnin.
Qed.

Lemma AllocateID_total draws : forall s,
  is_Some (AllocateID draws s) <->
  exists r, r ∈ draws /\ Handlers.itoa (add MinProcessID r) ∉ reserved s.
Proof.
  induction draws as [|r rest IH]; intros s; simpl.
  - split; [intros [x Hx]; discriminate|intros (r & Hr & _); inversion Hr].
  - destruct (decide (Handlers.itoa (add MinProcessID r) ∈ reserved s)) as [Hin|Hnin].
    + rewrite IH. split.
      * intros (r' & Hr & Hn). exists r'. split; [right; exact Hr|exact Hn].
      * intros (r' & Hr & Hn). apply elem_of_cons in Hr as [->|Hr]; [contradiction|].
        exists r'. split; assumption.
    + split; [|eauto]. intros _. exists r. split; [left|exact Hnin].
Qed.

Lemma draw_in_range r :
  draw_ok r -> add MinProcessID r = MinProcessID + r /\
               MinProcessID <= MinProcessID + r < MaxProcessID.
Proof.
  unfold draw_ok, MinProcessID, MaxProcessID. intros Hr. split; [|lia].
  unfold add. apply wrap_small. int_bounds. lia.
Qed.

(** The calls of the handlers keep every stored id reserved. *)
Lemma call_step_reserved s c s' :
  call_step s c s' -> stored_reserved s -> stored_reserved s'.
Proof.
  intros Hstep Hinv. unfold stored_reserved in *.
  destruct Hstep as [s o s' Hstep|s draws id s' Halloc|s pid Hnone].
  - destruct Hstep as [s sess sorted Hout|s pid|s pid|s pid lu ex].
    + assert (Hins : forall p, is_Some (sessions (insertSession sess s) !! p) ->
                               p ∈ reserved (insertSession sess s)).
      { intros p Hp. simpl in *. apply elem_of_union.
        destruct (decide (ProcessID sess = p)) as [->|Hne].
        - left. apply elem_of_singleton. reflexivity.
        - right. apply Hinv. rewrite lookup_insert_ne in Hp by exact Hne. exact Hp. }
      unfold StoreWith.
      destruct (decide (MaxSessions < size (sessions (insertSession sess s)))%nat);
        [|exact Hins].
      unfold pruneOneLocked.
      destruct (String.eqb (pickVictim sorted) ""); [exact Hins|].
      intros p Hp. cbn [sessions reserved] in *.
      destruct (decide (pickVictim sorted = p)) as [Heq|Hne].
      * subst p. rewrite lookup_delete_eq in Hp. destruct Hp as [x Hx]. discriminate.
      * rewrite lookup_delete_ne in Hp by exact Hne.
        apply elem_of_difference. split; [apply Hins; exact Hp|].
        intros Hs. apply elem_of_singleton in Hs. congruence.
    + exact Hinv.
    + intros p Hp. simpl in *.
      destruct (decide (pid = p)) as [Heq|Hne].
      * subst p. rewrite lookup_delete_eq in Hp. destruct Hp as [x Hx]. discriminate.
      * rewrite lookup_delete_ne in Hp by exact Hne.
        apply elem_of_difference. split; [apply Hinv; exact Hp|].
        intros Hs. apply elem_of_singleton in Hs. congruence.
    + intros p Hp. simpl in *. apply Hinv.
      rewrite lookup_alter in Hp. case_decide; [subst|exact Hp].
      destruct (sessions s !! p); [eauto|]. destruct Hp as [x Hx]. discriminate.
  - apply AllocateID_spec in Halloc as (r & _ & _ & _ & ->).
    intros p Hp. simpl in *. apply elem_of_union. right. apply Hinv. exact Hp.
  - intros p Hp. simpl in *. apply elem_of_difference. split; [apply Hinv; exact Hp|].
    intros Hs. apply elem_of_singleton in Hs. subst p.
    rewrite Hnone in Hp. destruct Hp as [x Hx]. discriminate.
Qed.

Lemma call_steps_reserved s cs s' :
  call_steps s cs s' -> stored_reserved s -> stored_reserved s'.
Proof.
  induction 1 as [|s c s1 cs s2 Hstep Hsteps IH]; intros Hinv; [exact Hinv|].
  apply IH. eapply call_step_reserved; eassumption.
Qed.

End AllocationFacts.

(** X4. [AllocateID] returns an id that was not reserved and reserves it,
    leaving the sessions alone; the id is the decimal text of a number in
    [1000, 100000), hence not the empty string; it returns as soon as a
    draw gives an id that is not reserved (and keeps looping while every
    draw gives a reserved one); and the next allocation returns a
    different id. *)
Theorem allocate_id_is_fresh (draws : list Z) (s : Store.Store) :
  Forall Allocation.draw_ok draws ->
  (is_Some (Allocation.AllocateID draws s) <->
   exists r, r ∈ draws /\ Handlers.itoa (Allocation.MinProcessID + r) ∉ Store.reserved s) /\
  forall id s',
    Allocation.AllocateID draws s = Some (id, s') ->
    (id ∉ Store.reserved s) /\ (id ∈ Store.reserved s') /\
    Store.reserved s' = {[id]} ∪ Store.reserved s /\
    Store.sessions s' = Store.sessions s /\
    id <> EmptyString /\
    (exists n, Allocation.MinProcessID <= n < Allocation.MaxProcessID /\
               id = Handlers.itoa n) /\
    forall draws2 id2 s2,
      Allocation.AllocateID draws2 s' = Some (id2, s2) -> id2 <> id.
Proof.
  intros Hdraws. split.
  - rewrite AllocateID_total. split; intros (r & Hr & Hn); exists r; (split; [exact Hr|]);
      destruct (draw_in_range r) as [Heq _];
      try (eapply Forall_forall in Hdraws; [exact Hdraws|exact Hr]);
      [rewrite <- Heq|rewrite Heq]; exact Hn.
  - intros id s' H. apply AllocateID_spec in H as (r & Hr & Hid & Hfresh & ->).
    destruct (draw_in_range r) as [Heq Hrange].
    { eapply Forall_forall in Hdraws; [exact Hdraws|exact Hr]. }
    simpl. split; [exact Hfresh|]. split.
    { apply elem_of_union. left. apply elem_of_singleton. reflexivity. }
    split; [reflexivity|]. split; [reflexivity|]. split.
    { rewrite Hid. apply itoa_nonempty. }
    split.
    { exists (Allocation.MinProcessID + r). split; [exact Hrange|]. rewrite Hid, Heq.
      reflexivity. }
    intros draws2 id2 s2 H2. apply AllocateID_spec in H2 as (r2 & _ & _ & Hfresh2 & _).
    intros ->. apply Hfresh2. simpl. apply elem_of_union. left.
    apply elem_of_singleton. reflexivity.
Qed.

Lemma allocate_id_is_fresh_witness :
  Forall Allocation.draw_ok [41; 41; 7] /\
  Allocation.AllocateID [41; 41; 7]
    (Store.mkStore ∅ {[ "1041"%string ]}) = Some ("1007"%string, Store.mkStore ∅ {[ "1007"%string; "1041"%string ]}) /\
  "1007"%string ∉ Store.reserved (Store.mkStore ∅ {[ "1041"%string ]}).
Proof.
  assert (Hd : Forall Allocation.draw_ok [41; 41; 7]).
  { repeat constructor; vm_compute; intros H; discriminate H. }
  assert (Ha : Allocation.AllocateID [41; 41; 7] (Store.mkStore ∅ {[ "1041"%string ]})
               = Some ("1007"%string, Store.mkStore ∅ {[ "1007"%string; "1041"%string ]})).
  { vm_compute. reflexivity. }
  split; [exact Hd|]. split; [exact Ha|].
  exact (proj1 (proj2 (allocate_id_is_fresh [41; 41; 7] _ Hd) _ _ Ha)).
Defined.

(** X5. Along the calls the exec handlers make on a store that starts
    empty ([Store], [Get], [Remove], changes to the sessions, [AllocateID],
    and [ReleaseID] of an id without a stored session), every id under
    which a session is stored is reserved; so [AllocateID] never returns
    the id of a stored session. *)
Theorem allocated_id_has_no_session (cs : list Allocation.call) (s : Store.Store) :
  Allocation.call_steps Store.NewStore cs s ->
  (forall processID,
     is_Some (Store.Get processID s) -> processID ∈ Store.reserved s) /\
  (forall draws id s',
     Allocation.AllocateID draws s = Some (id, s') ->
     Store.Get id s = None /\ Store.Get id s' = None).
Proof.
  intros Hsteps.
  assert (Hinv : Allocation.stored_reserved s).
  { apply (call_steps_reserved _ _ _ Hsteps). intros p [x Hx]. simpl in Hx.
    rewrite lookup_empty in Hx. discriminate. }
  split; [exact Hinv|].
  intros draws id s' H. apply AllocateID_spec in H as (r & _ & _ & Hfresh & ->).
  assert (Hnone : Store.sessions s !! id = None).
  { destruct (Store.sessions s !! id) eqn:Hl; [|reflexivity].
    exfalso. apply Hfresh, Hinv. rewrite Hl. eauto. }
  split; exact Hnone.
Qed.

Lemma allocated_id_has_no_session_witness :
  let sess := Store.mkSession "1005" 1 false None in
  let s := Store.StoreSession sess (Store.mkStore ∅ {[ "1005"%string ]}) in
  Allocation.call_steps Store.NewStore
    [Allocation.CallAllocateID [5]; Allocation.CallOp (Store.OpStore sess)] s /\
  Allocation.AllocateID [5; 6] s
    = Some ("1006"%string, Store.mkStore (Store.sessions s) ({[ "1006"%string ]} ∪ Store.reserved s)) /\
  Store.Get "1006" s = None.
Proof.
  intros sess s.
  assert (Hsteps : Allocation.call_steps Store.NewStore
            [Allocation.CallAllocateID [5]; Allocation.CallOp (Store.OpStore sess)] s).
  { eapply Allocation.call_steps_cons.
    - eapply Allocation.call_step_allocate. vm_compute. reflexivity.
    - eapply Allocation.call_steps_cons; [|apply Allocation.call_steps_nil].
      apply Allocation.call_step_op. unfold s, Store.StoreSession.
      apply Store.step_Store. apply sortCandidates_outcome. }
  assert (Ha : Allocation.AllocateID [5; 6] s
               = Some ("1006"%string,
                       Store.mkStore (Store.sessions s) ({[ "1006"%string ]} ∪ Store.reserved s))).
  { vm_compute. reflexivity. }
  split; [exact Hsteps|]. split; [exact Ha|].
  exact (proj1 (proj2 (allocated_id_has_no_session _ s Hsteps) _ _ _ Ha)).
Defined.

(** [ReleaseID] does not look at the sessions: released while its session
    is stored, an id can be allocated again, for a second session. *)
Example released_id_of_a_stored_session_is_reused :
  let sess := Store.mkSession "1005" 1 false None in
  let s := Store.ReleaseID "1005" (Store.StoreSession sess Store.NewStore) in
  Store.Get "1005" s = Some sess /\
  fst <$> Allocation.AllocateID [5] s = Some "1005"%string.
Proof. vm_compute. split; reflexivity. Qed.

Section RecencyFacts.
Import Store Allocation.

Lemma scanExited_in (l : list candidate) :
  scanExited l <> EmptyString -> exists c, c ∈ l /\ id c = scanExited l.
Proof.
  induction l as [|c l IH]; simpl; [congruence|].
  destruct (exited c).
  - intros _. exists c. split; [left|reflexivity].
  - intros H. destruct (IH H) as (c' & Hin & Heq). exists c'. split; [right; exact Hin|exact Heq].
Qed.

(** A victim is one of the unprotected candidates. *)
Lemma pickVictim_in (sorted : list candidate) :
  pickVictim sorted <> EmptyString ->
  exists c, c ∈ unprotected sorted /\ id c = pickVictim sorted.
Proof.
  unfold pickVictim. set (u := unprotected sorted).
  destruct (String.eqb (scanExited (reverse u)) "" && (0 <? length u)%nat).
  - unfold lastId. destruct (last u) as [c|] eqn:Hl; [|congruence].
    intros _. exists c. split; [apply last_Some_elem_of; exact Hl|reflexivity].
  - intros H. destruct (scanExited_in _ H) as (c & Hin & Heq).
    exists c. split; [apply elem_of_reverse; exact Hin|exact Heq].
Qed.

Lemma filter_all {A} (P : A -> Prop) `{!forall x, base.Decision (P x)} (l : list A) :
  Forall P l -> filter P l = l.
Proof.
  induction 1 as [|x l Hx Hl IH]; [reflexivity|].
  rewrite filter_cons_True by exact Hx. f_equal. exact IH.
Qed.

Lemma filter_none {A} (P : A -> Prop) `{!forall x, base.Decision (P x)} (l : list A) :
  Forall (fun x => ~ P x) l -> filter P l = [].
Proof.
  induction 1 as [|x l Hx Hl IH]; [reflexivity|].
  rewrite filter_cons_False by exact Hx. exact IH.
Qed.

Lemma candidate_of_session (s : Store) c :
  c ∈ candidates_of s ->
  exists x, sessions s !! id c = Some x /\ lastUsed c = LastUsed x.
Proof.
  unfold candidates_of. intros Hc. apply list_elem_of_fmap in Hc as ([k v] & -> & Hkv).
  apply elem_of_map_to_list in Hkv. simpl. eauto.
Qed.

(** A session with fewer than [ProtectedCount] others at least as recent
    is not the victim. *)
Lemma recent_not_victim (s : Store) (sorted : list candidate) pid x :
  sort_outcome (candidates_of s) sorted ->
  (ProtectedCount < length sorted)%nat ->
  sessions s !! pid = Some x ->
  (length (at_least_as_recent pid (LastUsed x) s) < ProtectedCount)%nat ->
  pickVictim sorted <> EmptyString ->
  pickVictim sorted <> pid.
Proof.
  intros Hout Hlen Hx Hfew Hne Hv.
  destruct (sort_outcome_facts _ _ Hout) as (_ & Hnd & _).
  destruct Hout as [Hperm Hsorted].
  destruct (pickVictim_in sorted Hne) as (c & Hin & Hid).
  unfold unprotected in Hin.
  destruct (decide (ProtectedCount < length sorted)%nat) as [_|]; [|lia].
  apply list_elem_of_lookup in Hin as [i Hi]. rewrite lookup_drop in Hi.
  assert (Hc : lastUsed c = LastUsed x).
  { destruct (candidate_of_session s c) as (y & Hy & Hlu).
    - rewrite <- Hperm. eapply list_elem_of_lookup_2. exact Hi.
    - rewrite Hid, Hv, Hx in Hy. inversion Hy; subst. exact Hlu. }
  set (P := fun c' : candidate => id c' <> pid /\ LastUsed x <= lastUsed c').
  assert (Htop : Forall P (take ProtectedCount sorted)).
  { apply Forall_lookup_2. intros j cj Hj.
    apply lookup_take_Some in Hj as [Hj Hlt]. split.
    - intros Heq.
      assert (j = (ProtectedCount + i)%nat); [|lia].
      apply (NoDup_lookup (id <$> sorted) j (ProtectedCount + i)%nat pid Hnd).
      + rewrite list_lookup_fmap, Hj. simpl. congruence.
      + rewrite list_lookup_fmap, Hi. simpl. congruence.
    - rewrite <- Hc.
      apply (sorted_lookup sorted Hsorted j (ProtectedCount + i)%nat cj c); [lia|assumption..]. }
  assert (Hcount : (ProtectedCount <= length (filter P sorted))%nat).
  { rewrite <- (take_drop ProtectedCount sorted) at 1.
    rewrite filter_app, length_app, (filter_all P _ Htop), length_take. lia. }
  assert (Hsame : length (filter P sorted) = length (at_least_as_recent pid (LastUsed x) s)).
  { unfold at_least_as_recent. apply Permutation_length.
    apply filter_Permutation. exact Hperm. }
  lia.
Qed.

(** [Store] keeps the session it stores when no eviction is due or the
    session is among the most recently used. *)
Lemma StoreWith_keeps_session (s : Store) (sess : ExecSession) (sorted : list candidate) :
  sort_outcome (candidates_of (insertSession sess s)) sorted ->
  (size (sessions (insertSession sess s)) <= MaxSessions)%nat \/
  (length (at_least_as_recent (ProcessID sess) (LastUsed sess) (insertSession sess s))
   < ProtectedCount)%nat ->
  sessions (StoreWith sorted sess s) !! ProcessID sess = Some sess /\
  ProcessID sess ∈ reserved (StoreWith sorted sess s).
Proof.
  intros Hout Hcase.
  assert (Hins : sessions (insertSession sess s) !! ProcessID sess = Some sess)
    by (simpl; apply lookup_insert_eq).
  assert (Hres : ProcessID sess ∈ reserved (insertSession sess s)).
  { simpl. apply elem_of_union. left. apply elem_of_singleton. reflexivity. }
  unfold StoreWith.
  destruct (decide (MaxSessions < size (sessions (insertSession sess s)))%nat)
    as [Hbig|Hsmall]; [|split; assumption].
  destruct Hcase as [Hle|Hfew]; [lia|].
  unfold pruneOneLocked.
  destruct (String.eqb_spec (pickVictim sorted) "") as [Hz|Hnz]; [split; assumption|].
  assert (Hlen : (ProtectedCount < length sorted)%nat).
  { destruct (sort_outcome_facts _ _ Hout) as (Hl & _). rewrite Hl.
    unfold MaxSessions, ProtectedCount in *. lia. }
  pose proof (recent_not_victim _ sorted _ sess Hout Hlen Hins Hfew Hnz) as Hother.
  cbn [sessions reserved]. split.
  - rewrite lookup_delete_ne by exact Hother. exact Hins.
  - apply elem_of_difference. split; [exact Hres|].
    intros Hs. apply elem_of_singleton in Hs. congruence.
Qed.

End RecencyFacts.

(** X6. [Store] then [Get]: right after [Store(sess)], whatever order the
    map iteration and the sort produce, [Get] under the session's id
    returns [sess] and the id is reserved, provided no eviction is due
    (at most [MaxSessions] sessions with the new one) or fewer than
    [ProtectedCount] other sessions were used at least as recently as
    [sess]. *)
Theorem stored_session_can_be_fetched (s : Store.Store) (sess : Store.ExecSession)
    (sorted : list Store.candidate) :
  Store.sort_outcome (Store.candidates_of (Store.insertSession sess s)) sorted ->
  (size (Store.sessions (Store.insertSession sess s)) <= Store.MaxSessions)%nat \/
  (length (Allocation.at_least_as_recent (Store.ProcessID sess) (Store.LastUsed sess)
             (Store.insertSession sess s)) < Store.ProtectedCount)%nat ->
  Store.Get (Store.ProcessID sess) (Store.StoreWith sorted sess s) = Some sess /\
  Store.ProcessID sess ∈ Store.reserved (Store.StoreWith sorted sess s).
Proof.
  intros Hout Hcase. unfold Store.Get.
  apply StoreWith_keeps_session; assumption.
Qed.

Lemma stored_session_can_be_fetched_witness :
  let s := Store.run (Store.sampleOps 64 10) Store.NewStore in
  let sess := Store.sample 64 false in
  let sorted := Store.sortCandidates (Store.candidates_of (Store.insertSession sess s)) in
  (length (Allocation.at_least_as_recent (Store.ProcessID sess) (Store.LastUsed sess)
             (Store.insertSession sess s)) < Store.ProtectedCount)%nat /\
  (Store.MaxSessions < size (Store.sessions (Store.insertSession sess s)))%nat /\
  Store.Get (Store.ProcessID sess) (Store.StoreWith sorted sess s) = Some sess.
Proof.
  intros s sess sorted.
  assert (Hfew : (length (Allocation.at_least_as_recent (Store.ProcessID sess)
                            (Store.LastUsed sess) (Store.insertSession sess s))
                  < Store.ProtectedCount)%nat).
  { vm_compute. lia. }
  split; [exact Hfew|]. split; [vm_compute; lia|].
  exact (proj1 (stored_session_can_be_fetched s sess sorted
                  (sortCandidates_outcome _) (or_intror Hfew))).
Defined.

(** ** The approval gate: order, partition and the origin of a refusal *)

Section GateFacts.
Import Workflow ShellCalls.

Lemma omap_sublist {A B C} (f : A -> option B) (g : B -> C) (h : A -> C) (l : list A) :
  (forall x y, f x = Some y -> g y = h x) ->
  (g <$> omap f l) `sublist_of` (h <$> l).
Proof.
  intros Hfg. induction l as [|x l IH]; [constructor|].
  rewrite omap_cons_eq, fmap_cons. destruct (f x) as [y|] eqn:Hf.
  - rewrite fmap_cons, (Hfg x y Hf). apply sublist_skip. exact IH.
  - apply sublist_cons. exact IH.
Qed.

Lemma omap_disjoint_length {A B C} (f : A -> option B) (f' : A -> option C) (l : list A) :
  (forall x, f x = None \/ f' x = None) ->
  (length (omap f l) + length (omap f' l) <= length l)%nat.
Proof.
  intros Hd. induction l as [|x l IH]; [simpl; lia|].
  rewrite !omap_cons_eq. destruct (Hd x) as [Hx|Hx]; rewrite Hx;
    [destruct (f' x)|destruct (f x)]; simpl; lia.
Qed.

Lemma pendingOf_Some E mgr mode fc p :
  pendingOf E mgr mode fc = Some p ->
  exists reason,
    evaluateToolApproval E (Name fc) (Arguments fc) mgr mode = (ApprovalNeeded, reason) /\
    p = mkPending (CallID fc) (Name fc) (Arguments fc) reason.
Proof.
  unfold pendingOf.
  destruct (evaluateToolApproval E (Name fc) (Arguments fc) mgr mode) as [[| |] reason];
    intros H; inversion H; subst. exists reason. split; reflexivity.
Qed.

Lemma forbiddenOf_Some E mgr mode fc item :
  forbiddenOf E mgr mode fc = Some item ->
  exists reason,
    evaluateToolApproval E (Name fc) (Arguments fc) mgr mode = (ApprovalForbidden, reason) /\
    item = forbiddenItem fc reason.
Proof.
  unfold forbiddenOf.
  destruct (evaluateToolApproval E (Name fc) (Arguments fc) mgr mode) as [[| |] reason];
    intros H; inversion H; subst. exists reason. split; reflexivity.
Qed.

(** The policy's part in a refusal. *)
Lemma commandVec_forbidden E cmdVec mgr mode :
  fst (evaluateCommandVecApproval E cmdVec mgr mode) = ApprovalForbidden ->
  match mgr with
  | Some m => Decision_ (GetEvaluation m cmdVec mode) = DecisionForbidden
  | None => mode <> ApprovalOnFailure /\
            EvaluateCommand (defaultPolicyManager E) cmdVec mode = ApprovalForbidden
  end.
Proof.
  unfold evaluateCommandVecApproval. destruct mgr as [m|]; simpl.
  - destruct (Decision_ (GetEvaluation m cmdVec mode)); simpl; congruence.
  - destruct (String.eqb mode ApprovalNever || String.eqb mode ""); [discriminate|].
    destruct (String.eqb_spec mode ApprovalOnFailure) as [|Hne]; [discriminate|].
    simpl. intros H. split; assumption.
Qed.

(** How a [shell] or [shell_command] call is evaluated. *)
Lemma shell_evaluation E toolName arguments mgr mode :
  isCollabToolCall E toolName = false ->
  toolName = "shell" \/ toolName = "shell_command" ->
  (exists cmdVec, runsCommand E toolName arguments cmdVec /\
     evaluateToolApproval E toolName arguments mgr mode
       = evaluateCommandVecApproval E cmdVec mgr mode) \/
  ((forall cmdVec, ~ runsCommand E toolName arguments cmdVec) /\
   fst (evaluateToolApproval E toolName arguments mgr mode) = ApprovalNeeded).
Proof.
  intros Hcollab Hname. unfold evaluateToolApproval. rewrite Hcollab.
  destruct Hname as [-> | ->]; cbn [isReadOnlyTool String.eqb Ascii.eqb Bool.eqb orb].
  - unfold evaluateShellArrayApproval.
    destruct (unmarshalObject E arguments) as [args|] eqn:Hun.
    2:{ right. split; [|reflexivity]. intros v (a & Ha & _). congruence. }
    destruct (args !! "command") as [[| | | |[|v vs]|]|] eqn:Hcmd;
      try (right; split; [|reflexivity];
           intros cv (a & Ha & [(_ & v' & vs' & Hc & _)|(Hn & _)]);
           [congruence|discriminate Hn]).
    destruct (stringElements (v :: vs)) as [cmdVec|] eqn:Hse.
    + left. exists cmdVec. split; [|reflexivity].
      exists args. split; [exact Hun|]. left. split; [reflexivity|].
      exists v, vs. split; [exact Hcmd|exact Hse].
    + right. split; [|reflexivity].
      intros cv (a & Ha & [(_ & v' & vs' & Hc & Hs)|(Hn & _)]); [|discriminate Hn].
      rewrite Hun in Ha. inversion Ha; subst a. rewrite Hcmd in Hc.
      inversion Hc; subst. congruence.
  - unfold evaluateShellCommandApproval.
    destruct (unmarshalObject E arguments) as [args|] eqn:Hun.
    2:{ right. split; [|reflexivity]. intros v (a & Ha & _). congruence. }
    destruct (args !! "command") as [[| | |cmd| |]|] eqn:Hcmd;
      try (right; split; [|reflexivity];
           intros cv (a & Ha & [(Hn & _)|(_ & c & Hc & _)]);
           [discriminate Hn|congruence]).
    destruct (String.eqb_spec cmd "") as [Hz|Hnz].
    + right. split; [|reflexivity].
      intros cv (a & Ha & [(Hn & _)|(_ & c & Hc & Hne & _)]); [discriminate Hn|].
      rewrite Hun in Ha. inversion Ha; subst a. rewrite Hcmd in Hc.
      inversion Hc; subst. congruence.
    + left. exists (DeriveExecArgs E cmd (loginOf args)). split; [|reflexivity].
      exists args. split; [exact Hun|]. right. split; [reflexivity|].
      exists cmd. repeat split; assumption.
Qed.

Lemma runsCommand_functional E toolName arguments v1 v2 :
  runsCommand E toolName arguments v1 -> runsCommand E toolName arguments v2 -> v1 = v2.
Proof.
  intros (a1 & H1 & C1) (a2 & H2 & C2). rewrite H1 in H2. inversion H2; subst a2.
  destruct C1 as [(N1 & x1 & xs1 & Hc1 & Hs1)|(N1 & c1 & Hc1 & _ & ->)];
    destruct C2 as [(N2 & x2 & xs2 & Hc2 & Hs2)|(N2 & c2 & Hc2 & _ & ->)];
    subst toolName; try discriminate.
  - rewrite Hc1 in Hc2. inversion Hc2; subst. congruence.
  - rewrite Hc1 in Hc2. inversion Hc2; subst. reflexivity.
Qed.

(** Only a [shell] or [shell_command] call can be refused. *)
Lemma evaluate_forbidden E toolName arguments mgr mode :
  fst (evaluateToolApproval E toolName arguments mgr mode) = ApprovalForbidden ->
  (toolName = "shell" \/ toolName = "shell_command") /\
  exists cmdVec, runsCommand E toolName arguments cmdVec /\
    fst (evaluateCommandVecApproval E cmdVec mgr mode) = ApprovalForbidden.
Proof.
  intros H.
  assert (Hcollab : isCollabToolCall E toolName = false).
  { unfold evaluateToolApproval in H. destruct (isCollabToolCall E toolName);
      [discriminate|reflexivity]. }
  assert (Hname : toolName = "shell" \/ toolName = "shell_command").
  { unfold evaluateToolApproval in H. rewrite Hcollab in H.
    destruct (isReadOnlyTool toolName); [discriminate|].
    destruct (String.eqb_spec toolName "shell") as [|_]; [left; assumption|].
    destruct (String.eqb_spec toolName "shell_command") as [|_]; [right; assumption|].
    destruct (String.eqb toolName "write_file" || String.eqb toolName "apply_patch");
      destruct (String.eqb mode ApprovalNever); discriminate. }
  split; [exact Hname|].
  destruct (shell_evaluation E toolName arguments mgr mode Hcollab Hname)
    as [(cmdVec & Hruns & Heq)|[_ Hneeded]].
  - exists cmdVec. split; [exact Hruns|]. rewrite <- Heq. exact H.
  - congruence.
Qed.

End GateFacts.

(** X7. Classification neither invents nor reorders calls: the call ids of
    the pending approvals and those of the forbidden outputs are
    subsequences of the batch's call ids, every pending approval carries
    the id, name and arguments of a call of the batch, and no call is
    counted twice, so pending and forbidden together are at most as many
    as the calls. *)
Theorem classification_keeps_the_calls (E : Workflow.External)
    (calls : list Workflow.ConversationItem) (mode rules : string) :
  (Workflow.PendingCallID <$> fst (Workflow.classifyToolsForApproval E calls mode rules))
    `sublist_of` (Workflow.CallID <$> calls) /\
  (Workflow.CallID <$> snd (Workflow.classifyToolsForApproval E calls mode rules))
    `sublist_of` (Workflow.CallID <$> calls) /\
  (length (fst (Workflow.classifyToolsForApproval E calls mode rules)) +
   length (snd (Workflow.classifyToolsForApproval E calls mode rules))
   <= length calls)%nat /\
  Forall (fun p => exists fc,
            fc ∈ calls /\
            p = Workflow.mkPending (Workflow.CallID fc) (Workflow.Name fc)
                  (Workflow.Arguments fc) (Workflow.PendingReason p))
         (fst (Workflow.classifyToolsForApproval E calls mode rules)).
Proof.
  destruct (String.eqb_spec mode "") as [Hm1|Hm1].
  { rewrite classify_inactive by (right; exact Hm1). simpl.
    repeat split; try apply sublist_nil_l; [lia|constructor]. }
  destruct (String.eqb_spec mode Workflow.ApprovalNever) as [Hm2|Hm2].
  { rewrite classify_inactive by (left; exact Hm2). simpl.
    repeat split; try apply sublist_nil_l; [lia|constructor]. }
  rewrite classify_active by assumption. simpl.
  set (mgr := Workflow.buildPolicyManager E rules).
  split; [|split; [|split]].
  - apply omap_sublist. intros fc p Hp.
    apply pendingOf_Some in Hp as (reason & _ & ->). reflexivity.
  - apply omap_sublist. intros fc item Hi.
    apply forbiddenOf_Some in Hi as (reason & _ & ->). reflexivity.
  - apply omap_disjoint_length. intros fc.
    unfold Workflow.pendingOf, Workflow.forbiddenOf.
    destruct (Workflow.evaluateToolApproval E (Workflow.Name fc) (Workflow.Arguments fc)
                mgr mode) as [[| |] reason]; auto.
  - apply Forall_forall. intros p Hp. apply list_elem_of_omap in Hp as (fc & Hin & Hp).
    apply pendingOf_Some in Hp as (reason & _ & ->). exists fc. split; [exact Hin|reflexivity].
Qed.

(** X8. Nothing is refused but a shell command that the exec policy
    forbids: a forbidden output of the classification answers a [shell] or
    [shell_command] call of the batch whose arguments give a command
    vector, and that vector is forbidden by the policy loaded from the
    rules or, when there is none, by the default policy in a mode other
    than on-failure. *)
Theorem refusal_comes_from_the_exec_policy (E : Workflow.External)
    (calls : list Workflow.ConversationItem) (mode rules : string)
    (item : Workflow.ConversationItem) :
  item ∈ snd (Workflow.classifyToolsForApproval E calls mode rules) ->
  exists fc cmdVec,
    fc ∈ calls /\ Workflow.CallID item = Workflow.CallID fc /\
    (Workflow.Name fc = "shell"%string \/ Workflow.Name fc = "shell_command"%string) /\
    ShellCalls.runsCommand E (Workflow.Name fc) (Workflow.Arguments fc) cmdVec /\
    match Workflow.buildPolicyManager E rules with
    | Some mgr =>
        Workflow.Decision_ (Workflow.GetEvaluation mgr cmdVec mode)
          = Workflow.DecisionForbidden
    | None =>
        mode <> Workflow.ApprovalOnFailure /\
        Workflow.EvaluateCommand (Workflow.defaultPolicyManager E) cmdVec mode
          = Workflow.ApprovalForbidden
    end.
Proof.
  intros Hin.
  destruct (String.eqb_spec mode "") as [Hm1|Hm1].
  { rewrite classify_inactive in Hin by (right; exact Hm1). inversion Hin. }
  destruct (String.eqb_spec mode Workflow.ApprovalNever) as [Hm2|Hm2].
  { rewrite classify_inactive in Hin by (left; exact Hm2). inversion Hin. }
  rewrite classify_active in Hin by assumption. simpl in Hin.
  apply list_elem_of_omap in Hin as (fc & Hfc & Hf).
  apply forbiddenOf_Some in Hf as (reason & Heval & ->).
  destruct (evaluate_forbidden E (Workflow.Name fc) (Workflow.Arguments fc)
              (Workflow.buildPolicyManager E rules) mode) as (Hname & cmdVec & Hruns & Hvec).
  { rewrite Heval. reflexivity. }
  exists fc, cmdVec. split; [exact Hfc|]. split; [reflexivity|]. split; [exact Hname|].
  split; [exact Hruns|]. apply commandVec_forbidden. exact Hvec.
Qed.

Lemma refusal_comes_from_the_exec_policy_witness :
  Workflow.forbiddenItem Workflow.rmCall ""
    ∈ snd (Workflow.classifyToolsForApproval Workflow.sampleExternal
             [Workflow.readCall; Workflow.rmCall] Workflow.ApprovalUnlessTrusted "forbid") /\
  exists fc cmdVec,
    fc ∈ [Workflow.readCall; Workflow.rmCall] /\
    Workflow.CallID (Workflow.forbiddenItem Workflow.rmCall "") = Workflow.CallID fc /\
    (Workflow.Name fc = "shell"%string \/ Workflow.Name fc = "shell_command"%string) /\
    ShellCalls.runsCommand Workflow.sampleExternal (Workflow.Name fc)
      (Workflow.Arguments fc) cmdVec /\
    match Workflow.buildPolicyManager Workflow.sampleExternal "forbid" with
    | Some mgr =>
        Workflow.Decision_ (Workflow.GetEvaluation mgr cmdVec Workflow.ApprovalUnlessTrusted)
          = Workflow.DecisionForbidden
    | None =>
        Workflow.ApprovalUnlessTrusted <> Workflow.ApprovalOnFailure /\
        Workflow.EvaluateCommand (Workflow.defaultPolicyManager Workflow.sampleExternal)
          cmdVec Workflow.ApprovalUnlessTrusted
          = Workflow.ApprovalForbidden
    end.
Proof.
  assert (Hin : Workflow.forbiddenItem Workflow.rmCall ""
                  ∈ snd (Workflow.classifyToolsForApproval Workflow.sampleExternal
                           [Workflow.readCall; Workflow.rmCall]
                           Workflow.ApprovalUnlessTrusted "forbid")).
  { assert (Heq : snd (Workflow.classifyToolsForApproval Workflow.sampleExternal
                         [Workflow.readCall; Workflow.rmCall]
                         Workflow.ApprovalUnlessTrusted "forbid")
                  = [Workflow.forbiddenItem Workflow.rmCall ""]) by (vm_compute; reflexivity).
    rewrite Heq. apply list_elem_of_singleton. reflexivity. }
  split; [exact Hin|].
  exact (refusal_comes_from_the_exec_policy Workflow.sampleExternal _ _ _ _ Hin).
Defined.

(** X9. A [shell] or [shell_command] call fails closed. When its
    arguments give a command vector, the call is classified as the exec
    policy classifies that vector; when they do not (undecodable JSON, no
    command, an empty command, an array with a non-string element), the
    call needs approval under every policy and in every mode. In mode
    on-failure without policy rules the call is therefore run without a
    prompt exactly when its arguments give a command vector. *)
Theorem shell_call_fails_closed (E : Workflow.External) (toolName arguments : string) :
  Workflow.isCollabToolCall E toolName = false ->
  toolName = "shell"%string \/ toolName = "shell_command"%string ->
  (forall cmdVec mgr mode,
     ShellCalls.runsCommand E toolName arguments cmdVec ->
     Workflow.evaluateToolApproval E toolName arguments mgr mode
       = Workflow.evaluateCommandVecApproval E cmdVec mgr mode) /\
  ((forall cmdVec, ~ ShellCalls.runsCommand E toolName arguments cmdVec) ->
   forall mgr mode,
     fst (Workflow.evaluateToolApproval E toolName arguments mgr mode)
       = Workflow.ApprovalNeeded) /\
  (fst (Workflow.evaluateToolApproval E toolName arguments None Workflow.ApprovalOnFailure)
     = Workflow.ApprovalSkip <->
   exists cmdVec, ShellCalls.runsCommand E toolName arguments cmdVec).
Proof.
  intros Hcollab Hname. split; [|split].
  - intros cmdVec mgr mode Hruns.
    destruct (shell_evaluation E toolName arguments mgr mode Hcollab Hname)
      as [(v & Hv & Heq)|[Hnone _]].
    + rewrite Heq, (runsCommand_functional _ _ _ _ _ Hruns Hv). reflexivity.
    + exfalso. exact (Hnone cmdVec Hruns).
  - intros Hnone mgr mode.
    destruct (shell_evaluation E toolName arguments mgr mode Hcollab Hname)
      as [(v & Hv & _)|[_ Hneeded]]; [|exact Hneeded].
    exfalso. exact (Hnone v Hv).
  - destruct (shell_evaluation E toolName arguments None Workflow.ApprovalOnFailure
                Hcollab Hname) as [(v & Hv & Heq)|[Hnone Hneeded]].
    + rewrite Heq. split; [intros _; exists v; exact Hv|reflexivity].
    + rewrite Hneeded. split; [discriminate|]. intros [v Hv]. exfalso. exact (Hnone v Hv).
Qed.

Lemma shell_call_fails_closed_witness :
  Workflow.evaluateToolApproval Workflow.sampleExternal "shell" "not json" None
    Workflow.ApprovalOnFailure
  = (Workflow.ApprovalNeeded, "cannot parse arguments"%string) /\
  (fst (Workflow.evaluateToolApproval Workflow.sampleExternal "shell"
          Workflow.rmArguments None Workflow.ApprovalOnFailure) = Workflow.ApprovalSkip <->
   exists cmdVec,
     ShellCalls.runsCommand Workflow.sampleExternal "shell" Workflow.rmArguments cmdVec).
Proof.
  split; [vm_compute; reflexivity|].
  refine (proj2 (proj2 (shell_call_fails_closed Workflow.sampleExternal "shell"
                          Workflow.rmArguments _ _))).
  - reflexivity.
  - left. reflexivity.
Defined.

Section DecisionFacts.
Import Workflow.

Lemma filter_split_length {A} (P : A -> Prop) `{!forall x, base.Decision (P x)} (l : list A) :
  (length (filter P l) + length (filter (fun x => ~ P x) l) = length l)%nat.
Proof.
  rewrite <- length_app. apply Permutation_length. apply filter_app_complement.
Qed.

End DecisionFacts.

(** X10. An approval decision loses no call and makes none up: whatever
    the response, every call of the batch ends up either among the
    approved calls or as one denial output, so the two lists together are
    as long as the batch; the approved calls are a subsequence of the
    batch, the denial outputs follow the order of the calls they answer,
    and each of them is a failed function_call_output for a call whose id
    the response denies. *)
Theorem approval_decision_partitions_the_calls
    (calls : list Workflow.ConversationItem) (resp : option Workflow.ApprovalResponse) :
  (length (fst (Workflow.applyApprovalDecision calls resp)) +
   length (snd (Workflow.applyApprovalDecision calls resp)) = length calls)%nat /\
  fst (Workflow.applyApprovalDecision calls resp) `sublist_of` calls /\
  (Workflow.CallID <$> snd (Workflow.applyApprovalDecision calls resp))
    `sublist_of` (Workflow.CallID <$> calls) /\
  Forall (fun item =>
            exists fc r,
              fc ∈ calls /\ resp = Some r /\ Workflow.CallID fc ∈ Workflow.Denied r /\
              Workflow.failedOutput item (Workflow.CallID fc)
                "User denied execution of this tool call.")
         (snd (Workflow.applyApprovalDecision calls resp)).
Proof.
  destruct resp as [r|].
  - rewrite applyApprovalDecision_spec. simpl. split; [|split; [|split]].
    + rewrite length_fmap, Nat.add_comm.
      apply (filter_split_length (fun fc => Workflow.CallID fc ∈ Workflow.Denied r)).
    + apply sublist_filter.
    + rewrite <- list_fmap_compose.
      change (Workflow.CallID ∘ Workflow.deniedItem) with Workflow.CallID.
      apply fmap_sublist. apply sublist_filter.
    + apply Forall_forall. intros item Hin.
      apply list_elem_of_fmap in Hin as (fc & -> & Hfc).
      apply list_elem_of_filter in Hfc as [Hden Hfc].
      exists fc, r. repeat split; assumption.
  - simpl. split; [lia|]. split; [reflexivity|]. split; [apply sublist_nil_l|constructor].
Qed.

(** ** Escalation: what happens after the user's decision *)

Section ReexecutionFacts.
Import Workflow Escalation.

Lemma buildApprovedSet_spec (approved : list string) k :
  lookupBool (buildApprovedSet approved) k = true <-> k ∈ approved.
Proof.
  unfold buildApprovedSet. rewrite buildDeniedSet_from. unfold lookupBool.
  rewrite lookup_empty. simpl. split; [intros [H|H]; [exact H|discriminate]|auto].
Qed.

Lemma sandboxDenied_dec E r :
  sandboxDenied E r <->
  isFailed r && isLikelySandboxDenial E (ResultContent r) = true.
Proof.
  unfold sandboxDenied, isFailed. rewrite andb_true_iff.
  destruct (ResultSuccess r) as [[|]|]; split; intros [H1 H2]; split; congruence.
Qed.

Lemma reexecuteLoop_spec reexec calls failed approvedSet results : forall i,
  (i + length results <= length calls)%nat ->
  exists rs,
    reexecuteLoop reexec calls failed approvedSet i results = Some rs /\
    length rs = length results /\
    forall j r, results !! j = Some r ->
      exists fc, calls !! (i + j)%nat = Some fc /\
                 rs !! j = Some (reexecuted reexec failed approvedSet (i + j) fc r).
Proof.
  induction results as [|r results IH]; intros i Hlen.
  - exists []. repeat split. intros j r Hj. rewrite lookup_nil in Hj. discriminate.
  - simpl in Hlen. destruct (IH (S i) ltac:(lia)) as (rs & Hrs & Hl & Hat).
    destruct (calls !! i) as [fc|] eqn:Hfc.
    2:{ apply lookup_ge_None_1 in Hfc. lia. }
    exists (reexecuted reexec failed approvedSet i fc r :: rs).
    split; [|split].
    + cbn [reexecuteLoop]. rewrite Hrs, Hfc. unfold reexecuted.
      destruct (bool_decide (i ∈ failed)); simpl; [|reflexivity].
      destruct (lookupBool approvedSet (ResultCallID r)); simpl; [|reflexivity].
      destruct (reexec i fc) as [[|r' rest]|]; reflexivity.
    + simpl. rewrite Hl. reflexivity.
    + intros [|j] r0 Hj; simpl in Hj.
      * inversion Hj; subst. exists fc. rewrite Nat.add_0_r. split; [exact Hfc|reflexivity].
      * destruct (Hat j r0 Hj) as (fc' & Hfc' & Hr). exists fc'.
        replace (i + S j)%nat with (S i + j)%nat by lia. split; [exact Hfc'|exact Hr].
Qed.

Lemma no_escalation_iff E (results : list ToolActivityOutput) : forall calls : list ConversationItem,
  (length results <= length calls)%nat ->
  omap (escalationOf E) (zip results calls) = [] <->
  forall r, r ∈ results -> ~ sandboxDenied E r.
Proof.
  induction results as [|r results IH]; intros calls Hlen.
  - split; [|reflexivity]. intros _ r Hr. inversion Hr.
  - destruct calls as [|fc calls]; [simpl in Hlen; lia|].
    cbn [zip_with]. rewrite omap_cons_eq, escalationOf_eq.
    destruct (isFailed r && isLikelySandboxDenial E (ResultContent r)) eqn:Hd.
    + split; [discriminate|]. intros H. exfalso. apply (H r); [left|].
      apply sandboxDenied_dec. exact Hd.
    + rewrite IH by (simpl in Hlen; lia). split.
      * intros H r' Hr'. apply elem_of_cons in Hr' as [->|Hr']; [|apply H; exact Hr'].
        rewrite sandboxDenied_dec, Hd. discriminate.
      * intros H r' Hr'. apply H. right. exact Hr'.
Qed.

(** What the first loop hands to the rest of the function. *)
Lemma beginEscalation_spec E s calls results :
  (length results <= length calls)%nat ->
  exists escs failed,
    beginEscalation E s calls results
      = Some (escs, failed,
              if (length escs =? 0)%nat then s
              else mkSessionState PhaseEscalationPending escs false None (Plan s)) /\
    escs = omap (escalationOf E) (zip results calls) /\
    (forall i r, results !! i = Some r -> (i ∈ failed <-> sandboxDenied E r)) /\
    ((length escs =? 0)%nat = true <-> forall r, r ∈ results -> ~ sandboxDenied E r).
Proof.
  intros Hlen. unfold beginEscalation.
  destruct (findEscalations_total E calls results 0 [] ∅ Hlen) as [[escs failed] Hf].
  rewrite Hf. exists escs, failed.
  apply findEscalations_spec in Hf as [Hescs Hfailed]. simpl in Hescs.
  rewrite drop_0 in Hescs.
  split; [destruct (length escs =? 0)%nat; reflexivity|]. split; [exact Hescs|]. split.
  - intros i r Hl. rewrite Hfailed, sandboxDenied_dec, andb_true_iff. split.
    + intros [Hin|(j & r' & Hl' & -> & HP)]; [inversion Hin|].
      simpl in Hl. rewrite Hl in Hl'. inversion Hl'; subst. exact HP.
    + intros HP. right. exists i, r. repeat split; [exact Hl|apply HP..].
  - rewrite <- (no_escalation_iff E results calls Hlen), <- Hescs.
    rewrite Nat.eqb_eq. split; [apply nil_length_inv|intros ->; reflexivity].
Qed.

End ReexecutionFacts.

(** X11. [handleOnFailureEscalation] with a call for every result does
    not panic; when no result is a failure that looks like a sandbox
    denial it returns the results as they are, without waiting and
    without touching the session state; and whenever it returns, it
    returns as many results as it was given, of which one differs from the
    original only if the original was such a denial, the wait ended
    without interruption with a response whose approved ids include the
    result's call id, and the re-execution of that call returned the new
    result. Ids named only in the denied list, or in neither list, are
    not re-executed. *)
Theorem escalation_changes_only_approved_denials (E : Workflow.External)
    (reexec : Escalation.Reexecute) (wait : Escalation.Wait) (s : Workflow.SessionState)
    (calls : list Workflow.ConversationItem)
    (results : list Workflow.ToolActivityOutput) :
  (length results <= length calls)%nat ->
  Escalation.handleOnFailureEscalation E reexec wait s calls results
    <> Escalation.Panicked /\
  ((forall r, r ∈ results -> ~ Escalation.sandboxDenied E r) ->
   Escalation.handleOnFailureEscalation E reexec wait s calls results
     = Escalation.Returned results s) /\
  (forall results' s',
     Escalation.handleOnFailureEscalation E reexec wait s calls results
       = Escalation.Returned results' s' ->
     length results' = length results /\
     forall i r r',
       results !! i = Some r -> results' !! i = Some r' -> r' <> r ->
       Escalation.sandboxDenied E r /\
       exists s1 s2 resp fc rest,
         wait s1 = Some (s2, false) /\
         Workflow.EscalationResponse s2 = Some resp /\
         Workflow.ResultCallID r ∈ Workflow.Approved resp /\
         calls !! i = Some fc /\ reexec i fc = Some (r' :: rest)).
Proof.
  intros Hlen. unfold Escalation.handleOnFailureEscalation.
  destruct (beginEscalation_spec E s calls results Hlen)
    as (escs & failed & -> & _ & Hfailed & Hnone).
  destruct (length escs =? 0)%nat eqn:Hz.
  { split; [discriminate|]. split; [reflexivity|].
    intros results' s' H. inversion H; subst. split; [reflexivity|].
    intros i r r' Hr Hr' Hne. congruence. }
  set (s1 := Workflow.mkSessionState Workflow.PhaseEscalationPending escs false None
               (Workflow.Plan s)).
  assert (Hsome : ~ forall r, r ∈ results -> ~ Escalation.sandboxDenied E r).
  { intros H. apply Hnone in H. congruence. }
  destruct (wait s1) as [[s2 interrupted]|] eqn:Hwait.
  2:{ split; [discriminate|]. split; [intros H; contradiction|]. intros ? ? H. discriminate. }
  unfold Escalation.finishEscalation.
  destruct interrupted.
  { split; [discriminate|]. split; [intros H; contradiction|].
    intros results' s' H. inversion H; subst. split; [reflexivity|]. congruence. }
  cbn [Escalation.clearPending Workflow.EscalationResponse].
  destruct (Workflow.EscalationResponse s2) as [resp|] eqn:Hresp.
  2:{ split; [discriminate|]. split; [intros H; contradiction|].
      intros results' s' H. inversion H; subst. split; [reflexivity|]. congruence. }
  destruct (reexecuteLoop_spec reexec calls failed
              (Escalation.buildApprovedSet (Workflow.Approved resp)) results 0 Hlen)
    as (rs & -> & Hl & Hat).
  split; [discriminate|]. split; [intros H; contradiction|].
  intros results' s' H. inversion H; subst. split; [exact Hl|].
  intros i r r' Hr Hr' Hne.
  destruct (Hat i r Hr) as (fc & Hfc & Hrs). simpl in Hfc, Hrs.
  assert (Heq : r' = Escalation.reexecuted reexec failed
                       (Escalation.buildApprovedSet (Workflow.Approved resp)) i fc r)
    by congruence.
  clear Hrs. unfold Escalation.reexecuted in Heq.
  destruct (bool_decide (i ∈ failed)) eqn:Hin; [|simpl in Heq; congruence].
  destruct (Workflow.lookupBool (Escalation.buildApprovedSet (Workflow.Approved resp))
              (Workflow.ResultCallID r)) eqn:Happ; [|simpl in Heq; congruence].
  simpl in Heq. apply bool_decide_eq_true in Hin. apply buildApprovedSet_spec in Happ.
  split; [apply (Hfailed i r Hr); exact Hin|].
  destruct (reexec i fc) as [[|r0 rest]|] eqn:Hre; try congruence.
  exists s1, s2, resp, fc, rest. subst r0. repeat split; assumption.
Qed.

Lemma escalation_changes_only_approved_denials_witness :
  let denied := Workflow.mkToolOutput "call_1" "rm: permission denied" (Some false) in
  let redone := Workflow.mkToolOutput "call_1" "removed" (Some true) in
  let wait := fun s1 : Workflow.SessionState =>
                Some (Workflow.mkSessionState (Workflow.SessionPhase s1)
                        (Workflow.PendingEscalations s1) true
                        (Some (Workflow.mkResponse ["call_1"%string] []))
                        (Workflow.Plan s1), false) in
  let s := Workflow.mkSessionState Workflow.PhaseToolExecuting [] false None None in
  Escalation.handleOnFailureEscalation Workflow.sampleExternal
    (fun _ _ => Some [redone]) wait s [Workflow.rmCall] [denied]
  <> Escalation.Panicked /\
  exists s', Escalation.handleOnFailureEscalation Workflow.sampleExternal
    (fun _ _ => Some [redone]) wait s [Workflow.rmCall] [denied]
  = Escalation.Returned [redone] s'.
Proof.
  intros denied redone wait s. split.
  - refine (proj1 (escalation_changes_only_approved_denials Workflow.sampleExternal
                     (fun _ _ => Some [redone]) wait s [Workflow.rmCall] [denied] _)).
    simpl. lia.
  - eexists. vm_compute. reflexivity.
Defined.

Section EscalationOutcomeFacts.
Import Workflow Escalation.

(** The function from its wait on, when some result is a sandbox denial. *)
Lemma escalation_outcome (E : External)
    (reexec : Reexecute) (wait : Wait) (s : SessionState)
    (calls : list ConversationItem)
    (results : list ToolActivityOutput) :
  (length results <= length calls)%nat ->
  (exists r, r ∈ results /\ sandboxDenied E r) ->
  let s1 := mkSessionState PhaseEscalationPending
              (omap (escalationOf E) (zip results calls)) false None
              (Plan s) in
  (wait s1 = None ->
   handleOnFailureEscalation E reexec wait s calls results
     = AwaitFailed) /\
  (forall s2 interrupted,
     wait s1 = Some (s2, interrupted) ->
     exists results',
       handleOnFailureEscalation E reexec wait s calls results
         = Returned results' (clearPending s2) /\
       PendingEscalations (clearPending s2) = [] /\
       length results' = length results /\
       (interrupted = true \/ EscalationResponse s2 = None ->
        results' = results) /\
       (forall resp i r fc,
          interrupted = false -> EscalationResponse s2 = Some resp ->
          results !! i = Some r -> calls !! i = Some fc ->
          (sandboxDenied E r ->
           ResultCallID r ∈ Approved resp ->
           results' !! i = Some match reexec i fc with
                                | Some (r' :: _) => r'
                                | _ => r
                                end) /\
          (~ (sandboxDenied E r /\
              ResultCallID r ∈ Approved resp) ->
           results' !! i = Some r))).
Proof.
  intros Hlen (r0 & Hr0 & Hd0) s1. unfold handleOnFailureEscalation.
  destruct (beginEscalation_spec E s calls results Hlen)
    as (escs & failed & -> & Hescs & Hfailed & Hnone).
  destruct (length escs =? 0)%nat eqn:Hz.
  { exfalso. destruct Hnone as [Hnone _]. exact (Hnone eq_refl r0 Hr0 Hd0). }
  rewrite Hescs. fold s1. split; [intros ->; reflexivity|].
  intros s2 interrupted ->. unfold finishEscalation.
  destruct interrupted.
  { exists results. split; [reflexivity|]. split; [reflexivity|]. split; [reflexivity|].
    split; [reflexivity|]. intros; discriminate. }
  cbn [clearPending EscalationResponse].
  destruct (EscalationResponse s2) as [resp|] eqn:Hresp.
  2:{ exists results. split; [reflexivity|]. split; [reflexivity|]. split; [reflexivity|].
      split; [reflexivity|]. intros; discriminate. }
  destruct (reexecuteLoop_spec reexec calls failed
              (buildApprovedSet (Approved resp)) results 0 Hlen)
    as (rs & -> & Hl & Hat).
  exists rs. split; [reflexivity|]. split; [reflexivity|]. split; [exact Hl|]. split.
  { intros [H|H]; discriminate. }
  intros resp' i r fc _ Hresp' Hr Hfc. inversion Hresp'; subst resp'.
  destruct (Hat i r Hr) as (fc' & Hfc' & Hrs). simpl in Hfc', Hrs.
  rewrite Hfc in Hfc'. inversion Hfc'; subst fc'. rewrite Hrs.
  unfold reexecuted. split.
  - intros Hd Happ. apply (Hfailed i r Hr) in Hd. apply buildApprovedSet_spec in Happ.
    rewrite bool_decide_eq_true_2 by exact Hd. rewrite Happ. reflexivity.
  - intros Hnot.
    destruct (bool_decide (i ∈ failed)) eqn:Hin; [|reflexivity].
    destruct (lookupBool (buildApprovedSet (Approved resp))
                (ResultCallID r)) eqn:Happ; [|reflexivity].
    exfalso. apply Hnot. apply bool_decide_eq_true in Hin.
    apply buildApprovedSet_spec in Happ. split; [apply (Hfailed i r Hr); exact Hin|exact Happ].
Qed.

(** A denial's call id is among the ids of the escalation requests. *)
Lemma escalation_ids E (results : list ToolActivityOutput) (calls : list ConversationItem)
    i r fc :
  results !! i = Some r -> calls !! i = Some fc -> sandboxDenied E r ->
  ResultCallID r ∈ EscCallID <$> omap (escalationOf E) (zip results calls).
Proof.
  intros Hr Hfc Hd. apply list_elem_of_fmap.
  exists (mkEscalation (ResultCallID r) (Name fc) (Arguments fc) (ResultContent r)
            "command failed in sandbox").
  split; [reflexivity|]. apply list_elem_of_omap. exists (r, fc). split.
  - apply list_elem_of_lookup. exists i. apply lookup_zip_with_Some.
    exists r, fc. repeat split; assumption.
  - rewrite escalationOf_eq. apply sandboxDenied_dec in Hd. rewrite Hd. reflexivity.
Qed.

End EscalationOutcomeFacts.


(** X12. When some result is a sandbox denial, [handleOnFailureEscalation]
    enters the escalation phase with one request per denial and waits. If
    the wait fails, so does the function. If the session was interrupted
    or no response has arrived, it returns the original results.
    Otherwise, for a denial whose call id the response approves, the
    result becomes the first result of the call's re-execution, and stays
    as it was when the re-execution fails or returns nothing; every other
    result stays as it was. In all cases the pending escalations are
    cleared. *)
Theorem approved_denials_are_reexecuted (E : Workflow.External)
    (reexec : Escalation.Reexecute) (wait : Escalation.Wait) (s : Workflow.SessionState)
    (calls : list Workflow.ConversationItem)
    (results : list Workflow.ToolActivityOutput) :
  (length results <= length calls)%nat ->
  (exists r, r ∈ results /\ Escalation.sandboxDenied E r) ->
  let s1 := Workflow.mkSessionState Workflow.PhaseEscalationPending
              (omap (Workflow.escalationOf E) (zip results calls)) false None
              (Workflow.Plan s) in
  (wait s1 = None ->
   Escalation.handleOnFailureEscalation E reexec wait s calls results
     = Escalation.AwaitFailed) /\
  (forall s2 interrupted,
     wait s1 = Some (s2, interrupted) ->
     exists results',
       Escalation.handleOnFailureEscalation E reexec wait s calls results
         = Escalation.Returned results' (Escalation.clearPending s2) /\
       Workflow.PendingEscalations (Escalation.clearPending s2) = [] /\
       length results' = length results /\
       (interrupted = true \/ Workflow.EscalationResponse s2 = None ->
        results' = results) /\
       (forall resp i r fc,
          interrupted = false -> Workflow.EscalationResponse s2 = Some resp ->
          results !! i = Some r -> calls !! i = Some fc ->
          (Escalation.sandboxDenied E r ->
           Workflow.ResultCallID r ∈ Workflow.Approved resp ->
           results' !! i = Some match reexec i fc with
                                | Some (r' :: _) => r'
                                | _ => r
                                end) /\
          (~ (Escalation.sandboxDenied E r /\
              Workflow.ResultCallID r ∈ Workflow.Approved resp) ->
           results' !! i = Some r))).
Proof.
  exact (escalation_outcome E reexec wait s calls results).
Qed.

Lemma approved_denials_are_reexecuted_witness :
  let denied := Workflow.mkToolOutput "call_1" "rm: permission denied" (Some false) in
  let s := Workflow.mkSessionState Workflow.PhaseToolExecuting [] false None None in
  (exists r, r ∈ [denied] /\ Escalation.sandboxDenied Workflow.sampleExternal r) /\
  Escalation.handleOnFailureEscalation Workflow.sampleExternal
    (fun _ _ => None) (fun _ => None) s [Workflow.rmCall] [denied]
  = Escalation.AwaitFailed.
Proof.
  intros denied s.
  assert (Hd : exists r, r ∈ [denied] /\ Escalation.sandboxDenied Workflow.sampleExternal r).
  { exists denied. split; [left|]. split; vm_compute; reflexivity. }
  split; [exact Hd|].
  refine (proj1 (approved_denials_are_reexecuted Workflow.sampleExternal
                   (fun _ _ => None) (fun _ => None) s [Workflow.rmCall] [denied] _ Hd) _).
  - simpl. lia.
  - reflexivity.
Defined.

(** ** util.go: truncation and the key of a batch *)

Section UtilFacts.
Import Workflow Util.

Lemma length_append (a b : string) :
  String.length (a +:+ b) = (String.length a + String.length b)%nat.
Proof.
  induction a as [|c a IH]; [reflexivity|].
  change (S (String.length (a +:+ b)) = S (String.length a + String.length b)).
  rewrite IH. reflexivity.
Qed.

Lemma length_strTake (n : nat) : forall s,
  String.length (strTake n s) = Nat.min n (String.length s).
Proof.
  induction n as [|n IH]; intros [|c s]; simpl; try reflexivity.
  rewrite IH. reflexivity.
Qed.

Lemma strTake_prefix (n : nat) : forall s, HasPrefix s (strTake n s) = true.
Proof.
  induction n as [|n IH]; intros [|c s]; simpl; try reflexivity.
  rewrite Ascii.eqb_refl. apply IH.
Qed.

Lemma str_compare_trans (a : string) : forall b c,
  String.compare a b <> Gt -> String.compare b c <> Gt -> String.compare a c <> Gt.
Proof.
  induction a as [|x a IH]; intros [|y b] [|z c]; simpl; try congruence.
  unfold Ascii.compare.
  destruct (N.compare_spec (N_of_ascii x) (N_of_ascii y)) as [Hxy|Hxy|Hxy];
    destruct (N.compare_spec (N_of_ascii y) (N_of_ascii z)) as [Hyz|Hyz|Hyz];
    try congruence.
  - rewrite Hxy, Hyz, N.compare_refl. apply IH.
  - intros _ _. assert ((N_of_ascii x ?= N_of_ascii z)%N = Lt) as ->
      by (apply N.compare_lt_iff; lia). discriminate.
  - intros _ _. assert ((N_of_ascii x ?= N_of_ascii z)%N = Lt) as ->
      by (apply N.compare_lt_iff; lia). discriminate.
  - intros _ _. assert ((N_of_ascii x ?= N_of_ascii z)%N = Lt) as ->
      by (apply N.compare_lt_iff; lia). discriminate.
Qed.

Lemma str_le_compare a b : str_le a b <-> String.compare a b <> Gt.
Proof.
  unfold str_le, String.leb. destruct (String.compare a b); split; congruence.
Qed.

Lemma str_le_trans : Transitive str_le.
Proof.
  intros a b c. rewrite !str_le_compare. apply str_compare_trans.
Qed.

Lemma str_le_total : Total str_le.
Proof. intros a b. apply String.leb_total. Qed.

Lemma str_le_antisym : AntiSymm eq str_le.
Proof. intros a b. apply String.leb_antisym. Qed.

(** Whatever algorithm sorts the strings, the outcome is [sortStrings]. *)
Lemma sortStrings_unique (parts sorted : list string) :
  StronglySorted str_le sorted -> sorted ≡ₚ parts -> sorted = sortStrings parts.
Proof.
  intros Hs Hp. apply (@StronglySorted_unique _ str_le str_le_antisym); [exact Hs| |].
  - apply (@StronglySorted_merge_sort _ str_le _ str_le_trans str_le_total).
  - rewrite Hp. symmetry. apply merge_sort_Permutation.
Qed.

End UtilFacts.

(** X13. [truncate(s, n)] with [n >= 0] returns [s] itself when [s] has at
    most [n] bytes, and otherwise the first [n] bytes of [s] followed by
    three dots: a prefix of [s] of exactly [n] bytes, then "...", [n + 3]
    bytes in all, which is more than [s] has when [len(s) < n + 3]. With
    [n < 0] the slice expression panics for every [s]. *)
Theorem truncate_keeps_a_prefix (s : string) (n : Z) :
  (n < 0 -> Util.truncate s n = None) /\
  (0 <= n ->
   exists t,
     Util.truncate s n = Some t /\
     Util.strlen t <= n + 3 /\
     (Util.strlen s <= n -> t = s) /\
     (n < Util.strlen s ->
      t = (Util.strTake (Z.to_nat n) s +:+ "...")%string /\
      Util.strlen (Util.strTake (Z.to_nat n) s) = n /\
      Workflow.HasPrefix s (Util.strTake (Z.to_nat n) s) = true /\
      Util.strlen t = n + 3)).
Proof.
  unfold Util.truncate, Util.str_slice_to, Util.strlen. split.
  - intros Hneg.
    destruct (Z.leb_spec (Z.of_nat (String.length s)) n) as [H|H]; [lia|].
    destruct (Z.leb_spec 0 n) as [H0|H0]; [lia|]. reflexivity.
  - intros Hn.
    destruct (Z.leb_spec (Z.of_nat (String.length s)) n) as [Hle|Hgt].
    + exists s. split; [reflexivity|]. split; [lia|]. split; [reflexivity|]. lia.
    + destruct (Z.leb_spec 0 n) as [_|]; [|lia].
      destruct (Z.leb_spec n (Z.of_nat (String.length s))) as [_|]; [|lia]. simpl.
      assert (Hl : Z.of_nat (String.length (Util.strTake (Z.to_nat n) s)) = n).
      { rewrite length_strTake. lia. }
      assert (Ht : Z.of_nat (String.length
                     (Util.strTake (Z.to_nat n) s +:+ "...")%string) = n + 3).
      { rewrite length_append. simpl String.length. lia. }
      eexists. split; [reflexivity|]. split; [lia|]. split; [lia|].
      intros _. split; [reflexivity|]. split; [exact Hl|].
      split; [apply strTake_prefix|exact Ht].
Qed.

(** X14. The key of a batch of tool calls does not depend on the order of
    the calls: batches that are permutations of one another get the same
    key, whatever hash function is used, and whatever algorithm
    [sort.Strings] uses, since the sorted slice of the "name:arguments"
    strings is unique. *)
Theorem tool_calls_key_ignores_order (sha256hex : string -> string)
    (calls calls' : list Workflow.ConversationItem) :
  calls ≡ₚ calls' ->
  Util.toolCallsKey sha256hex calls = Util.toolCallsKey sha256hex calls' /\
  forall sorted,
    StronglySorted Util.str_le sorted ->
    sorted ≡ₚ (fun c => (Workflow.Name c +:+ ":" +:+ Workflow.Arguments c)%string) <$> calls ->
    Util.toolCallsKey sha256hex calls = sha256hex (Util.writeAll sorted).
Proof.
  intros Hperm. split.
  - unfold Util.toolCallsKey. f_equal. f_equal. symmetry.
    apply sortStrings_unique.
    + apply (@StronglySorted_merge_sort _ Util.str_le _ str_le_trans str_le_total).
    + unfold Util.sortStrings. rewrite merge_sort_Permutation.
      apply fmap_Permutation. symmetry. exact Hperm.
  - intros sorted Hs Hp. unfold Util.toolCallsKey. f_equal. f_equal. symmetry.
    apply sortStrings_unique; assumption.
Qed.

Lemma tool_calls_key_ignores_order_witness :
  [Workflow.rmCall; Workflow.writeCall] ≡ₚ [Workflow.writeCall; Workflow.rmCall] /\
  Util.toolCallsKey (fun bytes => bytes) [Workflow.rmCall; Workflow.writeCall]
  = Util.toolCallsKey (fun bytes => bytes) [Workflow.writeCall; Workflow.rmCall].
Proof.
  assert (Hp : [Workflow.rmCall; Workflow.writeCall]
                 ≡ₚ [Workflow.writeCall; Workflow.rmCall]) by apply perm_swap.
  split; [exact Hp|].
  exact (proj1 (tool_calls_key_ignores_order (fun bytes => bytes) _ _ Hp)).
Defined.

(** ** The plan: which error is reported *)

Section PlanErrorFacts.
Import Workflow.

Lemma parseSteps_error (plan : list PlanArg) : forall i cnt steps e,
  0 <= i -> i + len plan <= int_max ->
  parseSteps i plan cnt steps = inl e ->
  exists k s,
    plan !! k = Some s /\ Forall validStep (take k plan) /\
    ((ArgStep s = "" /\ e = ErrEmptyStep (i + Z.of_nat k + 1)) \/
     (ArgStep s <> "" /\ isValidStatus (ArgStatus s) = false /\
      e = ErrInvalidStatus (i + Z.of_nat k + 1) (ArgStatus s))).
Proof.
  induction plan as [|s plan IH]; intros i cnt steps e Hi Hmax H; [discriminate|].
  assert (Hlen : len (s :: plan) = 1 + len plan) by (unfold len; simpl length; lia).
  rewrite Hlen in Hmax. pose proof (len_nonneg plan) as Hp0.
  assert (Hi1 : add i 1 = i + 1) by (unfold add; apply wrap_small; int_bounds; lia).
  cbn [parseSteps] in H. rewrite Hi1 in H.
  destruct (String.eqb_spec (ArgStep s) "") as [Hstep|Hstep].
  { inversion H; subst. exists 0%nat, s. split; [reflexivity|]. split; [constructor|].
    left. split; [exact Hstep|]. f_equal. lia. }
  destruct (isValidStatus (ArgStatus s)) eqn:Hst; cbn [negb] in H.
  2:{ inversion H; subst. exists 0%nat, s. split; [reflexivity|]. split; [constructor|].
      right. split; [exact Hstep|]. split; [exact Hst|]. f_equal. lia. }
  apply IH in H as (k & s' & Hk & Hall & Hcase); [|lia..].
  exists (S k), s'. split; [exact Hk|]. split.
  - simpl. constructor; [|exact Hall]. apply validStep_dec.
    split; [apply String.eqb_neq; exact Hstep|exact Hst].
  - replace (i + Z.of_nat (S k) + 1) with (i + 1 + Z.of_nat k + 1) by lia. exact Hcase.
Qed.

End PlanErrorFacts.

(** X15. The error of [parseUpdatePlanArgs] names the first offending
    step. "step n: step text is required" and "step n: invalid status" are
    reported for the 1-based position [n] of the first step that is not
    valid, all steps before it being valid, and an empty text is reported
    before a bad status of the same step; "at most one step can be
    in_progress" is reported only when every step is valid, with the exact
    number of steps in progress, which is at least 2; "plan must not be
    empty" means the decoded plan is empty, and "invalid JSON" that
    decoding failed. *)
Theorem update_plan_error_names_first_bad_step (E : Workflow.External)
    (argsJSON : string) (e : Workflow.PlanError) :
  (forall args, Workflow.unmarshalPlanArgs E argsJSON = Some args ->
                len (Workflow.ArgPlan args) <= int_max) ->
  Workflow.parseUpdatePlanArgs E argsJSON = inl e ->
  match e with
  | Workflow.ErrInvalidJSON => Workflow.unmarshalPlanArgs E argsJSON = None
  | Workflow.ErrEmptyPlan =>
      exists args, Workflow.unmarshalPlanArgs E argsJSON = Some args /\
                   Workflow.ArgPlan args = []
  | Workflow.ErrEmptyStep n =>
      exists args k s,
        Workflow.unmarshalPlanArgs E argsJSON = Some args /\
        n = Z.of_nat k + 1 /\ Workflow.ArgPlan args !! k = Some s /\
        Workflow.ArgStep s = EmptyString /\
        Forall Workflow.validStep (take k (Workflow.ArgPlan args))
  | Workflow.ErrInvalidStatus n status =>
      exists args k s,
        Workflow.unmarshalPlanArgs E argsJSON = Some args /\
        n = Z.of_nat k + 1 /\ Workflow.ArgPlan args !! k = Some s /\
        Workflow.ArgStep s <> EmptyString /\ Workflow.ArgStatus s = status /\
        Workflow.isValidStatus status = false /\
        Forall Workflow.validStep (take k (Workflow.ArgPlan args))
  | Workflow.ErrTooManyInProgress count =>
      exists args,
        Workflow.unmarshalPlanArgs E argsJSON = Some args /\
        Forall Workflow.validStep (Workflow.ArgPlan args) /\
        count = Z.of_nat (Workflow.countInProgress (Workflow.ArgPlan args)) /\
        2 <= count
  end.
Proof.
  intros Hfit. unfold Workflow.parseUpdatePlanArgs.
  destruct (Workflow.unmarshalPlanArgs E argsJSON) as [args|] eqn:Hun.
  2:{ intros H. inversion H; subst. reflexivity. }
  specialize (Hfit args eq_refl).
  destruct (Nat.eqb_spec (length (Workflow.ArgPlan args)) 0) as [Hz|Hnz].
  { intros H. inversion H; subst. exists args. split; [reflexivity|].
    destruct (Workflow.ArgPlan args); [reflexivity|discriminate]. }
  destruct (Workflow.parseSteps 0 (Workflow.ArgPlan args) 0 []) as [e0|[steps cnt]] eqn:Hp.
  - intros H. inversion H; subst e0.
    apply parseSteps_error in Hp as (k & s & Hk & Hall & Hcase); [|lia..].
    destruct Hcase as [(Hs & ->)|(Hs & Hst & ->)].
    + exists args, k, s. repeat split; try assumption; lia.
    + exists args, k, s. repeat split; try assumption; lia.
  - destruct (parseSteps_spec (Workflow.ArgPlan args) 0 0 [] ltac:(lia) ltac:(lia))
      as [[Hall Heq]|[_ [e1 Heq]]]; [|congruence].
    rewrite Heq in Hp. inversion Hp; subst.
    destruct (Z.ltb_spec 1 (0 + Z.of_nat (Workflow.countInProgress (Workflow.ArgPlan args))))
      as [Hmany|Hfew]; [|discriminate].
    intros H. inversion H; subst. exists args. repeat split; try assumption; lia.
Qed.

Lemma update_plan_error_names_first_bad_step_witness :
  let E := Workflow.mkExternal (fun _ => false) (fun _ => None) Workflow.promptAll
             (fun _ => None)
             (fun _ => Some (Workflow.mkUpdatePlanArgs ""
                               [Workflow.mkPlanArg "Run tests" "pending";
                                Workflow.mkPlanArg "" "done";
                                Workflow.mkPlanArg "Ship" "later"]))
             (fun _ _ => []) (fun s => s) (fun _ => ""%string) in
  Workflow.parseUpdatePlanArgs E "{}" = inl (Workflow.ErrEmptyStep 2) /\
  exists args k s,
    Workflow.unmarshalPlanArgs E "{}" = Some args /\
    2 = Z.of_nat k + 1 /\ Workflow.ArgPlan args !! k = Some s /\
    Workflow.ArgStep s = EmptyString /\
    Forall Workflow.validStep (take k (Workflow.ArgPlan args)).
Proof.
  intros E.
  assert (Hp : Workflow.parseUpdatePlanArgs E "{}" = inl (Workflow.ErrEmptyStep 2))
    by (vm_compute; reflexivity).
  split; [exact Hp|].
  refine (update_plan_error_names_first_bad_step E "{}" (Workflow.ErrEmptyStep 2) _ Hp).
  intros args H. vm_compute in H. inversion H; subst. vm_compute. intros Hc. discriminate Hc.
Defined.

(** ** request_user_input: validation of the questions *)

Section UserInputFacts.
Import UserInput.

Lemma parseOptions_spec (opts : list OptionArg) : forall j,
  (Forall (fun opt => ArgLabel opt <> EmptyString) opts /\
   parseOptions j opts = inr (toOption <$> opts)) \/
  (~ Forall (fun opt => ArgLabel opt <> EmptyString) opts /\
   exists e, parseOptions j opts = inl e).
Proof.
  induction opts as [|opt opts IH]; intros j.
  - left. split; [constructor|reflexivity].
  - cbn [parseOptions]. destruct (String.eqb_spec (ArgLabel opt) "") as [Hz|Hnz].
    + right. split; [|eauto]. intros H. inversion H; subst. contradiction.
    + destruct (IH (add j 1)) as [[Hall ->]|[Hnot [e ->]]].
      * left. split; [constructor; assumption|reflexivity].
      * right. split; [|eauto]. intros H. inversion H; subst. contradiction.
Qed.

Lemma parseQuestions_spec (qs : list QuestionArg) : forall i,
  (Forall validQuestion qs /\ parseQuestions i qs = inr (toQuestion <$> qs)) \/
  (~ Forall validQuestion qs /\ exists e, parseQuestions i qs = inl e).
Proof.
  induction qs as [|q qs IH]; intros i.
  - left. split; [constructor|reflexivity].
  - cbn [parseQuestions]. unfold validQuestion.
    destruct (String.eqb_spec (ArgID q) "") as [Hid|Hid].
    { right. split; [|eauto]. intros H. inversion H as [|? ? Hv _]; subst. tauto. }
    destruct (String.eqb_spec (ArgQuestion q) "") as [Hq|Hq].
    { right. split; [|eauto]. intros H. inversion H as [|? ? Hv _]; subst. tauto. }
    destruct (Nat.eqb_spec (length (ArgOptions q)) 0) as [Ho|Ho].
    { right. split; [|eauto]. intros H. inversion H as [|? ? Hv _]; subst.
      destruct Hv as (_ & _ & Hne & _). destruct (ArgOptions q); [congruence|discriminate]. }
    destruct (parseOptions_spec (ArgOptions q) 0) as [[Hall ->]|[Hnot [e ->]]].
    2:{ right. split; [|eauto]. intros H. inversion H as [|? ? Hv _]; subst. tauto. }
    destruct (IH (add i 1)) as [[Hqs ->]|[Hnot [e ->]]].
    + left. split; [|reflexivity]. constructor; [|exact Hqs].
      repeat split; try assumption. intros Hnil. rewrite Hnil in Ho. simpl in Ho. congruence.
    + right. split; [|eauto]. intros H. inversion H; subst. contradiction.
Qed.

End UserInputFacts.

(** X16. [parseRequestUserInputArgs] succeeds exactly when its argument
    decodes into between one and four questions, each with a non-empty
    id, a non-empty question text and at least one option, every option
    with a non-empty label; the questions it returns are the decoded ones
    in their order, with their options in order. More than four questions
    are rejected for their number, whatever they contain. *)
Theorem user_input_questions_validation
    (unmarshal : string -> option (list UserInput.QuestionArg)) (argsJSON : string) :
  (forall questions,
     UserInput.parseRequestUserInputArgs unmarshal argsJSON = inr questions <->
     exists decoded,
       unmarshal argsJSON = Some decoded /\
       (1 <= length decoded <= 4)%nat /\
       Forall UserInput.validQuestion decoded /\
       questions = UserInput.toQuestion <$> decoded) /\
  (forall decoded,
     unmarshal argsJSON = Some decoded -> (4 < length decoded)%nat ->
     UserInput.parseRequestUserInputArgs unmarshal argsJSON
       = inl (UserInput.ErrTooManyQuestions (Z.of_nat (length decoded)))).
Proof.
  unfold UserInput.parseRequestUserInputArgs. split.
  - intros questions.
    destruct (unmarshal argsJSON) as [decoded|] eqn:Hun.
    2:{ split; [discriminate|]. intros (d & H & _). discriminate. }
    destruct (Nat.eqb_spec (length decoded) 0) as [Hz|Hnz].
    { split; [discriminate|]. intros (d & H & Hl & _). inversion H; subst. lia. }
    unfold len. destruct (Z.ltb_spec 4 (Z.of_nat (length decoded))) as [Hmany|Hfew].
    { split; [discriminate|]. intros (d & H & Hl & _). inversion H; subst. lia. }
    destruct (parseQuestions_spec decoded 0) as [[Hall ->]|[Hnot [e ->]]].
    + split.
      * intros H. inversion H; subst. exists decoded. repeat split; try assumption; lia.
      * intros (d & H & _ & _ & ->). inversion H; subst. reflexivity.
    + split; [discriminate|]. intros (d & H & _ & Hall & _). inversion H; subst.
      contradiction.
  - intros decoded -> Hmany.
    destruct (Nat.eqb_spec (length decoded) 0) as [Hz|Hnz]; [lia|].
    unfold len. destruct (Z.ltb_spec 4 (Z.of_nat (length decoded))) as [_|Hfew]; [|lia].
    reflexivity.
Qed.

(** ** write_stdin: from the session id to the session *)

Section StdinFacts.
Import Handlers UnifiedExec.

Lemma itoa_zero n : itoa n = "0"%string <-> n = 0.
Proof.
  split; [|intros ->; reflexivity].
  intros H. apply itoa_inj. rewrite H. reflexivity.
Qed.

Lemma sessionIDArg_float (args : gmap string ArgValue) n :
  args !! "session_id"%string = Some (AFloat64 n) -> sessionIDArg args = inr (itoa n).
Proof.
  intros H. unfold sessionIDArg, parseNumberArg. rewrite H.
  destruct (String.eqb (itoa n) "0"); reflexivity.
Qed.

Lemma stdinArgs_session n chars :
  stdinArgs n chars !! "session_id"%string = Some (AFloat64 n).
Proof. unfold stdinArgs. apply lookup_insert_eq. Qed.

Lemma stdinArgs_chars n chars : charsArg (stdinArgs n chars) = chars.
Proof.
  unfold charsArg, stdinArgs. rewrite lookup_insert_ne by discriminate.
  rewrite lookup_singleton_eq. reflexivity.
Qed.

Lemma beginWriteStdin_float (args : gmap string ArgValue) n store :
  args !! "session_id"%string = Some (AFloat64 n) ->
  beginWriteStdin args store =
  match Store.Get (itoa n) store with
  | None =>
      UnknownSession
        (mkToolOutput ("Unknown session ID: " +:+ itoa n +:+
                       ". The process may have already exited.")
                      (Some false))
  | Some sess => Proceed (itoa n) sess (charsArg args) (stdinYieldMs args)
  end.
Proof.
  intros H. unfold beginWriteStdin. rewrite (sessionIDArg_float args n H). reflexivity.
Qed.

End StdinFacts.

(** X17. The session id of a [write_stdin] call: a float64 argument [n],
    which is what a JSON number decodes to, gives the decimal text of
    [int(n)], zero included; an [int] or [int64] argument gives its
    decimal text unless it is zero; everything else is a validation
    error, "missing required argument: session_id" when the key is
    absent, and "session_id must be a number" for a value that is not a
    number and also for an [int] or [int64] zero. *)
Theorem write_stdin_session_id (args : gmap string Handlers.ArgValue) :
  match UnifiedExec.sessionIDArg args with
  | inr sessionID =>
      exists n,
        sessionID = Handlers.itoa n /\
        (args !! "session_id"%string = Some (Handlers.AFloat64 n) \/
         (n <> 0 /\ (args !! "session_id"%string = Some (Handlers.AInt n) \/
                     args !! "session_id"%string = Some (Handlers.AInt64 n))))
  | inl msg =>
      (args !! "session_id"%string = None /\
       msg = "missing required argument: session_id"%string) \/
      (msg = "session_id must be a number"%string /\
       exists v, args !! "session_id"%string = Some v /\
                 forall n, v <> Handlers.AFloat64 n /\
                           (v = Handlers.AInt n \/ v = Handlers.AInt64 n -> n = 0))
  end.
Proof.
  unfold UnifiedExec.sessionIDArg, Handlers.parseNumberArg.
  destruct (args !! "session_id"%string) as [v|] eqn:Hv; [|left; split; reflexivity].
  destruct v as [n|n|n|b|str|].
  - destruct (String.eqb (Handlers.itoa n) "0"); exists n; split; auto.
  - destruct (String.eqb_spec (Handlers.itoa n) "0") as [Hz|Hnz].
    + apply itoa_zero in Hz. subst n. right. split; [reflexivity|].
      eexists. split; [reflexivity|]. intros m. split; [discriminate|].
      intros [H|H]; inversion H; reflexivity.
    + exists n. split; [reflexivity|]. right. split; [|left; reflexivity].
      intros ->. apply Hnz. reflexivity.
  - destruct (String.eqb_spec (Handlers.itoa n) "0") as [Hz|Hnz].
    + apply itoa_zero in Hz. subst n. right. split; [reflexivity|].
      eexists. split; [reflexivity|]. intros m. split; [discriminate|].
      intros [H|H]; inversion H; reflexivity.
    + exists n. split; [reflexivity|]. right. split; [|right; reflexivity].
      intros ->. apply Hnz. reflexivity.
  - right. split; [reflexivity|]. eexists. split; [reflexivity|].
    intros m. split; [discriminate|]. intros [H|H]; discriminate.
  - right. split; [reflexivity|]. eexists. split; [reflexivity|].
    intros m. split; [discriminate|]. intros [H|H]; discriminate.
  - right. split; [reflexivity|]. eexists. split; [reflexivity|].
    intros m. split; [discriminate|]. intros [H|H]; discriminate.
Qed.

(** X18. From [exec_command] to [write_stdin]: when the process is still
    running at the yield deadline, [exec_command] answers with success and
    a response whose session line carries the process id, and stores the
    session; a [write_stdin] that sends that id back as a JSON number
    then finds this very session, whatever order the pruning step saw,
    provided no eviction was due or fewer than [ProtectedCount] other
    sessions were used at least as recently. *)
Theorem running_command_is_reached_by_write_stdin (wall : Z -> string)
    (sorted : list Store.candidate) (store : Store.Store) (sess : Store.ExecSession)
    (output : string) (wallTime n : Z) (chars : string) :
  Store.HasExited sess = false ->
  Store.ProcessID sess = Handlers.itoa n ->
  Store.sort_outcome (Store.candidates_of (Store.insertSession sess store)) sorted ->
  (size (Store.sessions (Store.insertSession sess store)) <= Store.MaxSessions)%nat \/
  (length (Allocation.at_least_as_recent (Store.ProcessID sess) (Store.LastUsed sess)
             (Store.insertSession sess store)) < Store.ProtectedCount)%nat ->
  fst (Handlers.finishExecCommand wall sorted store sess output wallTime (Handlers.itoa n))
    = Handlers.mkToolOutput
        (Handlers.wallLine wall wallTime +:+ Handlers.sessionLine (Handlers.itoa n) +:+
         Handlers.outputLine +:+ output)%string
        (Some true) /\
  UnifiedExec.beginWriteStdin (UnifiedExec.stdinArgs n chars)
    (snd (Handlers.finishExecCommand wall sorted store sess output wallTime
            (Handlers.itoa n)))
    = UnifiedExec.Proceed (Handlers.itoa n) sess chars
        (Handlers.stdinYieldMs (UnifiedExec.stdinArgs n chars)).
Proof.
  intros Hrun Hpid Hout Hcase. unfold Handlers.finishExecCommand. rewrite Hrun. simpl fst.
  simpl snd. split.
  - apply formatExecResponse_running. apply itoa_nonempty.
  - rewrite (beginWriteStdin_float _ n _ (stdinArgs_session n chars)).
    destruct (StoreWith_keeps_session store sess sorted Hout Hcase) as [Hget _].
    unfold Store.Get. rewrite <- Hpid, Hget, stdinArgs_chars. reflexivity.
Qed.

Lemma running_command_is_reached_by_write_stdin_witness :
  let sess := Store.mkSession "1007" 5 false None in
  let store := Store.mkStore ∅ {[ "1007"%string ]} in
  let sorted := Store.sortCandidates (Store.candidates_of (Store.insertSession sess store)) in
  UnifiedExec.beginWriteStdin (UnifiedExec.stdinArgs 1007 "y")
    (snd (Handlers.finishExecCommand Handlers.sampleWall sorted store sess "ready" 0
            (Handlers.itoa 1007)))
  = UnifiedExec.Proceed (Handlers.itoa 1007) sess "y"
      (Handlers.stdinYieldMs (UnifiedExec.stdinArgs 1007 "y")).
Proof.
  intros sess store sorted.
  refine (proj2 (running_command_is_reached_by_write_stdin Handlers.sampleWall sorted store
                   sess "ready" 0 1007 "y" _ _ _ _)).
  - reflexivity.
  - vm_compute. reflexivity.
  - apply sortCandidates_outcome.
  - left. vm_compute. lia.
Defined.

(** X19. A finished process leaves no session behind. When
    [write_stdin] finds that the process has exited, it removes the
    session and releases its id, leaving every other session in place: a
    later [write_stdin] with the same id is answered "Unknown session ID"
    with success = false. When the process has already exited by the time
    [exec_command] returns, no session is stored at all and the id is
    released. While the process runs, [write_stdin] leaves the store as
    it is. *)
Theorem finished_process_leaves_no_session (wall : Z -> string)
    (sorted : list Store.candidate) (store : Store.Store) (sess : Store.ExecSession)
    (output : string) (wallTime n : Z) (chars : string) :
  (Store.HasExited sess = true ->
   let store' := snd (Handlers.finishWriteStdin wall store sess output wallTime
                        (Handlers.itoa n)) in
   UnifiedExec.beginWriteStdin (UnifiedExec.stdinArgs n chars) store'
     = UnifiedExec.UnknownSession
         (Handlers.mkToolOutput
            ("Unknown session ID: " +:+ Handlers.itoa n +:+
             ". The process may have already exited.")%string
            (Some false)) /\
   (Handlers.itoa n ∉ Store.reserved store') /\
   (forall processID, processID <> Handlers.itoa n ->
      Store.Get processID store' = Store.Get processID store)) /\
  (Store.HasExited sess = true ->
   let store' := snd (Handlers.finishExecCommand wall sorted store sess output wallTime
                        (Handlers.itoa n)) in
   Store.sessions store' = Store.sessions store /\
   (Handlers.itoa n ∉ Store.reserved store')) /\
  (Store.HasExited sess = false ->
   snd (Handlers.finishWriteStdin wall store sess output wallTime (Handlers.itoa n))
     = store).
Proof.
  split; [|split].
  - intros Hex store'. unfold store', Handlers.finishWriteStdin. rewrite Hex. simpl snd.
    split; [|split].
    + rewrite (beginWriteStdin_float _ n _ (stdinArgs_session n chars)).
      unfold Store.Get, Store.Remove. cbn [Store.sessions].
      rewrite lookup_delete_eq. reflexivity.
    + simpl. intros H. apply elem_of_difference in H as [_ H]. apply H.
      apply elem_of_singleton. reflexivity.
    + intros pid Hne. unfold Store.Get, Store.Remove. cbn [Store.sessions].
      apply lookup_delete_ne. congruence.
  - intros Hex store'. unfold store', Handlers.finishExecCommand. rewrite Hex. simpl snd.
    split; [reflexivity|]. simpl. intros H. apply elem_of_difference in H as [_ H].
    apply H. apply elem_of_singleton. reflexivity.
  - intros Hrun. unfold Handlers.finishWriteStdin. rewrite Hrun. reflexivity.
Qed.

(** ** The approval gate and the shell handlers read the same command *)

Section ShellHandlerFacts.
Import Workflow ShellCalls ShellHandlers.

Lemma commandElements_spec (arr : list JSONValue) : forall i ss,
  commandElements i arr = inr ss <-> stringElements arr = Some ss.
Proof.
  induction arr as [|v arr IH]; intros i ss; simpl.
  - split; intros H; inversion H; reflexivity.
  - destruct v; try (split; discriminate).
    specialize (IH (add i 1)).
    destruct (commandElements (add i 1) arr) as [e|r];
      destruct (stringElements arr) as [r'|].
    + exfalso. destruct (IH r') as [_ H]. specialize (H eq_refl). discriminate.
    + split; discriminate.
    + destruct (IH r) as [H _]. specialize (H eq_refl). inversion H; subst.
      split; intros H'; inversion H'; reflexivity.
    + exfalso. destruct (IH r) as [H _]. specialize (H eq_refl). discriminate.
Qed.

End ShellHandlerFacts.

(** X20. The approval gate judges the command that the handler runs: for
    arguments that decode to the object the handler receives, the [shell]
    handler accepts the call and runs the vector [cmdVec] exactly when
    the gate reads [cmdVec] from the arguments, and likewise the
    [shell_command] handler; so a call that a handler would reject with a
    validation error is one whose arguments give the gate no command. *)
Theorem gate_and_handler_read_the_same_command (E : Workflow.External)
    (arguments : string) (args : gmap string Workflow.JSONValue) :
  Workflow.unmarshalObject E arguments = Some args ->
  (forall cmdVec,
     ShellHandlers.shellCommandVec args = inr cmdVec <->
     ShellCalls.runsCommand E "shell" arguments cmdVec) /\
  (forall cmdVec,
     ShellHandlers.shellCommandLineVec E args = inr cmdVec <->
     ShellCalls.runsCommand E "shell_command" arguments cmdVec).
Proof.
  intros Hun. split; intros cmdVec.
  - unfold ShellHandlers.shellCommandVec, ShellCalls.runsCommand. split.
    + intros H. exists args. split; [exact Hun|]. left. split; [reflexivity|].
      destruct (args !! "command"%string) as [v|]; [|discriminate].
      unfold ShellHandlers.parseCommandArray in H.
      destruct v as [| | | |arr|]; try discriminate.
      destruct arr as [|x xs]; [discriminate|]. simpl length in H. cbn [Nat.eqb] in H.
      destruct (ShellHandlers.commandElements 0 (x :: xs)) as [e|r] eqn:Hc; [discriminate|].
      inversion H; subst. exists x, xs. split; [reflexivity|].
      apply (commandElements_spec (x :: xs) 0). exact Hc.
    + intros (a & Ha & [(_ & x & xs & Hc & Hs)|(Hn & _)]); [|discriminate Hn].
      rewrite Hun in Ha. inversion Ha; subst a. rewrite Hc.
      unfold ShellHandlers.parseCommandArray. simpl length. cbn [Nat.eqb].
      apply (commandElements_spec (x :: xs) 0) in Hs. rewrite Hs. reflexivity.
  - unfold ShellHandlers.shellCommandLineVec, ShellCalls.runsCommand,
      ShellHandlers.parseLoginArg, ShellCalls.loginOf. split.
    + intros H. exists args. split; [exact Hun|]. right. split; [reflexivity|].
      destruct (args !! "command"%string) as [v|]; [|discriminate].
      destruct v as [| | |cmd| |]; try discriminate.
      destruct (String.eqb_spec cmd "") as [Hz|Hnz]; [discriminate|].
      inversion H; subst. exists cmd. repeat split. exact Hnz.
    + intros (a & Ha & [(Hn & _)|(_ & cmd & Hc & Hne & ->)]); [discriminate Hn|].
      rewrite Hun in Ha. inversion Ha; subst a. rewrite Hc.
      apply String.eqb_neq in Hne. rewrite Hne. reflexivity.
Qed.

Lemma gate_and_handler_read_the_same_command_witness :
  ShellHandlers.shellCommandVec
    {[ "command"%string :=
         Workflow.JArray [Workflow.JString "rm"; Workflow.JString "-rf"; Workflow.JString "/"] ]}
    = inr ["rm"; "-rf"; "/"]%string <->
  ShellCalls.runsCommand Workflow.sampleExternal "shell" Workflow.rmArguments
    ["rm"; "-rf"; "/"]%string.
Proof.
  refine (proj1 (gate_and_handler_read_the_same_command Workflow.sampleExternal
                   Workflow.rmArguments _ _) _).
  vm_compute. reflexivity.
Defined.

(** ** The user's answer to an approval prompt *)

Section CliFacts.
Import Workflow Cli.

Lemma buildIndexSet_from (indices : list Z) : forall (m : gmap Z bool) k,
  default false (fold_left (fun m idx => <[idx := true]> m) indices m !! k) = true <->
  k ∈ indices \/ default false (m !! k) = true.
Proof.
  induction indices as [|d ds IH]; intros m k; simpl.
  - split; [auto|]. intros [H|H]; [inversion H|exact H].
  - rewrite IH. rewrite elem_of_cons.
    destruct (decide (d = k)) as [->|Hne].
    + rewrite lookup_insert_eq. simpl. tauto.
    + rewrite lookup_insert_ne by exact Hne. split; [tauto|].
      intros [[Heq|H]|H]; [congruence|tauto..].
Qed.

Lemma buildIndexSet_spec (indices : list Z) k :
  default false (buildIndexSet indices !! k) = bool_decide (k ∈ indices).
Proof.
  pose proof (buildIndexSet_from indices ∅ k) as H. fold (buildIndexSet indices) in H.
  rewrite lookup_empty in H. simpl in H.
  destruct (default false (buildIndexSet indices !! k)).
  - symmetry. apply bool_decide_eq_true. destruct H as [H _].
    destruct (H eq_refl) as [Hin|Hf]; [exact Hin|discriminate].
  - symmetry. apply bool_decide_eq_false. intros Hin. destruct H as [_ H].
    specialize (H (or_introl Hin)). discriminate.
Qed.

Lemma selectLoop_spec (approvedSet : gmap Z bool) (ids : list string) :
  forall i approved denied,
    0 <= i -> i + len ids <= int_max ->
    selectLoop approvedSet i ids approved denied =
    (approved ++ idsWhere (fun k => default false (approvedSet !! k)) i ids,
     denied ++ idsWhere (fun k => negb (default false (approvedSet !! k))) i ids).
Proof.
  induction ids as [|id ids IH]; intros i approved denied Hi Hmax.
  - simpl. rewrite !app_nil_r. reflexivity.
  - assert (Hlen : len (id :: ids) = 1 + len ids) by (unfold len; simpl length; lia).
    rewrite Hlen in Hmax. pose proof (len_nonneg ids) as Hp0.
    assert (Hi1 : add i 1 = i + 1) by (unfold add; apply wrap_small; int_bounds; lia).
    cbn [selectLoop idsWhere]. rewrite Hi1.
    destruct (default false (approvedSet !! (i + 1))); cbn [negb];
      rewrite IH by lia; rewrite <- ?app_assoc; reflexivity.
Qed.

Lemma idsWhere_partition (P : Z -> bool) (ids : list string) : forall i,
  idsWhere P i ids ++ idsWhere (fun k => negb (P k)) i ids ≡ₚ ids.
Proof.
  induction ids as [|id ids IH]; intros i; [reflexivity|].
  cbn [idsWhere]. destruct (P (i + 1)); cbn [negb].
  - simpl. constructor. apply IH.
  - rewrite <- Permutation_middle. constructor. apply IH.
Qed.

Lemma idsWhere_ext (P Q : Z -> bool) (ids : list string) : forall i,
  (forall k, P k = Q k) -> idsWhere P i ids = idsWhere Q i ids.
Proof.
  induction ids as [|id ids IH]; intros i H; [reflexivity|].
  cbn [idsWhere]. rewrite (H (i + 1)), (IH (i + 1) H). reflexivity.
Qed.

(** Which ids [idsWhere] keeps. *)
Lemma idsWhere_lookup (P : Z -> bool) (ids : list string) : forall i id,
  id ∈ idsWhere P i ids <->
  exists k, ids !! k = Some id /\ P (i + Z.of_nat k + 1) = true.
Proof.
  induction ids as [|x ids IH]; intros i id.
  - simpl. split; [intros H; inversion H|intros (k & Hk & _)].
    rewrite lookup_nil in Hk. discriminate.
  - cbn [idsWhere]. split.
    + intros H. destruct (P (i + 1)) eqn:HP.
      * apply elem_of_cons in H as [->|H].
        -- exists 0%nat. split; [reflexivity|]. rewrite <- HP. f_equal. lia.
        -- apply IH in H as (k & Hk & HPk). exists (S k). split; [exact Hk|].
           rewrite <- HPk. f_equal. lia.
      * apply IH in H as (k & Hk & HPk). exists (S k). split; [exact Hk|].
        rewrite <- HPk. f_equal. lia.
    + intros ([|k] & Hk & HPk).
      * simpl in Hk. inversion Hk; subst.
        replace (i + Z.of_nat 0 + 1) with (i + 1) in HPk by lia. rewrite HPk. left.
      * simpl in Hk.
        assert (Hin : id ∈ idsWhere P (i + 1) ids).
        { apply IH. exists k. split; [exact Hk|]. rewrite <- HPk. f_equal. lia. }
        destruct (P (i + 1)); [right|]; exact Hin.
Qed.

(** The indices [parseApprovalIndices] returns. *)
Lemma parseIndicesLoop_spec (S : Strings) (maxIndex : Z) (parts : list string) :
  forall indices seen out,
    (forall k, default false (seen !! k) = true <-> k ∈ indices) ->
    NoDup indices -> Forall (fun k => 1 <= k <= maxIndex) indices ->
    parseIndicesLoop S maxIndex parts indices seen = Some out ->
    NoDup out /\ Forall (fun k => 1 <= k <= maxIndex) out.
Proof.
  induction parts as [|part parts IH]; intros indices seen out Hseen Hnd Hall H.
  - inversion H; subst. split; assumption.
  - cbn [parseIndicesLoop] in H.
    destruct (String.eqb (TrimSpace S part) ""); [eapply IH; eassumption|].
    destruct (ScanInt S (TrimSpace S part)) as [idx|]; [|discriminate].
    destruct (Z.ltb_spec idx 1) as [|H1]; [discriminate|].
    destruct (Z.ltb_spec maxIndex idx) as [|H2]; [discriminate|]. cbn [orb] in H.
    destruct (default false (seen !! idx)) eqn:Hs; [eapply IH; eassumption|].
    assert (Hnew : idx ∉ indices).
    { intros Hin. apply Hseen in Hin. congruence. }
    eapply IH; [| | |exact H].
    + intros k. rewrite elem_of_app, list_elem_of_singleton, <- Hseen.
      destruct (decide (idx = k)) as [->|Hne].
      * rewrite lookup_insert_eq. simpl. tauto.
      * rewrite lookup_insert_ne by exact Hne. split; [tauto|].
        intros [Hk|Hk]; [exact Hk|congruence].
    + apply NoDup_app. split; [exact Hnd|]. split; [|apply NoDup_singleton].
      intros k Hk Hk'. apply list_elem_of_singleton in Hk'. subst k. contradiction.
    + apply Forall_app. split; [exact Hall|]. constructor; [lia|constructor].
Qed.

Lemma parseApprovalIndices_spec (S : Strings) input maxIndex indices :
  parseApprovalIndices S input maxIndex = Some indices ->
  indices <> [] /\ NoDup indices /\ Forall (fun k => 1 <= k <= maxIndex) indices.
Proof.
  unfold parseApprovalIndices.
  destruct (parseIndicesLoop S maxIndex (SplitComma S input) [] ∅) as [out|] eqn:Hp;
    [|discriminate].
  destruct (Nat.eqb_spec (length out) 0) as [|Hne]; [discriminate|].
  intros H. inversion H; subst. split.
  - intros ->. apply Hne. reflexivity.
  - eapply parseIndicesLoop_spec; [| | |exact Hp].
    + intros k. rewrite lookup_empty. simpl. split; [discriminate|intros Hk; inversion Hk].
    + constructor.
    + constructor.
Qed.

(** The response built from a selection of indices. *)
Lemma selection_response (indices : list Z) (ids : list string) :
  len ids <= int_max ->
  selectLoop (buildIndexSet indices) 0 ids [] [] =
  (idsWhere (fun k => bool_decide (k ∈ indices)) 0 ids,
   idsWhere (fun k => negb (bool_decide (k ∈ indices))) 0 ids).
Proof.
  intros Hlen. rewrite selectLoop_spec by lia. simpl. f_equal.
  - apply idsWhere_ext. intros k. apply buildIndexSet_spec.
  - apply idsWhere_ext. intros k. rewrite buildIndexSet_spec. reflexivity.
Qed.

Lemma isOneOf_spec line a b : isOneOf line a b = true <-> line = a \/ line = b.
Proof. unfold isOneOf. rewrite orb_true_iff, !String.eqb_eq. reflexivity. Qed.

End CliFacts.

(** X21. The answer typed at an approval prompt decides every pending
    call exactly once: the approved and the denied ids of the response
    are together a rearrangement of the pending call ids. "y", "yes", "a"
    and "always" deny nothing, so that the decision approves every call
    of the batch, and only "a" and "always" set the auto-approve flag;
    "n" and "no" approve nothing, so that every call awaiting approval is
    denied; any other recognised answer is a list of distinct 1-based
    positions within range, the pending calls at these positions are
    approved and all other pending calls denied. *)
Theorem approval_answer_decides_every_pending_call (S : Cli.Strings) (line : string)
    (pending : list Workflow.PendingApproval) (resp : Workflow.ApprovalResponse)
    (auto : bool) :
  len pending <= int_max ->
  Cli.HandleApprovalInput S line pending = (Some resp, auto) ->
  let answer := Cli.Lower S (Cli.TrimSpace S line) in
  let ids := Workflow.PendingCallID <$> pending in
  Workflow.Approved resp ++ Workflow.Denied resp ≡ₚ ids /\
  (answer = "y"%string \/ answer = "yes"%string \/
   answer = "a"%string \/ answer = "always"%string ->
   Workflow.Denied resp = [] /\
   forall calls, Workflow.applyApprovalDecision calls (Some resp) = (calls, [])) /\
  (auto = true <-> answer = "a"%string \/ answer = "always"%string) /\
  (answer = "n"%string \/ answer = "no"%string ->
   Workflow.Approved resp = [] /\
   forall calls fc,
     fc ∈ calls -> Workflow.CallID fc ∈ ids ->
     fc ∉ fst (Workflow.applyApprovalDecision calls (Some resp))) /\
  (~ (answer = "y"%string \/ answer = "yes"%string \/ answer = "n"%string \/
      answer = "no"%string \/ answer = "a"%string \/ answer = "always"%string) ->
   exists indices,
     Cli.parseApprovalIndices S answer (len pending) = Some indices /\
     indices <> [] /\ NoDup indices /\
     Forall (fun k => 1 <= k <= len pending) indices /\
     forall k p,
       pending !! k = Some p ->
       (Z.of_nat k + 1 ∈ indices -> Workflow.PendingCallID p ∈ Workflow.Approved resp) /\
       (Z.of_nat k + 1 ∉ indices -> Workflow.PendingCallID p ∈ Workflow.Denied resp) /\
       (NoDup ids ->
        forall calls fc,
          fc ∈ calls -> Workflow.CallID fc = Workflow.PendingCallID p ->
          (fc ∈ fst (Workflow.applyApprovalDecision calls (Some resp)) <->
           Z.of_nat k + 1 ∈ indices))).
Proof.
  intros Hlen H answer ids. unfold Cli.HandleApprovalInput in H.
  fold answer in H. fold ids in H.
  assert (Hall : forall calls,
            Workflow.applyApprovalDecision calls (Some (Workflow.mkResponse ids []))
            = (calls, [])).
  { intros calls. rewrite applyApprovalDecision_spec. simpl. f_equal.
    - apply filter_all. apply Forall_forall. intros fc _ Hin. inversion Hin.
    - rewrite filter_none; [reflexivity|].
      apply Forall_forall. intros fc _ Hin. inversion Hin. }
  destruct (Cli.isOneOf answer "y" "yes") eqn:Hy.
  { apply isOneOf_spec in Hy. inversion H; subst resp auto. cbn [Workflow.Approved Workflow.Denied app].
    rewrite app_nil_r. split; [reflexivity|]. split; [intros _; split; [reflexivity|exact Hall]|].
    split; [split; [discriminate|intros [Ha|Ha]; destruct Hy as [Hy|Hy]; congruence]|].
    split; [intros [Hn|Hn]; destruct Hy as [Hy|Hy]; congruence|].
    intros Hnot. exfalso. apply Hnot. tauto. }
  destruct (Cli.isOneOf answer "n" "no") eqn:Hn.
  { apply isOneOf_spec in Hn. inversion H; subst resp auto. cbn [Workflow.Approved Workflow.Denied app].
    split; [reflexivity|].
    split; [intros [Ha|[Ha|[Ha|Ha]]]; destruct Hn as [Hn|Hn]; congruence|].
    split; [split; [discriminate|intros [Ha|Ha]; destruct Hn as [Hn|Hn]; congruence]|].
    split.
    - intros _. split; [reflexivity|]. intros calls fc Hfc Hid.
      rewrite applyApprovalDecision_spec. simpl. intros Hin.
      apply list_elem_of_filter in Hin as [Hnot _]. exact (Hnot Hid).
    - intros Hnot. exfalso. apply Hnot. tauto. }
  destruct (Cli.isOneOf answer "a" "always") eqn:Ha.
  { apply isOneOf_spec in Ha. inversion H; subst resp auto. cbn [Workflow.Approved Workflow.Denied app].
    rewrite app_nil_r. split; [reflexivity|]. split; [intros _; split; [reflexivity|exact Hall]|].
    split; [split; [intros _; exact Ha|reflexivity]|].
    split; [intros [Hn'|Hn']; destruct Ha as [Ha|Ha]; congruence|].
    intros Hnot. exfalso. apply Hnot. tauto. }
  assert (Hy' : ~ (answer = "y"%string \/ answer = "yes"%string))
    by (intros Hc; apply isOneOf_spec in Hc; congruence).
  assert (Hn' : ~ (answer = "n"%string \/ answer = "no"%string))
    by (intros Hc; apply isOneOf_spec in Hc; congruence).
  assert (Ha' : ~ (answer = "a"%string \/ answer = "always"%string))
    by (intros Hc; apply isOneOf_spec in Hc; congruence).
  destruct (Cli.parseApprovalIndices S answer (len pending)) as [indices|] eqn:Hp;
    [|discriminate].
  assert (Hids : len ids <= int_max) by (unfold ids, len in *; rewrite length_fmap; exact Hlen).
  rewrite (selection_response indices ids Hids) in H. inversion H; subst resp auto.
  cbn [Workflow.Approved Workflow.Denied].
  split; [apply idsWhere_partition|]. split; [tauto|].
  split; [split; [discriminate|intros Hc; contradiction]|]. split; [tauto|].
  intros _. exists indices. split; [reflexivity|].
  destruct (parseApprovalIndices_spec S answer (len pending) indices Hp) as (Hne & Hnd & Hrange).
  split; [exact Hne|]. split; [exact Hnd|]. split; [exact Hrange|].
  intros k p Hk.
  assert (Hidk : ids !! k = Some (Workflow.PendingCallID p)).
  { unfold ids. rewrite list_lookup_fmap, Hk. reflexivity. }
  split; [|split].
  - intros Hin. apply idsWhere_lookup. exists k. split; [exact Hidk|].
    apply bool_decide_eq_true. replace (0 + Z.of_nat k + 1) with (Z.of_nat k + 1) by lia.
    exact Hin.
  - intros Hnin. apply idsWhere_lookup. exists k. split; [exact Hidk|].
    apply negb_true_iff, bool_decide_eq_false.
    replace (0 + Z.of_nat k + 1) with (Z.of_nat k + 1) by lia. exact Hnin.
  - intros Hnodup calls fc Hfc Hid. rewrite applyApprovalDecision_spec. simpl.
    rewrite list_elem_of_filter, Hid, idsWhere_lookup. split.
    + intros [Hnot _]. destruct (decide (Z.of_nat k + 1 ∈ indices)) as [Hin|Hnin]; [exact Hin|].
      exfalso. apply Hnot. exists k. split; [exact Hidk|].
      apply negb_true_iff, bool_decide_eq_false.
      replace (0 + Z.of_nat k + 1) with (Z.of_nat k + 1) by lia. exact Hnin.
    + intros Hin. split; [|exact Hfc]. intros (k' & Hk' & HP).
      assert (k' = k) by (eapply NoDup_lookup; eassumption). subst k'.
      apply negb_true_iff, bool_decide_eq_false in HP. apply HP.
      replace (0 + Z.of_nat k + 1) with (Z.of_nat k + 1) by lia. exact Hin.
Qed.

Lemma approval_answer_decides_every_pending_call_witness :
  let pending := [Workflow.mkPending "call_1" "shell" "{}" "";
                  Workflow.mkPending "call_2" "write_file" "{}" "";
                  Workflow.mkPending "call_3" "apply_patch" "{}" ""] in
  let resp := Workflow.mkResponse ["call_1"; "call_3"]%string ["call_2"]%string in
  Cli.HandleApprovalInput Cli.sampleStrings "3,1,3" pending = (Some resp, false) /\
  Workflow.Approved resp ++ Workflow.Denied resp ≡ₚ Workflow.PendingCallID <$> pending.
Proof.
  intros pending resp.
  assert (H : Cli.HandleApprovalInput Cli.sampleStrings "3,1,3" pending = (Some resp, false))
    by (vm_compute; reflexivity).
  split; [exact H|].
  refine (proj1 (approval_answer_decides_every_pending_call Cli.sampleStrings "3,1,3"
                   pending resp false _ H)).
  vm_compute. intros Hc. discriminate Hc.
Defined.

(** X22. The answer typed at an escalation prompt is carried out. When
    the response the workflow receives is the one [HandleEscalationInput]
    builds from the pending escalation requests, then after "n" or "no"
    [handleOnFailureEscalation] returns the results exactly as they were,
    and after "y" or "yes" every result that was a sandbox denial is
    replaced by the first result of its call's re-execution (or kept when
    the re-execution fails or returns nothing), the other results staying
    as they were. *)
Theorem escalation_answer_is_carried_out (E : Workflow.External) (S : Cli.Strings)
    (reexec : Escalation.Reexecute) (wait : Escalation.Wait) (s : Workflow.SessionState)
    (calls : list Workflow.ConversationItem)
    (results : list Workflow.ToolActivityOutput)
    (line : string) (s2 : Workflow.SessionState) (resp : Workflow.ApprovalResponse) :
  (length results <= length calls)%nat ->
  (exists r, r ∈ results /\ Escalation.sandboxDenied E r) ->
  let s1 := Workflow.mkSessionState Workflow.PhaseEscalationPending
              (omap (Workflow.escalationOf E) (zip results calls)) false None
              (Workflow.Plan s) in
  let answer := Cli.Lower S (Cli.TrimSpace S line) in
  wait s1 = Some (s2, false) ->
  Cli.HandleEscalationInput S line (Workflow.PendingEscalations s1) = Some resp ->
  Workflow.EscalationResponse s2 = Some resp ->
  exists results',
    Escalation.handleOnFailureEscalation E reexec wait s calls results
      = Escalation.Returned results' (Escalation.clearPending s2) /\
    (answer = "n"%string \/ answer = "no"%string -> results' = results) /\
    (answer = "y"%string \/ answer = "yes"%string ->
     forall i r fc,
       results !! i = Some r -> calls !! i = Some fc ->
       (Escalation.sandboxDenied E r ->
        results' !! i = Some match reexec i fc with
                             | Some (r' :: _) => r'
                             | _ => r
                             end) /\
       (~ Escalation.sandboxDenied E r -> results' !! i = Some r)).
Proof.
  intros Hlen Hsome s1 answer Hwait Hinput Hresp.
  destruct (escalation_outcome E reexec wait s calls results Hlen Hsome) as [_ Hout].
  fold s1 in Hout.
  destruct (Hout s2 false Hwait) as (results' & Hret & _ & Hl & _ & Hat).
  exists results'. split; [exact Hret|].
  unfold Cli.HandleEscalationInput in Hinput. fold answer in Hinput.
  cbn [Workflow.PendingEscalations s1] in Hinput. split.
  - intros Hn.
    assert (Hy : Cli.isOneOf answer "y" "yes" = false).
    { destruct (Cli.isOneOf answer "y" "yes") eqn:Hy; [|reflexivity].
      apply isOneOf_spec in Hy. destruct Hn as [Hn|Hn], Hy as [Hy|Hy]; congruence. }
    rewrite Hy in Hinput. rewrite (proj2 (isOneOf_spec answer "n" "no") Hn) in Hinput.
    inversion Hinput; subst resp.
    apply list_eq. intros i. destruct (results !! i) as [r|] eqn:Hr.
    + destruct (calls !! i) as [fc|] eqn:Hfc.
      2:{ apply lookup_ge_None_1 in Hfc. apply lookup_lt_Some in Hr. lia. }
      apply (Hat _ i r fc eq_refl Hresp Hr Hfc). simpl. intros [_ Hin]. inversion Hin.
    + apply lookup_ge_None_2. rewrite Hl. apply lookup_ge_None_1. exact Hr.
  - intros Hy. rewrite (proj2 (isOneOf_spec answer "y" "yes") Hy) in Hinput.
    inversion Hinput; subst resp. intros i r fc Hr Hfc. split.
    + intros Hd. apply (Hat _ i r fc eq_refl Hresp Hr Hfc); [exact Hd|].
      simpl. apply (escalation_ids E results calls i r fc); assumption.
    + intros Hnd. apply (Hat _ i r fc eq_refl Hresp Hr Hfc). tauto.
Qed.

Lemma escalation_answer_is_carried_out_witness :
  let denied := Workflow.mkToolOutput "call_1" "rm: permission denied" (Some false) in
  let redone := Workflow.mkToolOutput "call_1" "removed" (Some true) in
  let s := Workflow.mkSessionState Workflow.PhaseToolExecuting [] false None None in
  let resp := Workflow.mkResponse [] ["call_1"%string] in
  let wait := fun s1 : Workflow.SessionState =>
                Some (Workflow.mkSessionState (Workflow.SessionPhase s1)
                        (Workflow.PendingEscalations s1) true (Some resp)
                        (Workflow.Plan s1), false) in
  exists results' s2,
    Escalation.handleOnFailureEscalation Workflow.sampleExternal
      (fun _ _ => Some [redone]) wait s [Workflow.rmCall] [denied]
      = Escalation.Returned results' (Escalation.clearPending s2) /\
    (Cli.Lower Cli.sampleStrings (Cli.TrimSpace Cli.sampleStrings "N") = "n"%string \/
     Cli.Lower Cli.sampleStrings (Cli.TrimSpace Cli.sampleStrings "N") = "no"%string ->
     results' = [denied]).
Proof.
  intros denied redone s resp wait.
  destruct (escalation_answer_is_carried_out Workflow.sampleExternal Cli.sampleStrings
              (fun _ _ => Some [redone]) wait s [Workflow.rmCall] [denied] "N"
              (Workflow.mkSessionState Workflow.PhaseEscalationPending
                 (omap (Workflow.escalationOf Workflow.sampleExternal)
                       (zip [denied] [Workflow.rmCall])) true (Some resp) None)
              resp) as (results' & Hret & Hn & _).
  - simpl. lia.
  - exists denied. split; [left|]. split; vm_compute; reflexivity.
  - reflexivity.
  - vm_compute. reflexivity.
  - reflexivity.
  - eexists results', _. split; [exact Hret|exact Hn].
Defined.
